(** * Sub0Pub: broker, binary writer, buffer register and binary reader

    A shallow embedding of [include/sub0pub/sub0pub.hpp] together with the
    properties of its publish/subscribe broker and of its streaming binary
    protocol. *)

From Stdlib Require Import NArith ZArith Lia String.
From Stdlib.Strings Require Import Byte.
From stdpp Require Import base numbers option list sorting gmap.

Local Open Scope nat_scope.

(** ** Build configuration and outcomes of a call

    The header is compiled under three switches that decide what a failed
    check does: [__cpp_exceptions] (a failed framing check throws
    [std::runtime_error]), [NDEBUG] (every [assert] is compiled out) and
    [SUB0PUB_ASSERT] (the [cDoAssert] parameter of [detail::CheckT]). *)
Module Build.

Record Config : Type := MkConfig {
  cpp_exceptions : bool;
  ndebug : bool;
  sub0pub_assert : bool
}.

(** How a call can end other than by returning. *)
Inductive Fault : Type :=
| Aborted                 (* a failed [assert] *)
| Thrown (msg : string)   (* [throw std::runtime_error(msg)] *)
| Undefined.              (* behaviour the language leaves undefined *)

Inductive Outcome (A : Type) : Type :=
| Returned (a : A)
| Faulted (f : Fault).
Global Arguments Returned {A} a.
Global Arguments Faulted {A} f.

Definition bind {A B} (x : Outcome A) (k : A -> Outcome B) : Outcome B :=
  match x with
  | Returned a => k a
  | Faulted f => Faulted f
  end.

(** [assert(cond)]. *)
Definition assert (cfg : Config) (cond : bool) : Outcome unit :=
  if ndebug cfg then Returned tt
  else if cond then Returned tt else Faulted Aborted.

(** The failure block of the reader:
    [#if __cpp_exceptions throw ... #else assert((void* )0 == msg) #endif]. *)
Definition raise (cfg : Config) (msg : string) : Outcome unit :=
  if cpp_exceptions cfg then Faulted (Thrown msg)
  else assert cfg false.

End Build.
Import Build.

(** [Outcome] is used through stdpp's monad notation. *)
Global Instance Outcome_ret : MRet Outcome := @Returned.
Global Instance Outcome_bind : MBind Outcome := λ A B k x, Build.bind x k.

(** ** Broker<Data> *)
Module Broker.

(** [cMaxSubscriptions]. *)
Definition cMaxSubscriptions : nat := 8.

(** A [Subscribe<Data>*]: [None] is the null pointer, [Some s] the address
    of subscriber object [s]. *)
Abbreviation SubscribePtr := (option nat).

(** [Broker::State]: the count is a [uint32_t], the table a fixed array of
    [cMaxSubscriptions] pointers. *)
Record State : Type := MkState {
  subscriptionCount : N;
  subscriptions : list SubscribePtr
}.

(** [State()]: count zero, table value-initialised to null pointers. *)
Definition State_init : State :=
  {| subscriptionCount := 0%N; subscriptions := replicate cMaxSubscriptions None |}.

Definition uint32_wrap (n : Z) : N := Z.to_N (n mod 2 ^ 32).

(** [detail::CheckT::onSubscription]. *)
Definition onSubscription (cfg : Config) (subscriber : SubscribePtr)
    (subscriptionCount : N) (subscriptionCapacity : nat) : Outcome unit :=
  if sub0pub_assert cfg then
    assert cfg (bool_decide (subscriber ≠ None)) ;;
    assert cfg (bool_decide (N.to_nat subscriptionCount < subscriptionCapacity))
  else Returned tt.

(** [Broker(Subscribe<Data>* subscriber)]:
    [state_.subscriptions[state_.subscriptionCount++] = subscriber]. A store
    past the end of the table is undefined. *)
Definition subscribe (cfg : Config) (subscriber : SubscribePtr) (st : State)
    : Outcome State :=
  onSubscription cfg subscriber (subscriptionCount st) cMaxSubscriptions ;;
  let i := N.to_nat (subscriptionCount st) in
  if bool_decide (i < length (subscriptions st)) then
    Returned {| subscriptionCount := uint32_wrap (Z.of_N (subscriptionCount st) + 1);
                subscriptions := <[i := subscriber]> (subscriptions st) |}
  else Faulted Undefined.

(** [std::remove(first, last, value)] on a range of pointers: the elements
    that differ from [value] are moved to the front in order; the slots
    behind the returned end keep what they held. Returns the range and the
    index of the new logical end. *)
Definition std_remove (value : SubscribePtr) (range : list SubscribePtr)
    : list SubscribePtr * nat :=
  let kept := filter (λ x, x ≠ value) range in
  (kept ++ drop (length kept) range, length kept).

(** [unsubscribe(Subscribe<Data>* subscriber)]. The range handed to
    [std::remove] is [subscriptions, subscriptions + subscriptionCount); a
    range past the end of the table is undefined. *)
Definition unsubscribe (cfg : Config) (subscriber : SubscribePtr) (st : State)
    : Outcome State :=
  let n := N.to_nat (subscriptionCount st) in
  if bool_decide (n ≤ length (subscriptions st)) then
    let '(range, iPend) := std_remove subscriber (take n (subscriptions st)) in
    assert cfg (bool_decide (n - iPend = 1)) ;;
    Returned {| subscriptionCount := uint32_wrap (Z.of_N (subscriptionCount st) - 1);
                subscriptions := range ++ drop n (subscriptions st) |}
  else Faulted Undefined.

Section Publish.

(** The message type of the broker and the virtual members of its
    subscribers: [filter] decides, [receive] is recorded as a call. *)
Context {Data : Type}.
Variable filter_of : nat -> Data -> bool.

(** The calls [publish] makes on subscribers: [filter(data)] and
    [receive(data)]. *)
Inductive Call : Type :=
| Filter (s : nat) (data : Data)
| Receive (s : nat) (data : Data).

(** The subscriber whose [receive] a call is. *)
Definition receiver (c : Call) : option nat :=
  match c with
  | Receive s _ => Some s
  | Filter _ _ => None
  end.

(** [detail::CheckT::onReceive]. *)
Definition onReceive (cfg : Config) (subscriber : SubscribePtr) : Outcome unit :=
  if sub0pub_assert cfg then
    if bool_decide (subscriber = None) then assert cfg false else Returned tt
  else Returned tt.

(** The body of the loop of [publish] for index [iSubscription]; reading
    past the table and calling through a null pointer are undefined. *)
Definition publish_one (cfg : Config) (st : State) (data : Data)
    (iSubscription : nat) (calls : list Call) : Outcome (list Call) :=
  match subscriptions st !! iSubscription with
  | None => Faulted Undefined
  | Some subscription =>
      onReceive cfg subscription ;;
      match subscription with
      | None => Faulted Undefined
      | Some s =>
          if filter_of s data
          then Returned (calls ++ [Filter s data; Receive s data])
          else Returned (calls ++ [Filter s data])
      end
  end.

(** [for (iSubscription = i; iSubscription < subscriptionCount; ++iSubscription)],
    with [todo] the number of iterations left. *)
Fixpoint publish_loop (cfg : Config) (st : State) (data : Data)
    (todo iSubscription : nat) (calls : list Call) : Outcome (list Call) :=
  match todo with
  | 0 => Returned calls
  | S todo' =>
      calls' ← publish_one cfg st data iSubscription calls;
      publish_loop cfg st data todo' (S iSubscription) calls'
  end.

(** [publish(const Data& data)]: the calls it makes, in order. *)
Definition publish (cfg : Config) (st : State) (data : Data) : Outcome (list Call) :=
  publish_loop cfg st data (N.to_nat (subscriptionCount st)) 0 [].

(** The subscriber a call is made on. *)
Definition callee (c : Call) : nat :=
  match c with
  | Filter s _ => s
  | Receive s _ => s
  end.

(** What one visit of subscriber [s] consists of. *)
Definition visit (data : Data) (s : nat) : list Call :=
  if filter_of s data then [Filter s data; Receive s data] else [Filter s data].

(** The registered subscribers: the table up to the count. *)
Definition registered (st : State) : list SubscribePtr :=
  take (N.to_nat (subscriptionCount st)) (subscriptions st).

(** A table as the handles build it: an array of [cMaxSubscriptions]
    pointers, the count within it, no null entry among the registered
    ones. *)
Definition wf (st : State) : Prop :=
  length (subscriptions st) = cMaxSubscriptions ∧
  N.to_nat (subscriptionCount st) ≤ cMaxSubscriptions ∧
  None ∉ registered st.

(** The subscribers behind the registered pointers, in table order. *)
Definition registered_ids (st : State) : list nat :=
  omap id (registered st).

(** How many registered entries hold the pointer. *)
Definition occurrences (subscriber : SubscribePtr) (st : State) : nat :=
  length (filter (λ p, p = subscriber) (registered st)).

(** A run of registrations, as the constructors of the handles make them. *)
Fixpoint subscribe_all (cfg : Config) (subscribers : list SubscribePtr)
    (st : State) : Outcome State :=
  match subscribers with
  | [] => Returned st
  | p :: rest => st' ← subscribe cfg p st; subscribe_all cfg rest st'
  end.

End Publish.

End Broker.

(** ** Bytes and the object representation of [uint32_t] *)
Module Wire.

Global Instance byte_eq_dec : EqDecision byte := Byte.byte_eq_dec.

(** The byte with value [n mod 256]. *)
Definition byte_of_N (n : N) : byte :=
  default x00 (Byte.of_N (n mod 256)%N).

(** The four bytes of a [uint32_t] in memory, least significant first (the
    protocol copies objects as they lie in memory; a little-endian host is
    taken). *)
Definition uint32_bytes (n : N) : list byte :=
  [ byte_of_N n; byte_of_N (n / 2 ^ 8)%N;
    byte_of_N (n / 2 ^ 16)%N; byte_of_N (n / 2 ^ 24)%N ].

(** The [uint32_t] held by (at most) four bytes, least significant first. *)
Fixpoint uint32_of_bytes (bs : list byte) : N :=
  match bs with
  | [] => 0%N
  | b :: bs' => (Byte.to_N b + 2 ^ 8 * uint32_of_bytes bs')%N
  end.

(** [utility::FourCC<a,b,c,d>::value]. *)
Definition FourCC (a b c d : N) : N :=
  N.lor (N.shiftl (N.lor (N.shiftl (N.lor (N.shiftl d 8) c) 8) b) 8) a.

End Wire.
Import Wire.

(** ** DefaultSerialisation::Header *)
Module Header.

(** Both fields are [uint32_t]. *)
Record t : Type := Make {
  typeId : N;
  dataBytes : N
}.

Global Instance eq_dec : EqDecision t.
Proof. solve_decision. Defined.

(** [operator <]: sort by typeId only. *)
Definition lt (lhs rhs : t) : bool := (typeId lhs <? typeId rhs)%N.

(** [operator ==]: compare full equality. *)
Definition eqb (lhs rhs : t) : bool :=
  (typeId lhs =? typeId rhs)%N && (dataBytes lhs =? dataBytes rhs)%N.

(** [sizeof(Header)]. *)
Definition size : nat := 8.

(** The object representation: [typeId] then [dataBytes]. *)
Definition bytes (h : t) : list byte :=
  uint32_bytes (typeId h) ++ uint32_bytes (dataBytes h).

(** The header held by the eight bytes of a [Header] object. *)
Definition of_bytes (bs : list byte) : t :=
  {| typeId := uint32_of_bytes (take 4 bs);
     dataBytes := uint32_of_bytes (take 4 (drop 4 bs)) |}.

(** Both fields fit their [uint32_t]. *)
Definition valid (h : t) : Prop :=
  (typeId h < 2 ^ 32)%N ∧ (dataBytes h < 2 ^ 32)%N.

End Header.

(** ** struct Buffer *)

(** The objects the reader writes into: its own [prefix_], [header_] and
    [postfix_] members, and the [Data buffer_] of the publisher object [k]
    (a [ForwardPublish<Data, ...>]). *)
Inductive Object : Type :=
| PrefixMember
| HeaderMember
| PostfixMember
| DataBuffer (k : nat).

Global Instance Object_eq_dec : EqDecision Object.
Proof. solve_decision. Defined.

(** A non-null [char*]: an object and a byte offset into it. *)
Abbreviation Address := (Object * nat)%type.

(** [buffer] and [publisher] are pointers, [None] the null pointer;
    [publisher = Some k] points to the [IPublish] of publisher object [k].
    The sizes are [uint_fast16_t]; the code only ever subtracts from them a
    count the stream returned for a request of that size, so they are
    naturals here. *)
Record Buffer : Type := MkBuffer {
  buffer : option Address;
  bufferSize : nat;
  paddingSize : nat;
  publisher : option nat
}.

Global Instance Buffer_eq_dec : EqDecision Buffer.
Proof. solve_decision. Defined.

(** [Buffer()] and [{ nullptr, 0U, 0U, nullptr }]. *)
Definition Buffer_null : Buffer :=
  {| buffer := None; bufferSize := 0; paddingSize := 0; publisher := None |}.

(** ** BufferRegister<Header_t, cMaxDataBufferCount> *)
Module BufferRegister.

(** [cMaxDataBufferCount]. *)
Definition cMaxDataBufferCount : nat := 64.

Abbreviation HeaderToBuffer := (Header.t * Buffer)%type.

(** The entries [registry_.begin(), registryEnd_) of the fixed array; the
    slots behind [registryEnd_] are never read. *)
Abbreviation t := (list HeaderToBuffer).

(** [BufferRegister()]. *)
Definition empty : t := [].

(** The loop of [std::lower_bound]: halve [len] until it is zero. *)
Fixpoint lower_bound_loop {A} (comp : A -> bool) (range : list A)
    (fuel first len : nat) : nat :=
  match fuel with
  | 0 => first
  | S fuel' =>
      if bool_decide (0 < len) then
        let half := len / 2 in
        let middle := first + half in
        match range !! middle with
        | Some x =>
            if comp x
            then lower_bound_loop comp range fuel' (S middle) (len - half - 1)
            else lower_bound_loop comp range fuel' first half
        | None => first
        end
      else first
  end.

(** [std::lower_bound(first, last, value, comp)] as an index into the
    range, [comp x] standing for [comp(x, value)]. [len] at least halves in
    every round, so [length range] rounds are enough. *)
Definition lower_bound {A} (comp : A -> bool) (range : list A) : nat :=
  lower_bound_loop comp range (length range) 0 (length range).

(** [set(const Header_t& header, const Buffer& buffer)]. Without the
    [assert], a new entry in a full array is moved past its end. *)
Definition set (cfg : Config) (header : Header.t) (buf : Buffer) (reg : t)
    : Outcome t :=
  assert cfg (bool_decide (length reg < cMaxDataBufferCount)) ;;
  let iInsert := lower_bound (λ lhs, Header.lt lhs.1 header) reg in
  match reg !! iInsert with
  | Some found =>
      if Header.eqb found.1 header
      then Returned (<[iInsert := (found.1, buf)]> reg)
      else if bool_decide (length reg < cMaxDataBufferCount)
      then Returned (take iInsert reg ++ (header, buf) :: drop iInsert reg)
      else Faulted Undefined
  | None =>
      if bool_decide (length reg < cMaxDataBufferCount)
      then Returned (take iInsert reg ++ (header, buf) :: drop iInsert reg)
      else Faulted Undefined
  end.

(** [find(const Header_t header)]. *)
Definition find (header : Header.t) (reg : t) : Buffer :=
  let iFind := lower_bound (λ lhs, Header.lt lhs.1 header) reg in
  match reg !! iFind with
  | Some found => if Header.eqb found.1 header then found.2 else Buffer_null
  | None => Buffer_null
  end.

(** [validate(const Header_t& header)]. *)
Definition validate (header : Header.t) (reg : t) : bool := true.

(** A run of [set] calls. *)
Fixpoint set_all (cfg : Config) (calls : list HeaderToBuffer) (reg : t) : Outcome t :=
  match calls with
  | [] => Returned reg
  | (h, b) :: calls' => reg' ← set cfg h b reg; set_all cfg calls' reg'
  end.

(** What [std::lower_bound] is specified to return on a range partitioned
    by [comp]: the first position where [comp] is false. *)
Fixpoint partition_point {A} (comp : A -> bool) (range : list A) : nat :=
  match range with
  | [] => 0
  | x :: range' => if comp x then S (partition_point comp range') else 0
  end.

(** The range is partitioned by [comp]: no element passes [comp] behind
    one that fails it. *)
Definition partitioned {A} (comp : A -> bool) (range : list A) : Prop :=
  ∀ i j x y, i ≤ j → range !! i = Some x → range !! j = Some y →
             comp y = true → comp x = true.

(** Ordered insertion by a scan from the front: the reference [set] is
    compared with. *)
Fixpoint upsert_ordered (header : Header.t) (buf : Buffer) (reg : t) : t :=
  match reg with
  | [] => [(header, buf)]
  | (h, b) :: reg' =>
      if Header.lt h header then (h, b) :: upsert_ordered header buf reg'
      else if Header.eqb h header then (h, buf) :: reg'
      else (header, buf) :: (h, b) :: reg'
  end.

(** Lookup by a scan from the front: the reference [find] is compared
    with. *)
Fixpoint find_ordered (header : Header.t) (reg : t) : Buffer :=
  match reg with
  | [] => Buffer_null
  | (h, b) :: reg' =>
      if Header.lt h header then find_ordered header reg'
      else if Header.eqb h header then b
      else Buffer_null
  end.

(** The entries are in strictly increasing order of [typeId]. *)
Definition sorted_by_typeId (reg : t) : Prop :=
  StronglySorted (λ a b, (Header.typeId a.1 < Header.typeId b.1)%N) reg.

(** In a run of [set] calls, the [typeId] identifies the type: two headers
    with the same [typeId] are the same header. *)
Definition typeId_keyed (calls : list HeaderToBuffer) : Prop :=
  ∀ h1 h2, h1 ∈ calls.*1 → h2 ∈ calls.*1 →
           Header.typeId h1 = Header.typeId h2 → h1 = h2.

(** No entry of the register shares the [typeId] of [header] without
    being [header]. *)
Definition agrees (header : Header.t) (reg : t) : Prop :=
  ∀ e, e ∈ reg → Header.typeId e.1 = Header.typeId header → e.1 = header.

(** The descriptor the last [set] call for [header] passed, if any. *)
Fixpoint last_set (header : Header.t) (calls : list HeaderToBuffer)
    : option Buffer :=
  match calls with
  | [] => None
  | (h, b) :: calls' =>
      match last_set header calls' with
      | Some b' => Some b'
      | None => if decide (h = header) then Some b else None
      end
  end.

(** What a run of calls has built: a sorted register that holds, for every
    header, the descriptor of the last call for it. *)
Definition built (done : list HeaderToBuffer) (reg : t) : Prop :=
  sorted_by_typeId reg ∧ ∀ h b, (h, b) ∈ reg ↔ last_set h done = Some b.

(** C7 as stated, for one run of [set] calls: no header twice. *)
Definition one_entry_per_header (cfg : Config) (calls : list HeaderToBuffer)
    : Prop :=
  ∀ reg, set_all cfg calls empty = Returned reg → NoDup reg.*1.

(** C8 as stated, for one run of [set] calls: [find] returns the
    descriptor of the entry with that header, and a null buffer when there
    is none. *)
Definition find_exact (cfg : Config) (calls : list HeaderToBuffer) : Prop :=
  ∀ reg h, set_all cfg calls empty = Returned reg →
    (∀ b, (h, b) ∈ reg → find h reg = b) ∧
    (h ∉ reg.*1 → buffer (find h reg) = None).

End BufferRegister.

(** ** The protocol: the template arguments of writer and reader

    [Prefix_t] and [Postfix_t] are [None] for [void] and otherwise hold the
    object representation of the default-constructed value ([Prefix_t()],
    [Postfix_t()]); [Header_t] is [DefaultSerialisation::Header]. *)
Record Protocol : Type := MkProtocol {
  Prefix_t : option (list byte);
  Postfix_t : option (list byte)
}.

(** [!std::is_void<T>::value ? sizeof(member) : 0U]. *)
Definition sizeof_or_0 (T : option (list byte)) : nat :=
  match T with Some v => length v | None => 0 end.

(** The member of type [std::conditional<is_void<T>, char, T>], value
    initialised. *)
Definition member_init (T : option (list byte)) : list byte :=
  match T with Some v => v | None => [x00] end.

(** A message object of some [Data] type: the type's identifier (what
    [Broker<Data>::typeId()] returns, or the constant 12345 without
    [SUB0PUB_TYPEIDNAME]) and the bytes of the object. *)
Record Message : Type := MkMessage {
  type_id : N;
  object_bytes : list byte
}.

(** [Header(const Data& data)]: [typeId] of the type, [dataBytes(sizeof(Data))]. *)
Definition Header_of (data : Message) : Header.t :=
  {| Header.typeId := type_id data;
     Header.dataBytes := (N.of_nat (length (object_bytes data)) mod 2 ^ 32)%N |}.

(** ** BinaryWriter<Prefix_t, Header_t, Postfix_t> *)
Module BinaryWriter.

(** The transport behind [OStream]: the bytes it has accepted and how many
    more it will accept; [write] returns the count it accepted. *)
Record OStream : Type := MkOStream {
  wire : list byte;
  room : nat
}.

(** [OStream::write(buffer, bufferCount)]. *)
Definition OStream_write (bs : list byte) (s : OStream) : nat * OStream :=
  let k := min (length bs) (room s) in
  (k, {| wire := wire s ++ take k bs; room := room s - k |}).

(** [utility::write(stream, value)]: written count [== sizeof(value)]. *)
Definition utility_write (value : list byte) (s : OStream) : bool * OStream :=
  let '(k, s') := OStream_write value s in
  (bool_decide (k = length value), s').

(** [utility::write<Type_t>(stream)], with the specialisation for [void]. *)
Definition utility_write_default (T : option (list byte)) (s : OStream)
    : bool * OStream :=
  match T with
  | None => (true, s)
  | Some defaulted => utility_write defaulted s
  end.

(** [write(stream, data)]: the four writes joined by [&&]. *)
Definition write (proto : Protocol) (s : OStream) (data : Message)
    : bool * OStream :=
  let '(ok, s) := utility_write_default (Prefix_t proto) s in
  if ok then
    let '(ok, s) := utility_write (Header.bytes (Header_of data)) s in
    if ok then
      let '(ok, s) := utility_write (object_bytes data) s in
      if ok then utility_write_default (Postfix_t proto) s
      else (false, s)
    else (false, s)
  else (false, s).

(** The frame of a message: what a successful [write] puts on the wire. *)
Definition frame (proto : Protocol) (data : Message) : list byte :=
  default [] (Prefix_t proto) ++ Header.bytes (Header_of data)
  ++ object_bytes data ++ default [] (Postfix_t proto).


End BinaryWriter.

(** ** BinaryReader<Prefix_t, Header_t, Postfix_t> *)
Module State.
Inductive t : Type := Prefix | Header | Data | Postfix | SyncLost | COUNT_.
Global Instance eq_dec : EqDecision t.
Proof. solve_decision. Defined.
End State.

Module BinaryReader.

Record t : Type := MkReader {
  dataBufferRegistery_ : BufferRegister.t;
  currentBuffer_ : Buffer;
  state_ : State.t;
  prefix_ : list byte;
  header_ : list byte;
  postfix_ : list byte
}.

(** What the reader acts on besides itself: the bytes the [IStream] holds
    and has not handed out yet, the [Data buffer_] of every publisher
    object, and the [IPublish::publish()] calls made so far, each with the
    content of the publisher's buffer at the call. *)
Record World : Type := MkWorld {
  stream : list byte;
  heap : gmap nat (list byte);
  published : list (nat * list byte)
}.

Abbreviation Sys := (t * World)%type.

(** Member functions run on the reader and its world, and end by returning
    or by a fault; the reader a fault leaves behind is kept, since a caller
    that catches the exception polls the same object again. *)
Definition M (A : Type) : Type := Sys -> Outcome A * Sys.

Global Instance M_ret : MRet M := λ A a s, (Returned a, s).
Global Instance M_bind : MBind M := λ A B k m s,
  match m s with
  | (Returned a, s') => k a s'
  | (Faulted f, s') => (Faulted f, s')
  end.

Definition get_reader : M t := λ s, (Returned s.1, s).
Definition lift {A} (o : Outcome A) : M A := λ s, (o, s).

(** The reader with another current buffer, and with another state. *)
Definition with_currentBuffer (b : Buffer) (r : t) : t :=
  MkReader (dataBufferRegistery_ r) b (state_ r) (prefix_ r) (header_ r) (postfix_ r).

Definition with_state (st : State.t) (r : t) : t :=
  MkReader (dataBufferRegistery_ r) (currentBuffer_ r) st
           (prefix_ r) (header_ r) (postfix_ r).

Definition set_currentBuffer (b : Buffer) : M unit := λ '(r, w),
  (Returned tt, (with_currentBuffer b r, w)).

Definition set_state (st : State.t) : M unit := λ '(r, w),
  (Returned tt, (with_state st r, w)).

(** The reader with another register. *)
Definition with_registry (reg : BufferRegister.t) (r : t) : t :=
  MkReader reg (currentBuffer_ r) (state_ r) (prefix_ r) (header_ r) (postfix_ r).

Definition set_registry (reg : BufferRegister.t) : M unit := λ '(r, w),
  (Returned tt, (with_registry reg r, w)).

(** The world with other bytes on the stream. *)
Definition with_stream (s : list byte) (w : World) : World :=
  MkWorld s (heap w) (published w).

(** [BinaryReader()]: every member value-initialised. *)
Definition init (proto : Protocol) : t :=
  {| dataBufferRegistery_ := BufferRegister.empty;
     currentBuffer_ := Buffer_null;
     state_ := State.Prefix;
     prefix_ := member_init (Prefix_t proto);
     header_ := replicate Header.size x00;
     postfix_ := member_init (Postfix_t proto) |}.

(** Bytes [bs] stored at offset [off] of an object; [None] when they do not
    fit. *)
Definition store_at (off : nat) (bs obj : list byte) : option (list byte) :=
  if bool_decide (off + length bs ≤ length obj)
  then Some (take off obj ++ bs ++ drop (off + length bs) obj)
  else None.

(** Bytes stored at an address. *)
Definition store_object (a : Address) (bs : list byte) (s : Sys) : option Sys :=
  let '(r, w) := s in
  match a.1 with
  | PrefixMember =>
      obj ← store_at a.2 bs (prefix_ r);
      Some (MkReader (dataBufferRegistery_ r) (currentBuffer_ r) (state_ r)
                     obj (header_ r) (postfix_ r), w)
  | HeaderMember =>
      obj ← store_at a.2 bs (header_ r);
      Some (MkReader (dataBufferRegistery_ r) (currentBuffer_ r) (state_ r)
                     (prefix_ r) obj (postfix_ r), w)
  | PostfixMember =>
      obj ← store_at a.2 bs (postfix_ r);
      Some (MkReader (dataBufferRegistery_ r) (currentBuffer_ r) (state_ r)
                     (prefix_ r) (header_ r) obj, w)
  | DataBuffer k =>
      old ← heap w !! k;
      obj ← store_at a.2 bs old;
      Some (r, MkWorld (stream w) (<[k := obj]> (heap w)) (published w))
  end.

(** The bytes a read call got, stored through the [char*] it was given:
    nothing is touched when it got none; storing through a null pointer
    or past the end of the object is undefined ([None]). *)
Definition store (p : option Address) (bs : list byte) (s : Sys) : option Sys :=
  if bool_decide (bs = []) then Some s
  else match p with
       | Some a => store_object a bs s
       | None => None
       end.

(** [IStream::read(buffer, bufferCount)]: hands out what the stream holds,
    at most [bufferCount] bytes, and returns the count. *)
Definition IStream_read (buf : option Address) (bufferCount : nat) : M nat :=
  λ '(r, w),
  let got := take bufferCount (stream w) in
  let w' := with_stream (drop bufferCount (stream w)) w in
  match store buf got (r, w') with
  | Some s' => (Returned (length got), s')
  | None => (Faulted Undefined, (r, w'))
  end.

(** [IStream::ignore(bufferCount)]. *)
Definition IStream_ignore (bufferCount : nat) : M nat := λ '(r, w),
  (Returned (length (take bufferCount (stream w))),
   (r, with_stream (drop bufferCount (stream w)) w)).

(** The world after [publisher->publish()] on publisher object [k]. *)
Definition signalled (k : nat) (w : World) : World :=
  MkWorld (stream w) (heap w) (published w ++ [(k, default [] (heap w !! k))]).

(** [publisher->publish()] on publisher object [k]: recorded with the
    content of its buffer. *)
Definition IPublish_publish (k : nat) : M unit := λ '(r, w),
  (Returned tt, (r, signalled k w)).

(** [findStateBuffer(state)]; [default:] falls into the [Prefix] case. The
    [Postfix] buffer carries the publisher of the buffer that is current at
    the call. *)
Definition findStateBuffer (proto : Protocol) (state : State.t) (r : t) : Buffer :=
  match state with
  | State.Header =>
      {| buffer := Some (HeaderMember, 0); bufferSize := Header.size;
         paddingSize := 0; publisher := None |}
  | State.Data =>
      BufferRegister.find (Header.of_bytes (header_ r)) (dataBufferRegistery_ r)
  | State.Postfix =>
      {| buffer := Some (PostfixMember, 0);
         bufferSize := sizeof_or_0 (Postfix_t proto);
         paddingSize := 0; publisher := publisher (currentBuffer_ r) |}
  | _ =>
      {| buffer := Some (PrefixMember, 0);
         bufferSize := sizeof_or_0 (Prefix_t proto);
         paddingSize := 0; publisher := None |}
  end.

(** [getStateStatus(state)]; [default:] falls into the [Prefix] case.
    [postfix_ == Postfix_t()] compares the member with the default value;
    for a [void] postfix the source leaves the comparison open, and the
    [Postfix] state is then never entered. *)
Definition getStateStatus (proto : Protocol) (state : State.t) (r : t) : bool :=
  match state with
  | State.Header =>
      BufferRegister.validate (Header.of_bytes (header_ r)) (dataBufferRegistery_ r)
  | State.Data => true
  | State.Postfix =>
      match Postfix_t proto with
      | Some defaulted => bool_decide (postfix_ r = defaulted)
      | None => true
      end
  | _ => true
  end.

(** [nextState(State::Postfix)]: signal completion, then on to the next
    frame; [nextState(State::Prefix)] is [State::Header]. *)
Definition nextState_Postfix (cfg : Config) (proto : Protocol) : M State.t :=
  r ← get_reader;
  lift (assert cfg (bool_decide (publisher (currentBuffer_ r) ≠ None)));;
  match publisher (currentBuffer_ r) with
  | Some k => IPublish_publish k
  | None => mret tt
  end;;
  mret (match Prefix_t proto with
        | Some _ => State.Prefix
        | None => State.Header
        end).

(** [nextState(currentState)]; [default:] falls into the [Prefix] case. *)
Definition nextState (cfg : Config) (proto : Protocol) (currentState : State.t)
    : M State.t :=
  match currentState with
  | State.Header => mret State.Data
  | State.Data =>
      match Postfix_t proto with
      | Some _ => mret State.Postfix
      | None => nextState_Postfix cfg proto
      end
  | State.Postfix => nextState_Postfix cfg proto
  | _ => mret State.Header
  end.

(** The state [nextState] returns, and whether it passes through
    [nextState(State::Postfix)] and so signals completion on the way. *)
Definition next_of (proto : Protocol) (currentState : State.t) : State.t :=
  let after_postfix :=
    match Prefix_t proto with Some _ => State.Prefix | None => State.Header end in
  match currentState with
  | State.Header => State.Data
  | State.Data =>
      match Postfix_t proto with
      | Some _ => State.Postfix
      | None => after_postfix
      end
  | State.Postfix => after_postfix
  | _ => State.Header
  end.

Definition signals (proto : Protocol) (currentState : State.t) : bool :=
  match currentState with
  | State.Data => match Postfix_t proto with Some _ => false | None => true end
  | State.Postfix => true
  | _ => false
  end.

Definition msg_header_mismatch : string :=
  "Binary-Header mismatch - stream corruption or incompatible data-stream".
Definition msg_postfix_mismatch : string :=
  "Binary-Postfix mismatch - stream corruption or incompatible data-stream".
Definition msg_sync_lost : string := "Sync-Lost - TODO Details".
Definition msg_null_data : string :=
  "Sub0Pub - Data buffer is null, potential payload size mismatch or unrecognised Id".
Definition msg_logic : string := "Sub0Pub - some logic is wrong!".

(** [checkStatusOfState(currentState)]. *)
Definition checkStatusOfState (cfg : Config) (proto : Protocol)
    (currentState : State.t) : M bool :=
  r ← get_reader;
  if getStateStatus proto currentState r then mret true
  else
    lift (raise cfg (match currentState with
                     | State.Header => msg_header_mismatch
                     | State.Postfix => msg_postfix_mismatch
                     | _ => msg_sync_lost
                     end));;
    mret false.

(** [stateComplete()]. *)
Definition stateComplete (cfg : Config) (proto : Protocol) : M bool :=
  r ← get_reader;
  ok ← checkStatusOfState cfg proto (state_ r);
  if negb ok then
    set_state State.SyncLost;;
    mret false
  else
    next ← nextState cfg proto (state_ r);
    set_state next;;
    r ← get_reader;
    set_currentBuffer (findStateBuffer proto (state_ r) r);;
    r ← get_reader;
    (if bool_decide (buffer (currentBuffer_ r) = None) then
       lift (raise cfg (if bool_decide (state_ r = State.Data)
                        then msg_null_data else msg_logic))
     else mret tt);;
    mret (bool_decide (buffer (currentBuffer_ r) ≠ None)).

(** [ptr += count] on a [char*]. *)
Definition advance (p : option Address) (count : nat) : option Address :=
  match p with
  | Some (obj, off) => Some (obj, off + count)
  | None => None
  end.

(** The first block of [readBuffer]: [if (currentBuffer_.bufferSize > 0)]
    read what the stream has for the buffer. Returns false where the
    source returns false from [readBuffer] to await more data. *)
Definition readBuffer_buffer : M bool :=
  r ← get_reader;
  let cur := currentBuffer_ r in
  if bool_decide (0 < bufferSize cur) then
    readCount ← IStream_read (buffer cur) (bufferSize cur);
    set_currentBuffer
      {| buffer := advance (buffer cur) readCount;
         bufferSize := bufferSize cur - readCount;
         paddingSize := paddingSize cur;
         publisher := publisher cur |};;
    mret (negb (bool_decide (0 < bufferSize cur - readCount)))
  else mret true.

(** The second block of [readBuffer]: [if (currentBuffer_.paddingSize > 0)]
    discard what the stream has of the padding. Returns false where the
    source returns false from [readBuffer]. *)
Definition readBuffer_padding : M bool :=
  r ← get_reader;
  let cur := currentBuffer_ r in
  if bool_decide (0 < paddingSize cur) then
    ignoreCount ← IStream_ignore (paddingSize cur);
    set_currentBuffer
      {| buffer := buffer cur;
         bufferSize := bufferSize cur;
         paddingSize := paddingSize cur - ignoreCount;
         publisher := publisher cur |};;
    mret (negb (bool_decide (0 < paddingSize cur - ignoreCount)))
  else mret true.

(** [readBuffer(stream)]: the two blocks, then [stateComplete()]. *)
Definition readBuffer (cfg : Config) (proto : Protocol) : M bool :=
  filled ← readBuffer_buffer;
  if negb filled then mret false
  else
    padded ← readBuffer_padding;
    if negb padded then mret false
    else stateComplete cfg proto.

(** The loop of [read]: [while (readBuffer(stream)) if (state_ ==
    State::Header) return true;] with a bound on its rounds; [None] when
    the bound is hit. *)
Fixpoint read_loop (cfg : Config) (proto : Protocol) (rounds : nat)
    : M (option bool) :=
  match rounds with
  | 0 => mret None
  | S rounds' =>
      more ← readBuffer cfg proto;
      if (more : bool) then
        r ← get_reader;
        if bool_decide (state_ r = State.Header) then mret (Some true)
        else read_loop cfg proto rounds'
      else mret (Some false)
  end.

(** [read(stream)], the poll. Every round that does not leave the loop
    moves one state on, and [Header] is at most four states away. *)
Definition read (cfg : Config) (proto : Protocol) : M bool :=
  res ← read_loop cfg proto 4;
  match res with
  | Some b => mret b
  | None => lift (Faulted Undefined)
  end.

(** [setDataPublisher(dataBuffer, publisher)] for the [ForwardPublish]
    object [k] carrying a message object [data]: registers its
    [buffer_] under [Header_t(buffer_)] with itself as the publisher. *)
Definition setDataPublisher (cfg : Config) (k : nat) (data : Message) : M unit :=
  r ← get_reader;
  lift (assert cfg (bool_decide (buffer (currentBuffer_ r) = None)));;
  reg ← lift (BufferRegister.set cfg (Header_of data)
                {| buffer := Some (DataBuffer k, 0);
                   bufferSize := length (object_bytes data);
                   paddingSize := 0;
                   publisher := Some k |}
                (dataBufferRegistery_ r));
  set_registry reg.

(** [close(stream)]: [currentBuffer_ = {}; state_ = {};]. *)
Definition close : M unit :=
  set_currentBuffer Buffer_null;; set_state State.Prefix.

(** A reader that waits for bytes: its current buffer is not null and is
    not yet filled, or not yet padded. *)
Definition blocked (r : t) : Prop :=
  buffer (currentBuffer_ r) ≠ None ∧
  (0 < bufferSize (currentBuffer_ r) ∨ 0 < paddingSize (currentBuffer_ r)).

(** The state and the current buffer of a reader between two frames, as
    [stateComplete] leaves them behind a frame. *)
Definition start_state (proto : Protocol) : State.t :=
  match Prefix_t proto with Some _ => State.Prefix | None => State.Header end.

Definition header_buffer : Buffer :=
  {| buffer := Some (HeaderMember, 0); bufferSize := Header.size;
     paddingSize := 0; publisher := None |}.

Definition start_buffer (proto : Protocol) : Buffer :=
  match Prefix_t proto with
  | Some v => {| buffer := Some (PrefixMember, 0); bufferSize := length v;
                 paddingSize := 0; publisher := None |}
  | None => header_buffer
  end.

Definition between_frames (proto : Protocol) (r : t) : Prop :=
  state_ r = start_state proto ∧ currentBuffer_ r = start_buffer proto.

(** A reader at a frame boundary of the stream: between two frames, or
    freshly constructed (or closed) for a protocol without prefix. *)
Definition synced (proto : Protocol) (r : t) : Prop :=
  between_frames proto r ∨
  (Prefix_t proto = None ∧ state_ r = State.Prefix ∧
   currentBuffer_ r = Buffer_null).

(** The members have the sizes of their types. *)
Definition members_sized (proto : Protocol) (r : t) : Prop :=
  length (prefix_ r) = length (member_init (Prefix_t proto)) ∧
  length (header_ r) = Header.size ∧
  length (postfix_ r) = length (member_init (Postfix_t proto)).

(** No type has size zero. *)
Definition Protocol_wf (proto : Protocol) : Prop :=
  Prefix_t proto ≠ Some [] ∧ Postfix_t proto ≠ Some [].

(** The reader behind a frame with header [h] whose prefix bytes were [P]
    and whose postfix bytes were [Q]: between two frames, with the members
    holding what was read into them. *)
Definition after_frame (proto : Protocol) (r : t) (h : Header.t)
    (P Q : list byte) : t :=
  {| dataBufferRegistery_ := dataBufferRegistery_ r;
     currentBuffer_ := start_buffer proto;
     state_ := start_state proto;
     prefix_ := match Prefix_t proto with Some _ => P | None => prefix_ r end;
     header_ := Header.bytes h;
     postfix_ := match Postfix_t proto with Some _ => Q | None => postfix_ r end |}.

(** What a poll comes to on a postfix that does not match: the exception
    where exceptions are enabled; the failed assertion where they are not
    and assertions are on; and with both compiled out nothing that a caller
    can tell from a wait for bytes: the poll returns false, with the reader
    in [SyncLost]. *)
Definition mismatch_outcome (cfg : Config) (o : Outcome bool) (r : t) : Prop :=
  o = (if cpp_exceptions cfg then Faulted (Thrown msg_postfix_mismatch)
       else if ndebug cfg then Returned false else Faulted Aborted) ∧
  (cpp_exceptions cfg = false → ndebug cfg = true → state_ r = State.SyncLost).

(** What feeding the first bytes of a frame has led to, [rest] being the
    bytes of the frame not fed yet, [good] telling whether its postfix is
    the expected one, and [call] being the completion call of the frame: as
    long as bytes are missing, no call; with all bytes in, the one call
    when the postfix is good, and no call and the outcome of a mismatch
    when it is not. *)
Definition frame_result (cfg : Config) (calls : list (nat * list byte))
    (call : nat * list byte) (good : bool) (rest : list byte)
    (o : Outcome bool) (s : Sys) : Prop :=
  match rest with
  | [] =>
      if good
      then o = Returned false ∧ published s.2 = calls ++ [call]
      else published s.2 = calls ∧ mismatch_outcome cfg o s.1
  | _ => o = Returned false ∧ blocked s.1 ∧ published s.2 = calls
  end.

(** How many rounds of the loop of [read] a state is away from [Header]
    at most. *)
Definition rank (st : State.t) : nat :=
  match st with
  | State.Header => 4
  | State.Data => 3
  | State.Postfix => 2
  | _ => 1
  end.

(** The calls of [readBuffer] that successive polls make, up to the first
    one that does not return true; [None] when [calls] calls do not get
    there. *)
Fixpoint run (cfg : Config) (proto : Protocol) (calls : nat) (s : Sys)
    : option (Outcome bool * Sys) :=
  match calls with
  | 0 => None
  | S calls' =>
      match readBuffer cfg proto s with
      | (Returned true, s') => run cfg proto calls' s'
      | res => Some res
      end
  end.

(** *** Feeding a reader

    The driver of the round-trip properties: bytes arrive on the stream in
    chunks, and after each chunk the caller polls until the poll returns
    false. *)

(** A chunk of bytes arrives on the stream. *)
Definition arrive (chunk : list byte) (s : Sys) : Sys :=
  (s.1, with_stream (stream s.2 ++ chunk) s.2).

(** Poll until a poll returns false or faults, at most [polls] times; the
    outcome is that of the last poll. *)
Fixpoint drain (cfg : Config) (proto : Protocol) (polls : nat) (s : Sys)
    : Outcome bool * Sys :=
  match polls with
  | 0 => (Returned true, s)
  | S polls' =>
      match read cfg proto s with
      | (Returned true, s') => drain cfg proto polls' s'
      | res => res
      end
  end.

(** Enough polls for what the stream holds: a poll that returns true has
    either left the initial state or taken a whole header off the stream. *)
Definition polls_for (s : Sys) : nat := length (stream s.2) + 2.

(** Feed the chunks one after the other, stopping at a fault. *)
Fixpoint feed (cfg : Config) (proto : Protocol) (chunks : list (list byte))
    (s : Sys) : Outcome bool * Sys :=
  match chunks with
  | [] => (Returned false, s)
  | chunk :: chunks' =>
      let s1 := arrive chunk s in
      match drain cfg proto (polls_for s1) s1 with
      | (Returned b, s2) =>
          match chunks' with
          | [] => (Returned b, s2)
          | _ => feed cfg proto chunks' s2
          end
      | res => res
      end
  end.

End BinaryReader.

Module Examples.

(** The usual build: exceptions on, assertions on. *)
Definition cfg_debug : Config :=
  {| cpp_exceptions := true; ndebug := false; sub0pub_assert := true |}.

(** A broker after subscribers 1, 2 and 3 registered in that order. *)
Definition broker123 : Broker.State :=
  {| Broker.subscriptionCount := 3;
     Broker.subscriptions := [Some 1; Some 2; Some 3; None; None; None; None; None] |}.

(** Subscribers with an odd address accept even values only. *)
Definition even_for_odd (s : nat) (data : nat) : bool :=
  Nat.even s || Nat.even data.

(** [DefaultSerialisation]: the prefix is the magic number 'SUB0', the
    postfix a line feed. *)
Definition sub0 : Protocol :=
  {| Prefix_t := Some (uint32_bytes (FourCC 83 85 66 48));
     Postfix_t := Some [x0a] |}.

(** The same protocol without a prefix ([Prefix_t = void]). *)
Definition sub0_noprefix : Protocol :=
  {| Prefix_t := None; Postfix_t := Some [x0a] |}.

(** The scenario of the specification: type 100, a four-byte float 3.14. *)
Definition pi : Message :=
  {| type_id := 100; object_bytes := [xc3; xf5; x48; x40] |}.

(** Two message types that were given the same [typeId] and differ in
    size, and the descriptors of their buffers. *)
Definition h_float : Header.t := {| Header.typeId := 1; Header.dataBytes := 4 |}.
Definition h_double : Header.t := {| Header.typeId := 1; Header.dataBytes := 8 |}.
Definition b_float : Buffer :=
  {| buffer := Some (DataBuffer 1, 0); bufferSize := 4; paddingSize := 0;
     publisher := Some 1 |}.
Definition b_double : Buffer :=
  {| buffer := Some (DataBuffer 2, 0); bufferSize := 8; paddingSize := 0;
     publisher := Some 2 |}.

(** Three types with distinct identifiers, as in P6. *)
Definition h1 : Header.t := {| Header.typeId := 10; Header.dataBytes := 4 |}.
Definition h2 : Header.t := {| Header.typeId := 20; Header.dataBytes := 8 |}.
Definition h3 : Header.t := {| Header.typeId := 30; Header.dataBytes := 2 |}.

(** The release build of an embedded target: no exceptions, assertions
    compiled out. *)
Definition cfg_release : Config :=
  {| cpp_exceptions := false; ndebug := true; sub0pub_assert := true |}.

(** A freshly constructed reader with the float type of [pi] registered by
    the publisher object 7, whose buffer holds zeros; nothing on the
    stream yet. *)
Definition registry_pi : BufferRegister.t :=
  [(Header_of pi,
    {| buffer := Some (DataBuffer 7, 0); bufferSize := 4; paddingSize := 0;
       publisher := Some 7 |})].

Definition fresh_reader (proto : Protocol) : BinaryReader.t * BinaryReader.World :=
  (BinaryReader.with_registry registry_pi (BinaryReader.init proto),
   BinaryReader.MkWorld [] {[7 := replicate 4 x00]} []).

(** The bytes a writer with unlimited room puts on the wire for [pi]. *)
Definition wire_pi (proto : Protocol) : list byte :=
  BinaryWriter.wire
    (BinaryWriter.write proto {| BinaryWriter.wire := []; BinaryWriter.room := 64 |} pi).2.

(** The frame of [pi] without a prefix and with a wrong postfix byte. *)
Definition bad_postfix_pi : list byte :=
  Header.bytes (Header_of pi) ++ object_bytes pi ++ [x0b].

(** A transport that accepts six more bytes. *)
Definition tight6 : BinaryWriter.OStream :=
  {| BinaryWriter.wire := []; BinaryWriter.room := 6 |}.

(** One chunk per byte. *)
Definition bytewise (bs : list byte) : list (list byte) := map (λ b, [b]) bs.

(** The reader of [fresh_reader] as it is between two frames. *)
Definition idle_reader (proto : Protocol) : BinaryReader.t :=
  BinaryReader.with_currentBuffer (BinaryReader.start_buffer proto)
    (BinaryReader.with_state (BinaryReader.start_state proto)
       (fresh_reader proto).1).

(** The landing buffer of publisher 7 with nothing on the stream. *)
Definition world_pi (bytes : list byte) : BinaryReader.World :=
  BinaryReader.MkWorld bytes {[7 := replicate 4 x00]} [].

(** The reader of the release build after a frame with a wrong postfix. *)
Definition lost_reader : BinaryReader.Sys :=
  (BinaryReader.feed cfg_release sub0_noprefix [bad_postfix_pi]
     (fresh_reader sub0_noprefix)).2.

End Examples.

(** ** Streams of frames

    What a reader is to make of the bytes a writer puts on the wire for a
    run of messages. *)
Module Streams.

(** The reader can take message [data]: its header is registered the way
    [setDataPublisher] registers the buffer of a publisher object, and the
    buffer is an object of the size of the message. *)
Definition receivable (reg : BufferRegister.t) (hp : gmap nat (list byte))
    (data : Message) : Prop :=
  Header.valid (Header_of data) ∧
  ∃ k old,
    BufferRegister.find (Header_of data) reg
    = {| buffer := Some (DataBuffer k, 0);
         bufferSize := length (object_bytes data);
         paddingSize := 0; publisher := Some k |} ∧
    hp !! k = Some old ∧ length old = length (object_bytes data).

(** The publisher object whose buffer is registered for the header of
    [data]. *)
Definition sink (reg : BufferRegister.t) (data : Message) : nat :=
  default 0 (publisher (BufferRegister.find (Header_of data) reg)).

(** The completion call for [data]: on its publisher, with the bytes of
    [data] in the buffer. *)
Definition event (reg : BufferRegister.t) (data : Message) : nat * list byte :=
  (sink reg data, object_bytes data).

(** The landing buffers after the messages were read into them, one after
    the other. *)
Definition landed (reg : BufferRegister.t) (hp : gmap nat (list byte))
    (msgs : list Message) : gmap nat (list byte) :=
  foldl (λ hp data, <[sink reg data := object_bytes data]> hp) hp msgs.

(** The frames of the messages, one behind the other. *)
Definition wire (proto : Protocol) (msgs : list Message) : list byte :=
  concat (map (BinaryWriter.frame proto) msgs).

End Streams.

(** ** StreamSerializer<Protocol> *)
Module StreamSerializer.

(** [forward(data)]: [writer_.write(stream_, data);], the result of the
    write is dropped. *)
Definition forward (proto : Protocol) (data : Message)
    (s : BinaryWriter.OStream) : BinaryWriter.OStream :=
  (BinaryWriter.write proto s data).2.

(** The messages forwarded one after the other. *)
Definition forward_all (proto : Protocol) (msgs : list Message)
    (s : BinaryWriter.OStream) : BinaryWriter.OStream :=
  foldl (λ s data, forward proto data s) s msgs.

End StreamSerializer.

(** ** Runs of [set] calls on a register, whatever the headers *)
Module RegisterRuns.
Import BufferRegister.

(** The entries are in non-decreasing order of [typeId]. *)
Definition ordered (reg : t) : Prop :=
  StronglySorted (λ a b, (Header.typeId a.1 ≤ Header.typeId b.1)%N) reg.

(** The first entry of the register with the [typeId]. *)
Definition first_of (id : N) (reg : t) : option HeaderToBuffer :=
  head (filter (λ e, Header.typeId e.1 = id) reg).

(** The last call of a run with the [typeId]. *)
Definition latest (id : N) (calls : list HeaderToBuffer)
    : option HeaderToBuffer :=
  last (filter (λ e, Header.typeId e.1 = id) calls).

(** The descriptor of the last call with the [typeId] of [header], if that
    call was for [header], and the null descriptor otherwise. *)
Definition found_after (header : Header.t) (calls : list HeaderToBuffer)
    : Buffer :=
  match latest (Header.typeId header) calls with
  | Some (h, b) => if decide (h = header) then b else Buffer_null
  | None => Buffer_null
  end.

(** No header is set again behind a header with the same [typeId] and
    another size: whenever a call of the run is for a header that an
    earlier call was for, the last earlier call with that [typeId] was for
    this header; [done] holds the earlier calls. *)
Fixpoint repeats_first (done todo : list HeaderToBuffer) : Prop :=
  match todo with
  | [] => True
  | (h, b) :: todo' =>
      (h ∈ done.*1 → ∃ b', latest (Header.typeId h) done = Some (h, b')) ∧
      repeats_first (done ++ [(h, b)]) todo'
  end.

End RegisterRuns.

(** ** Subscriber objects and their lifetimes

    [Subscribe<Data>] holds a [Broker<Data>] member constructed with [this]:
    the constructor of a subscriber object registers its address, and its
    destructor calls [broker_.unsubscribe(this)]. *)
Module Subscribe.
Import Broker.

Inductive Op : Type :=
| Construct (s : nat)   (* [Subscribe()] of the object at address [s] *)
| Destroy (s : nat).    (* [~Subscribe()] of the object at address [s] *)

Definition step (cfg : Config) (op : Op) (st : State) : Outcome State :=
  match op with
  | Construct s => subscribe cfg (Some s) st
  | Destroy s => unsubscribe cfg (Some s) st
  end.

(** A run of constructions and destructions. *)
Fixpoint run (cfg : Config) (ops : list Op) (st : State) : Outcome State :=
  match ops with
  | [] => Returned st
  | op :: ops' => st' ← step cfg op st; run cfg ops' st'
  end.

(** The objects alive after the run, in the order of their construction. *)
Fixpoint alive (ops : list Op) (live : list nat) : list nat :=
  match ops with
  | [] => live
  | Construct s :: ops' => alive ops' (live ++ [s])
  | Destroy s :: ops' => alive ops' (filter (λ x, x ≠ s) live)
  end.

(** The run is one of object lifetimes: an object is constructed at an
    address where none is alive, and an object that is destroyed is alive;
    and there are never more than [cMaxSubscriptions] alive. *)
Fixpoint lifetimes (ops : list Op) (live : list nat) : Prop :=
  match ops with
  | [] => True
  | Construct s :: ops' =>
      (s ∉ live) ∧ length live < cMaxSubscriptions ∧ lifetimes ops' (live ++ [s])
  | Destroy s :: ops' =>
      (s ∈ live) ∧ lifetimes ops' (filter (λ x, x ≠ s) live)
  end.

End Subscribe.

(** ** utility::hash *)
Module Utility.

(** The value of a [char] in the sum: [char] is promoted to [int], so on a
    target where [char] is signed the bytes from 128 on count negative. *)
Definition char_value (signed_char : bool) (c : byte) : Z :=
  let v := Z.of_N (Byte.to_N c) in
  if signed_char && (128 <=? v)%Z then (v - 256)%Z else v.

(** [hash = ((hash << 5) + hash) + str[0]] on a [uint32_t] (with [int] of
    32 bits): the shift and both sums wrap around. *)
Definition hash_step (signed_char : bool) (hash : N) (c : byte) : N :=
  Broker.uint32_wrap
    (Z.of_N (Broker.uint32_wrap
               (Z.of_N (Broker.uint32_wrap (Z.shiftl (Z.of_N hash) 5))
                + Z.of_N hash))
     + char_value signed_char c).

(** The loop of [hash] over the bytes at [str]: up to the first zero byte;
    running off the array without meeting one is undefined. *)
Fixpoint hash_loop (signed_char : bool) (str : list byte) (hash : N)
    : Outcome N :=
  match str with
  | [] => Faulted Undefined
  | c :: str' =>
      if bool_decide (c ≠ x00)
      then hash_loop signed_char str' (hash_step signed_char hash c)
      else Returned hash
  end.

(** [hash(str)]. *)
Definition hash (signed_char : bool) (str : list byte) : Outcome N :=
  hash_loop signed_char str 5381.

(** The djb2 sum over the integers: [hash * 33 + c] from 5381 on. *)
Definition djb2 (signed_char : bool) (s : list byte) : Z :=
  foldl (λ h c, (33 * h + char_value signed_char c)%Z) 5381%Z s.

End Utility.

(** ** Broker::setDataName (with SUB0PUB_TYPEIDNAME) *)
Module BrokerName.

(** [state_.typeId] and [state_.typeName]: zero and the null pointer stand
    for not set; a name is compared by its characters ([std::strcmp]). *)
Record Names : Type := MkNames {
  typeId : N;
  typeName : option string
}.

(** [setDataName(typeId, typeName)]. *)
Definition setDataName (cfg : Config) (id : N) (name : option string)
    (st : Names) : Outcome Names :=
  st1 ← (if bool_decide (id ≠ 0%N) then
           assert cfg (bool_decide (typeId st = 0%N ∨ typeId st = id)) ;;
           Returned {| typeId := id; typeName := typeName st |}
         else Returned st);
  match name with
  | Some n =>
      assert cfg (bool_decide (typeName st1 = None ∨ typeName st1 = Some n)) ;;
      Returned {| typeId := typeId st1; typeName := Some n |}
  | None => Returned st1
  end.

(** The calls the constructors of the handles of one type make. *)
Fixpoint setDataName_all (cfg : Config) (calls : list (N * option string))
    (st : Names) : Outcome Names :=
  match calls with
  | [] => Returned st
  | (id, name) :: calls' =>
      st' ← setDataName cfg id name st; setDataName_all cfg calls' st'
  end.

End BrokerName.

(** ** StreamDeserializer<Protocol> and the publishers that register with it *)
Module StreamDeserializer.
Import BinaryReader.






(** What no call on a reader changes, from [s] to [t]: the register stays,
    the members and the objects behind the landing buffers keep their
    sizes, the stream has lost bytes at its front only, and the calls made
    are still on record. *)
Definition keeps (s t : Sys) : Prop :=
  dataBufferRegistery_ t.1 = dataBufferRegistery_ s.1 ∧
  (length (prefix_ t.1) = length (prefix_ s.1) ∧
   length (header_ t.1) = length (header_ s.1) ∧
   length (postfix_ t.1) = length (postfix_ s.1)) ∧
  (∀ k, length <$> heap t.2 !! k = length <$> heap s.2 !! k) ∧
  (∃ n, stream t.2 = drop n (stream s.2)) ∧
  (∃ calls, published t.2 = published s.2 ++ calls).

End StreamDeserializer.

(** ** ForwardSubscribe<Data, Target> with a StreamSerializer as target *)
Module ForwardSubscribe.

(** [receive(data)]: [static_cast<Target*>(this)->forward(data)]. *)
Definition receive (proto : Protocol) (data : Message)
    (s : BinaryWriter.OStream) : BinaryWriter.OStream :=
  StreamSerializer.forward proto data s.

(** One call of a broker as it runs when subscriber [fwd] is the
    [ForwardSubscribe] base of the serializer on stream [s]: its [receive]
    forwards; the [filter] calls and the other subscribers leave the stream
    alone. *)
Definition run_call (proto : Protocol) (fwd : nat) (s : BinaryWriter.OStream)
    (c : @Broker.Call Message) : BinaryWriter.OStream :=
  match c with
  | Broker.Receive k data => if decide (k = fwd) then receive proto data s else s
  | Broker.Filter _ _ => s
  end.

Definition run_calls (proto : Protocol) (fwd : nat)
    (calls : list (@Broker.Call Message)) (s : BinaryWriter.OStream)
    : BinaryWriter.OStream :=
  foldl (run_call proto fwd) s calls.

Section Sender.

Variable filter_of : nat → Message → bool.

(** [Publish<Data>::publish(data)] in the sending process:
    [broker_.publish(data)], the calls of which run against the stream. *)
Definition publish (cfg : Config) (st : Broker.State) (fwd : nat)
    (proto : Protocol) (data : Message) (s : BinaryWriter.OStream)
    : Outcome BinaryWriter.OStream :=
  calls ← Broker.publish filter_of cfg st data;
  Returned (run_calls proto fwd calls s).

(** The messages published one after the other. *)
Fixpoint publish_all (cfg : Config) (st : Broker.State) (fwd : nat)
    (proto : Protocol) (msgs : list Message) (s : BinaryWriter.OStream)
    : Outcome BinaryWriter.OStream :=
  match msgs with
  | [] => Returned s
  | data :: msgs' =>
      s' ← publish cfg st fwd proto data s;
      publish_all cfg st fwd proto msgs' s'
  end.

End Sender.

End ForwardSubscribe.

(** ** ForwardPublish<Data, DataProvider> with a StreamDeserializer as provider *)
Module ForwardPublish.

Section Receiver.

Variable filter_of : nat → Message → bool.

(** [publish()]: [Publish<Data>::publish(buffer_)], that is
    [broker_.publish(buffer_)], where [buffer_] is the object of the type
    with identifier [typeId] that the reader has filled. *)
Definition publish (cfg : Config) (st : Broker.State) (typeId : N)
    (buffer_ : list byte) : Outcome (list (@Broker.Call Message)) :=
  Broker.publish filter_of cfg st {| type_id := typeId; object_bytes := buffer_ |}.

(** The completion calls of a reader as they run when the publisher object
    [k] is the [ForwardPublish] of the type [typeId] on broker [st]: the
    calls made on the subscribers of that broker, in order.  Completion
    calls on other publisher objects go to the brokers of other types. *)
Fixpoint run_events (cfg : Config) (st : Broker.State) (k : nat) (typeId : N)
    (events : list (nat * list byte)) : Outcome (list (@Broker.Call Message)) :=
  match events with
  | [] => Returned []
  | (k', buffer_) :: events' =>
      calls ← (if decide (k' = k) then publish cfg st typeId buffer_
               else Returned []);
      rest ← run_events cfg st k typeId events';
      Returned (calls ++ rest)
  end.

End Receiver.

End ForwardPublish.

(** ** More scenarios *)
Module Scenarios.
Import Examples.

(** A second message type: identifier 200, two bytes. *)
Definition ab : Message :=
  {| type_id := 200; object_bytes := [x0a; x0b] |}.

(** A fresh reader on which the publisher objects 7 (for the type of [pi])
    and 9 (for the type of [ab]) have registered their buffers. *)
Definition reader_two (proto : Protocol) : BinaryReader.Sys :=
  (BinaryReader.setDataPublisher cfg_debug 9 ab
     (BinaryReader.setDataPublisher cfg_debug 7 pi
        (BinaryReader.init proto,
         BinaryReader.MkWorld []
           {[7 := replicate 4 x00; 9 := replicate 2 x00]} [])).2).2.

(** What a serializer has put on a transport with room for 64 bytes after
    three messages. *)
Definition sent_three (proto : Protocol) : BinaryWriter.OStream :=
  StreamSerializer.forward_all proto [pi; ab; pi]
    {| BinaryWriter.wire := []; BinaryWriter.room := 64 |}.

(** The bytes cut into three chunks, none of them at a frame boundary. *)
Definition cut_three (bs : list byte) : list (list byte) :=
  [take 5 bs; take 15 (drop 5 bs); drop 20 bs].


(** The reader of the usual build after a frame with a wrong postfix that
    came in one chunk with the first five bytes of the next frame: it has
    thrown and sits in [Postfix], the five bytes still on the stream. *)
Definition stuck_reader : BinaryReader.Sys :=
  (BinaryReader.feed cfg_debug sub0_noprefix
     [bad_postfix_pi ++ take 5 (wire_pi sub0_noprefix)]
     (reader_two sub0_noprefix)).2.

(** Sixty-four types with the identifiers 0 to 63. *)
Definition calls_64 : list BufferRegister.HeaderToBuffer :=
  map (λ i, ({| Header.typeId := N.of_nat i; Header.dataBytes := 4 |}, b_float))
    (seq 0 64).

(** Objects 1 and 2 are constructed, object 1 is destroyed, object 3 is
    constructed. *)
Definition come_and_go : list Subscribe.Op :=
  [Subscribe.Construct 1; Subscribe.Construct 2; Subscribe.Destroy 1;
   Subscribe.Construct 3].

(** A broker with eight subscribers. *)
Definition broker_full : Broker.State :=
  {| Broker.subscriptionCount := 8;
     Broker.subscriptions := Some <$> seq 1 8 |}.

(** The bytes of the C string "abc" with its terminator and what lies
    behind it in memory. *)
Definition abc : list byte := ["a"; "b"; "c"; x00; "x"; "y"]%byte.

(** A value of the type of [pi] that is all zeros. *)
Definition zero : Message :=
  {| type_id := 100; object_bytes := replicate 4 x00 |}.

(** Subscriber 2 takes no zeros, the others take everything. *)
Definition no_zeros (s : nat) (data : Message) : bool :=
  negb (s =? 2) || negb (bool_decide (object_bytes data = replicate 4 x00)).

Definition take_all (s : nat) (data : Message) : bool := true.

End Scenarios.

Module BrokerFacts.
Import Broker.

Section Facts.
Context {Data : Type}.
Variable filter_of : nat -> Data -> bool.

Lemma wf_lookup st i :
  wf st → i < N.to_nat (subscriptionCount st) →
  ∃ s, subscriptions st !! i = Some (Some s).
Proof.
  intros (Hcap & Hlen & Hnull) Hi.
  destruct (lookup_lt_is_Some_2 (subscriptions st) i) as [p Hp]; [lia|].
  destruct p as [s|]; [by exists s|].
  exfalso. apply Hnull. unfold registered.
  apply list_elem_of_lookup. exists i. by rewrite lookup_take_lt.
Qed.

Lemma onReceive_some cfg s : onReceive cfg (Some s) = Returned tt.
Proof. unfold onReceive. by destruct (sub0pub_assert cfg). Qed.

Lemma publish_loop_spec cfg st data todo i calls :
  wf st → i + todo ≤ N.to_nat (subscriptionCount st) →
  publish_loop filter_of cfg st data todo i calls
  = Returned (calls ++ flat_map (visit filter_of data)
                         (omap id (take todo (drop i (subscriptions st))))).
Proof.
  intros Hwf. revert i calls.
  induction todo as [|todo IH]; intros i calls Hi; cbn [publish_loop].
  - by rewrite take_0, app_nil_r.
  - destruct (wf_lookup st i Hwf) as [s Hs]; [lia|].
    unfold publish_one. rewrite Hs, onReceive_some.
    rewrite (drop_S _ _ _ Hs).
    change (flat_map (visit filter_of data)
              (omap id (take (S todo) (Some s :: drop (S i) (subscriptions st)))))
      with (visit filter_of data s ++ flat_map (visit filter_of data)
              (omap id (take todo (drop (S i) (subscriptions st))))).
    unfold visit at 1.
    destruct (filter_of s data); cbn [mbind Outcome_bind Build.bind];
      rewrite IH by lia; by rewrite <- app_assoc.
Qed.


Lemma publish_spec cfg st data :
  wf st →
  publish filter_of cfg st data
  = Returned (flat_map (visit filter_of data) (registered_ids st)).
Proof.
  intros Hwf. unfold publish. rewrite publish_loop_spec by (done || lia).
  by rewrite drop_0.
Qed.

Lemma receiver_visit data s s' :
  length (filter (λ c, receiver c = Some s') (visit filter_of data s))
  = if decide (s = s') then (if filter_of s data then 1 else 0) else 0.
Proof.
  unfold visit. destruct (filter_of s data);
    rewrite !filter_cons, filter_nil; cbn [receiver];
    repeat case_decide; simplify_eq; done.
Qed.

Lemma receiver_count data ids s :
  NoDup ids →
  length (filter (λ c, receiver c = Some s) (flat_map (visit filter_of data) ids))
  = if decide (s ∈ ids) then (if filter_of s data then 1 else 0) else 0.
Proof.
  induction 1 as [|x ids Hx Hnd IH]; cbn [flat_map].
  - rewrite filter_nil. case_decide; [set_solver|done].
  - rewrite filter_app, length_app, IH, receiver_visit.
    destruct (decide (x = s)) as [->|Hne].
    + rewrite decide_False by done. rewrite decide_True by left. lia.
    + destruct (decide (s ∈ ids)) as [Hin|Hnin].
      * rewrite decide_True by (by right). done.
      * rewrite decide_False; [done|].
        rewrite elem_of_cons. intros [?|?]; by simplify_eq.
Qed.


Lemma uint32_wrap_small (n : Z) : (0 ≤ n < 2 ^ 32)%Z → uint32_wrap n = Z.to_N n.
Proof. intros H. unfold uint32_wrap. by rewrite Z.mod_small. Qed.

Lemma subscribe_spec cfg s st :
  wf st → N.to_nat (subscriptionCount st) < cMaxSubscriptions →
  ∃ st', subscribe cfg (Some s) st = Returned st' ∧ wf st' ∧
         registered st' = registered st ++ [Some s].
Proof.
  intros (Hcap & Hlen & Hnull) Hfree. unfold subscribe, onSubscription, assert.
  assert (Hpre : (if sub0pub_assert cfg
                  then (if ndebug cfg then Returned ()
                        else if bool_decide (Some s ≠ None) then Returned ()
                             else Faulted Aborted);;
                       (if ndebug cfg then Returned ()
                        else if bool_decide (N.to_nat (subscriptionCount st)
                                             < cMaxSubscriptions)
                             then Returned () else Faulted Aborted)
                  else Returned ()) = Returned ()).
  { rewrite (bool_decide_eq_true_2 (Some s ≠ None)) by done.
    rewrite bool_decide_eq_true_2 by lia.
    by destruct (sub0pub_assert cfg), (ndebug cfg). }
  rewrite Hpre. cbn [mbind Outcome_bind Build.bind].
  rewrite bool_decide_eq_true_2 by lia.
  eexists. split; [done|].
  assert (Hcount : uint32_wrap (Z.of_N (subscriptionCount st) + 1)
                   = (subscriptionCount st + 1)%N).
  { unfold cMaxSubscriptions in *. rewrite uint32_wrap_small; lia. }
  assert (Hreg : take (N.to_nat (subscriptionCount st + 1))
                   (<[N.to_nat (subscriptionCount st) := Some s]> (subscriptions st))
                 = registered st ++ [Some s]).
  { unfold registered.
    replace (N.to_nat (subscriptionCount st + 1))
      with (S (N.to_nat (subscriptionCount st))) by lia.
    erewrite take_S_r by (apply list_lookup_insert_eq; lia).
    by rewrite take_insert_ge by lia. }
  unfold wf, registered. cbn [subscriptionCount subscriptions].
  rewrite Hcount, length_insert, Hreg.
  split_and!; [done|lia| |done].
  rewrite elem_of_app, list_elem_of_singleton. intros [?|?]; [by apply Hnull|done].
Qed.


Lemma kept_removed (v : option nat) (range : list (option nat)) :
  length (filter (λ p, p ≠ v) range) + length (filter (λ p, p = v) range)
  = length range.
Proof.
  induction range as [|p range IH]; [done|].
  rewrite !filter_cons. repeat case_decide; simplify_eq; cbn [length]; lia.
Qed.

Lemma registered_mk n subs :
  registered {| subscriptionCount := n; subscriptions := subs |}
  = take (N.to_nat n) subs.
Proof. done. Qed.

Lemma unsubscribe_spec cfg s st :
  wf st →
  (occurrences (Some s) st = 1 →
   ∃ st', unsubscribe cfg (Some s) st = Returned st' ∧ wf st' ∧
          registered st' = filter (λ p, p ≠ Some s) (registered st) ∧
          N.to_nat (subscriptionCount st') + 1 = N.to_nat (subscriptionCount st)) ∧
  (occurrences (Some s) st ≠ 1 → ndebug cfg = false →
   unsubscribe cfg (Some s) st = Faulted Aborted).
Proof.
  intros (Hcap & Hlen & Hnull). unfold unsubscribe, std_remove, assert, occurrences.
  rewrite bool_decide_eq_true_2 by lia.
  fold (registered st).
  pose proof (kept_removed (Some s) (registered st)) as Hsplit.
  assert (Hn : length (registered st) = N.to_nat (subscriptionCount st)).
  { unfold registered. rewrite length_take. lia. }
  set (kept := filter (λ p, p ≠ Some s) (registered st)) in *.
  split.
  - intros Hocc. rewrite bool_decide_eq_true_2 by lia.
    assert ((if ndebug cfg then Returned () else Returned ()) = Returned ()) as ->
      by by destruct (ndebug cfg).
    cbn [mbind Outcome_bind Build.bind].
    eexists. split; [done|].
    assert (Hcount : uint32_wrap (Z.of_N (subscriptionCount st) - 1)
                     = (subscriptionCount st - 1)%N).
    { unfold cMaxSubscriptions in *. rewrite uint32_wrap_small; lia. }
    assert (Hreg : take (N.to_nat (subscriptionCount st - 1))
                     ((kept ++ drop (length kept) (registered st))
                      ++ drop (N.to_nat (subscriptionCount st)) (subscriptions st))
                   = kept).
    { rewrite <- app_assoc. rewrite take_app_length'; [done|lia]. }
    unfold wf. rewrite !registered_mk.
    cbn [subscriptionCount subscriptions].
    rewrite Hcount, Hreg, !length_app, !length_drop.
    split_and!; try lia; [|done].
    intros Hin. apply Hnull. by apply list_elem_of_filter in Hin as [_ ?].
  - intros Hocc Hdbg. rewrite Hdbg, bool_decide_eq_false_2 by lia. done.
Qed.


(** C2: one [publish] visits the registered subscribers in table order,
    which is the order of registration; a subscriber whose [filter] accepts
    the value gets exactly one [receive] with that value, one whose
    [filter] rejects it gets none. *)
Theorem publish_fanout cfg st data :
  wf st → NoDup (registered_ids st) →
  publish filter_of cfg st data
  = Returned (flat_map (visit filter_of data) (registered_ids st))
  ∧ ∀ calls, publish filter_of cfg st data = Returned calls →
      (∀ c, c ∈ calls → c = Filter (callee c) data ∨ c = Receive (callee c) data)
      ∧ ∀ s, s ∈ registered_ids st →
          length (filter (λ c, receiver c = Some s) calls)
          = if filter_of s data then 1 else 0.
Proof.
  intros Hwf Hnd. rewrite publish_spec by done. split; [done|].
  intros calls [= <-]. split.
  - intros c Hc. apply list_elem_of_In, in_flat_map in Hc as (s & _ & Hc).
    unfold visit in Hc. destruct (filter_of s data); cbn in Hc;
      intuition (subst; auto).
  - intros s Hs. rewrite receiver_count by done. by rewrite decide_True.
Qed.


(** C9, as the code has it: in every build, [unsubscribe] of a pointer that
    is registered exactly once removes that entry and nothing else, lowers
    the count by one, and no later [publish] calls the subscriber; for a
    pointer that is not registered, or registered more than once, it fails
    its assertion where assertions are compiled in. *)
Theorem unsubscribe_removes cfg st s :
  wf st →
  (occurrences (Some s) st = 1 →
   ∃ st', unsubscribe cfg (Some s) st = Returned st' ∧ wf st' ∧
     registered st' = filter (λ p, p ≠ Some s) (registered st) ∧
     length (registered st') + 1 = length (registered st) ∧
     N.to_nat (subscriptionCount st') + 1 = N.to_nat (subscriptionCount st) ∧
     ∀ data, ∃ calls, publish filter_of cfg st' data = Returned calls ∧
                      ∀ c, c ∈ calls → callee c ≠ s) ∧
  (occurrences (Some s) st ≠ 1 → ndebug cfg = false →
   unsubscribe cfg (Some s) st = Faulted Aborted).
Proof.
  intros Hwf. destruct (unsubscribe_spec cfg s st Hwf) as [Hone Hother].
  split; [|done]. intros Hocc.
  destruct (Hone Hocc) as (st' & Hun & Hwf' & Hreg & Hcount).
  exists st'. split_and!; try done.
  - rewrite Hreg. pose proof (kept_removed (Some s) (registered st)).
    unfold occurrences in Hocc. lia.
  - intros data. eexists. split; [by apply publish_spec|].
    intros c Hc. apply list_elem_of_In, in_flat_map in Hc as (s' & Hs' & Hc).
    assert (s' ≠ s) as Hne.
    { apply list_elem_of_In in Hs'. unfold registered_ids in Hs'.
      apply list_elem_of_omap in Hs' as (p & Hp & Hid). rewrite Hreg in Hp.
      apply list_elem_of_filter in Hp as [Hp _]. cbn in Hid. congruence. }
    unfold visit in Hc. destruct (filter_of s' data); cbn in Hc;
      intuition (subst; auto).
Qed.

End Facts.

Lemma wf_init : wf State_init.
Proof.
  unfold wf. split_and!; [reflexivity|vm_compute; lia|].
  apply (bool_decide_unpack _). by vm_compute.
Qed.

Lemma wf_broker123 : wf Examples.broker123.
Proof.
  unfold wf. split_and!; [reflexivity|vm_compute; lia|].
  apply (bool_decide_unpack _). by vm_compute.
Qed.

(** The example broker is what three registrations build. *)
Lemma broker123_built :
  subscribe_all Examples.cfg_debug [Some 1; Some 2; Some 3] State_init
  = Returned Examples.broker123.
Proof. reflexivity. Qed.

Lemma publish_fanout_witness :
  wf Examples.broker123 ∧ NoDup (registered_ids Examples.broker123) ∧
  publish Examples.even_for_odd Examples.cfg_debug Examples.broker123 3
  = Returned [Filter 1 3; Filter 2 3; Receive 2 3; Filter 3 3].
Proof.
  split; [exact wf_broker123|].
  split; [apply (bool_decide_unpack _); by vm_compute|].
  apply (publish_fanout Examples.even_for_odd Examples.cfg_debug Examples.broker123 3).
  - exact wf_broker123.
  - apply (bool_decide_unpack _). by vm_compute.
Defined.

Lemma unsubscribe_removes_witness :
  wf Examples.broker123 ∧
  (∃ st', unsubscribe Examples.cfg_release (Some 2) Examples.broker123
          = Returned st' ∧
          registered st' = [Some 1; Some 3]) ∧
  unsubscribe Examples.cfg_debug (Some 9) Examples.broker123 = Faulted Aborted.
Proof.
  split; [exact wf_broker123|].
  destruct (unsubscribe_removes Examples.even_for_odd Examples.cfg_release
              Examples.broker123 2 wf_broker123) as [Hone _].
  destruct (unsubscribe_removes Examples.even_for_odd Examples.cfg_debug
              Examples.broker123 9 wf_broker123) as [_ Hother].
  split.
  - destruct (Hone eq_refl) as (st' & Hun & _ & Hreg & _).
    exists st'. split; [exact Hun|exact Hreg].
  - apply Hother; [by vm_compute|reflexivity].
Defined.

(** C9 as stated fails: with assertions compiled out, the [unsubscribe] of
    a pointer that is not in the table returns, and the count is
    lowered. *)
Lemma unsubscribe_unchecked :
  occurrences (Some 9) Examples.broker123 = 0 ∧
  unsubscribe Examples.cfg_release (Some 9) Examples.broker123
  = Returned {| subscriptionCount := 2;
                subscriptions := subscriptions Examples.broker123 |}.
Proof. split; reflexivity. Qed.

End BrokerFacts.

Module WriterFacts.
Import BinaryWriter.

Lemma utility_write_ok value s :
  length value ≤ room s →
  utility_write value s
  = (true, {| wire := wire s ++ value; room := room s - length value |}).
Proof.
  intros H. unfold utility_write, OStream_write.
  rewrite Nat.min_l by done. rewrite bool_decide_eq_true_2 by done.
  by rewrite take_ge by done.
Qed.

Lemma utility_write_short value s :
  room s < length value →
  utility_write value s
  = (false, {| wire := wire s ++ take (room s) value; room := 0 |}).
Proof.
  intros H. unfold utility_write, OStream_write.
  rewrite Nat.min_r by lia. rewrite bool_decide_eq_false_2 by lia.
  by rewrite Nat.sub_diag.
Qed.

Lemma utility_write_default_ok T s :
  sizeof_or_0 T ≤ room s →
  utility_write_default T s
  = (true, {| wire := wire s ++ default [] T; room := room s - sizeof_or_0 T |}).
Proof.
  destruct T as [v|]; cbn; intros H; [by apply utility_write_ok|].
  rewrite app_nil_r, Nat.sub_0_r. by destruct s.
Qed.

Lemma utility_write_default_short T s :
  room s < sizeof_or_0 T →
  utility_write_default T s
  = (false, {| wire := wire s ++ take (room s) (default [] T); room := 0 |}).
Proof.
  destruct T as [v|]; cbn; intros H; [by apply utility_write_short|lia].
Qed.

(** What [write] returns and leaves on the wire, in terms of the room the
    transport had. *)
Lemma write_spec proto s data :
  write proto s data
  = (bool_decide (length (frame proto data) ≤ room s),
     {| wire := wire s ++ take (room s) (frame proto data);
        room := room s - length (frame proto data) |}).
Proof.
  unfold write, frame. rewrite !length_app.
  set (p := Prefix_t proto). set (q := Postfix_t proto).
  set (h := Header.bytes (Header_of data)). set (d := object_bytes data).
  assert (Hp : length (default [] p) = sizeof_or_0 p) by by destruct p.
  assert (Hq : length (default [] q) = sizeof_or_0 q) by by destruct q.
  rewrite Hp, Hq.
  destruct (decide (sizeof_or_0 p ≤ room s)) as [H1|H1].
  2:{ rewrite utility_write_default_short by lia.
      rewrite bool_decide_eq_false_2 by lia.
      rewrite take_app_le by lia. do 2 f_equal. lia. }
  rewrite utility_write_default_ok by done. cbn [wire room].
  destruct (decide (length h ≤ room s - sizeof_or_0 p)) as [H2|H2].
  2:{ rewrite utility_write_short by (cbn [room]; lia). cbn [wire room].
      rewrite bool_decide_eq_false_2 by lia.
      rewrite take_app_ge by lia. rewrite Hp.
      rewrite take_app_le by lia. rewrite <- app_assoc. do 2 f_equal. lia. }
  rewrite utility_write_ok by done. cbn [wire room].
  destruct (decide (length d ≤ room s - sizeof_or_0 p - length h)) as [H3|H3].
  2:{ rewrite utility_write_short by (cbn [room]; lia). cbn [wire room].
      rewrite bool_decide_eq_false_2 by lia.
      rewrite take_app_ge by lia. rewrite Hp.
      rewrite take_app_ge by lia.
      rewrite take_app_le by lia. rewrite <- !app_assoc. do 4 f_equal; lia. }
  rewrite utility_write_ok by done. cbn [wire room].
  destruct (decide (sizeof_or_0 q ≤ room s - sizeof_or_0 p - length h - length d))
    as [H4|H4].
  - rewrite utility_write_default_ok by done. cbn [wire room].
    rewrite bool_decide_eq_true_2 by lia.
    rewrite take_ge by (rewrite !length_app; lia).
    rewrite <- !app_assoc. do 2 f_equal. lia.
  - rewrite utility_write_default_short by (cbn [room]; lia). cbn [wire room].
    rewrite bool_decide_eq_false_2 by lia.
    rewrite take_app_ge by lia. rewrite Hp.
    rewrite take_app_ge by lia.
    rewrite take_app_ge by lia.
    rewrite <- !app_assoc. do 5 f_equal; lia.
Qed.



Lemma write_tight6 :
  write Examples.sub0 Examples.tight6 Examples.pi
  = (false, {| wire := ["S"; "U"; "B"; "0"; "d"; x00]%byte; room := 0 |}).
Proof. reflexivity. Qed.

End WriterFacts.

Module RegisterFacts.
Import BufferRegister.

Section LowerBound.
Context {A : Type} (comp : A -> bool).

Lemma partition_point_le range : partition_point comp range ≤ length range.
Proof.
  induction range as [|x range IH]; cbn; [done|]. destruct (comp x); cbn; lia.
Qed.

Lemma partitioned_tail x range :
  partitioned comp (x :: range) → partitioned comp range.
Proof. intros H i j a b Hij Ha Hb. by apply (H (S i) (S j)); [lia|..]. Qed.

(** On a partitioned range, [comp] holds exactly in front of the partition
    point. *)
Lemma partition_point_spec range i x :
  partitioned comp range → range !! i = Some x →
  comp x = bool_decide (i < partition_point comp range).
Proof.
  revert i. induction range as [|y range IH]; intros i Hpart Hi; [done|].
  cbn [partition_point]. destruct i as [|i]; cbn in Hi.
  - simplify_eq. destruct (comp x) eqn:Hx.
    + by rewrite bool_decide_eq_true_2 by lia.
    + by rewrite bool_decide_eq_false_2 by lia.
  - destruct (comp y) eqn:Hy.
    + rewrite (IH i) by eauto using partitioned_tail.
      apply bool_decide_ext. lia.
    + rewrite bool_decide_eq_false_2 by lia.
      destruct (comp x) eqn:Hx; [|done].
      rewrite <- Hy. symmetry. by apply (Hpart 0 (S i) y x); [lia|..].
Qed.

Lemma lower_bound_loop_spec range fuel first len :
  partitioned comp range →
  first ≤ partition_point comp range ≤ first + len →
  first + len ≤ length range → len ≤ fuel →
  lower_bound_loop comp range fuel first len = partition_point comp range.
Proof.
  intros Hpart. revert first len.
  induction fuel as [|fuel IH]; intros first len Hk Hlen Hfuel;
    cbn [lower_bound_loop].
  { lia. }
  case_bool_decide as Hpos; [|lia].
  pose proof (Nat.div_mod_eq len 2) as Hdiv.
  pose proof (Nat.mod_upper_bound len 2) as Hmod.
  set (half := len / 2) in *.
  destruct (lookup_lt_is_Some_2 range (first + half)) as [x Hx]; [lia|].
  rewrite Hx, (partition_point_spec range _ x Hpart Hx).
  case_bool_decide; apply IH; lia.
Qed.

(** [std::lower_bound] returns the partition point of a partitioned range. *)
Lemma lower_bound_spec range :
  partitioned comp range →
  lower_bound comp range = partition_point comp range.
Proof.
  intros Hpart. unfold lower_bound.
  pose proof (partition_point_le range).
  apply lower_bound_loop_spec; (done || lia).
Qed.

End LowerBound.

Lemma lt_spec h1 h2 :
  Header.lt h1 h2 = true ↔ (Header.typeId h1 < Header.typeId h2)%N.
Proof. unfold Header.lt. apply N.ltb_lt. Qed.

Lemma lt_false h1 h2 :
  Header.lt h1 h2 = false ↔ (Header.typeId h2 ≤ Header.typeId h1)%N.
Proof. unfold Header.lt. apply N.ltb_ge. Qed.

Lemma eqb_spec h1 h2 : Header.eqb h1 h2 = true ↔ h1 = h2.
Proof.
  unfold Header.eqb. rewrite andb_true_iff, !N.eqb_eq.
  destruct h1, h2; cbn. split; [by intros [-> ->]|by intros [= -> ->]].
Qed.

Lemma eqb_refl h : Header.eqb h h = true.
Proof. by apply eqb_spec. Qed.

(** *** The array code against the scans *)

Lemma set_core_scan header buf reg :
  let k := partition_point (λ lhs, Header.lt lhs.1 header) reg in
  match reg !! k with
  | Some found =>
      if Header.eqb found.1 header then <[k := (found.1, buf)]> reg
      else take k reg ++ (header, buf) :: drop k reg
  | None => take k reg ++ (header, buf) :: drop k reg
  end = upsert_ordered header buf reg.
Proof.
  induction reg as [|[h b] reg IH]; [done|].
  cbn [partition_point upsert_ordered fst]. destruct (Header.lt h header).
  - cbn zeta in IH. cbn [lookup list_lookup take drop]. rewrite <- IH.
    destruct (reg !! _) as [found|]; [|done].
    by destruct (Header.eqb found.1 header).
  - cbn. by destruct (Header.eqb h header).
Qed.

Lemma find_scan header reg :
  let k := partition_point (λ lhs, Header.lt lhs.1 header) reg in
  match reg !! k with
  | Some found => if Header.eqb found.1 header then found.2 else Buffer_null
  | None => Buffer_null
  end = find_ordered header reg.
Proof.
  induction reg as [|[h b] reg IH]; [done|].
  cbn [partition_point find_ordered fst]. destruct (Header.lt h header).
  - cbn zeta in IH. cbn [lookup list_lookup]. by rewrite <- IH.
  - cbn. by destruct (Header.eqb h header).
Qed.

Lemma sorted_lookup reg i j x y :
  sorted_by_typeId reg → i < j → reg !! i = Some x → reg !! j = Some y →
  (Header.typeId x.1 < Header.typeId y.1)%N.
Proof.
  intros Hs. revert i j. induction Hs as [|e reg Hs IH Hall]; intros i j Hij Hi Hj.
  { done. }
  destruct j as [|j]; [lia|]. destruct i as [|i]; cbn in Hi, Hj.
  - simplify_eq. rewrite Forall_forall in Hall. apply Hall.
    by apply list_elem_of_lookup_2 in Hj.
  - apply (IH i j); (done || lia).
Qed.

Lemma sorted_partitioned header reg :
  sorted_by_typeId reg → partitioned (λ lhs, Header.lt lhs.1 header) reg.
Proof.
  intros Hs i j x y Hij Hi Hj Hy.
  destruct (decide (i = j)) as [->|Hne]; [by simplify_eq|].
  pose proof (sorted_lookup reg i j x y Hs ltac:(lia) Hi Hj).
  apply lt_spec in Hy. apply lt_spec. lia.
Qed.

(** On a sorted register [find] is the scan. *)
Lemma find_sorted header reg :
  sorted_by_typeId reg → find header reg = find_ordered header reg.
Proof.
  intros Hs. unfold find.
  rewrite lower_bound_spec by by apply sorted_partitioned.
  apply find_scan.
Qed.

(** On a sorted register a [set] that returns has done the ordered
    insertion. *)
Lemma set_sorted cfg header buf reg reg' :
  sorted_by_typeId reg → set cfg header buf reg = Returned reg' →
  reg' = upsert_ordered header buf reg.
Proof.
  intros Hs. unfold set.
  rewrite lower_bound_spec by by apply sorted_partitioned.
  rewrite <- set_core_scan. cbn zeta.
  destruct (assert cfg _); cbn [mbind Outcome_bind Build.bind]; [|done].
  destruct (reg !! _) as [found|].
  - destruct (Header.eqb found.1 header); [congruence|].
    case_bool_decide; congruence.
  - case_bool_decide; congruence.
Qed.

(** With room left the [set] returns. *)
Lemma set_within cfg header buf reg :
  sorted_by_typeId reg → length reg < cMaxDataBufferCount →
  set cfg header buf reg = Returned (upsert_ordered header buf reg).
Proof.
  intros Hs Hlen. unfold set, assert.
  rewrite lower_bound_spec by by apply sorted_partitioned.
  rewrite <- set_core_scan. cbn zeta.
  rewrite !bool_decide_eq_true_2 by done.
  destruct (ndebug cfg); cbn [mbind Outcome_bind Build.bind];
    destruct (reg !! _) as [found|]; try done;
    by destruct (Header.eqb found.1 header).
Qed.

(** *** The scans on sorted registers *)

Lemma agrees_tail header e reg : agrees header (e :: reg) → agrees header reg.
Proof. intros H e' He'. apply H. by right. Qed.

Lemma sorted_cons e reg :
  sorted_by_typeId (e :: reg) ↔
  (∀ e', e' ∈ reg → (Header.typeId e.1 < Header.typeId e'.1)%N)
  ∧ sorted_by_typeId reg.
Proof. unfold sorted_by_typeId. by rewrite StronglySorted_cons, Forall_forall. Qed.

Lemma upsert_elem header buf reg e :
  sorted_by_typeId reg →
  e ∈ upsert_ordered header buf reg ↔
  e = (header, buf) ∨ (e ∈ reg ∧ e.1 ≠ header).
Proof.
  induction reg as [|[h b] reg IH]; cbn [upsert_ordered].
  { intros _. rewrite list_elem_of_singleton, elem_of_nil. tauto. }
  intros [Hhd Hs]%sorted_cons. cbn [fst] in Hhd.
  assert (Hrest : Header.lt h header = false → e ∈ reg → e.1 ≠ header).
  { intros Hlt%lt_false He Heq. specialize (Hhd _ He). rewrite Heq in Hhd. lia. }
  destruct (Header.lt h header) eqn:Hlt.
  - apply lt_spec in Hlt. rewrite !elem_of_cons, (IH Hs).
    split; [intros [->|[?|[? ?]]]|intros [?|[[->|?] ?]]]; auto.
    right. split; [by left|]. cbn. intros ->. lia.
  - specialize (Hrest eq_refl). destruct (Header.eqb h header) eqn:Heq.
    + apply eqb_spec in Heq as ->. rewrite !elem_of_cons.
      split; [intros [?|?]|intros [?|[[->|?] ?]]]; auto. done.
    + rewrite !elem_of_cons.
      split; [intros [?|[->|?]]|intros [?|[[->|?] ?]]]; auto.
      right. split; [by left|]. cbn. intros ->. by rewrite eqb_refl in Heq.
Qed.

Lemma upsert_sorted header buf reg :
  sorted_by_typeId reg → agrees header reg →
  sorted_by_typeId (upsert_ordered header buf reg).
Proof.
  induction reg as [|[h b] reg IH]; cbn [upsert_ordered].
  { intros _ _. apply sorted_cons. split; [by intros ? ?%elem_of_nil|constructor]. }
  intros Hs Hag. pose proof Hs as [Hhd Hs']%sorted_cons. cbn [fst] in Hhd.
  destruct (Header.lt h header) eqn:Hlt.
  - apply lt_spec in Hlt. apply sorted_cons. split.
    + intros e' [->|[He' _]]%upsert_elem; [done|by apply Hhd|done].
    + apply IH; [done|by eapply agrees_tail].
  - apply lt_false in Hlt. destruct (Header.eqb h header) eqn:Heq.
    + apply sorted_cons. by split.
    + assert (Header.typeId h ≠ Header.typeId header).
      { intros Hid. apply (Hag (h, b)) in Hid; [|by left]. cbn in Hid.
        subst. by rewrite eqb_refl in Heq. }
      apply sorted_cons. split; [|done].
      intros e' [->|He']%elem_of_cons; cbn [fst]; [lia|].
      specialize (Hhd _ He'). lia.
Qed.

Lemma upsert_keys header buf reg :
  sorted_by_typeId reg → header ∈ reg.*1 →
  (upsert_ordered header buf reg).*1 = reg.*1.
Proof.
  induction reg as [|[h b] reg IH]; cbn [upsert_ordered].
  { by intros _ ?%elem_of_nil. }
  intros [Hhd Hs]%sorted_cons Hin. cbn [fst] in Hhd.
  rewrite fmap_cons in Hin. cbn [fst] in Hin.
  assert (Hrest : Header.lt h header = false → header ∈ reg.*1 → False).
  { intros Hlt%lt_false ([h' b'] & -> & He)%list_elem_of_fmap.
    specialize (Hhd _ He). cbn in *. lia. }
  destruct (Header.lt h header) eqn:Hlt.
  - apply lt_spec in Hlt. rewrite !fmap_cons. f_equal. apply IH; [done|].
    apply elem_of_cons in Hin as [->|?]; [lia|done].
  - destruct (Header.eqb h header) eqn:Heq; [done|].
    apply elem_of_cons in Hin as [->|?]; [by rewrite eqb_refl in Heq|].
    by destruct Hrest.
Qed.

Lemma find_ordered_elem header buf reg :
  sorted_by_typeId reg → (header, buf) ∈ reg →
  find_ordered header reg = buf.
Proof.
  induction reg as [|[h b] reg IH]; cbn [find_ordered].
  { by intros _ ?%elem_of_nil. }
  intros [Hhd Hs]%sorted_cons Hin. cbn [fst] in Hhd.
  assert (Hrest : Header.lt h header = false → (header, buf) ∈ reg → False).
  { intros Hlt%lt_false He. specialize (Hhd _ He). cbn in *. lia. }
  destruct (Header.lt h header) eqn:Hlt.
  - apply lt_spec in Hlt. apply IH; [done|].
    apply elem_of_cons in Hin as [[= -> ->]|?]; [lia|done].
  - apply elem_of_cons in Hin as [[= -> ->]|?]; [|by destruct Hrest].
    by rewrite eqb_refl.
Qed.

Lemma find_ordered_absent header reg :
  header ∉ reg.*1 → find_ordered header reg = Buffer_null.
Proof.
  induction reg as [|[h b] reg IH]; cbn [find_ordered]; [done|].
  rewrite fmap_cons, not_elem_of_cons. cbn [fst]. intros [Hne Hnin].
  destruct (Header.lt h header); [by apply IH|].
  destruct (Header.eqb h header) eqn:Heq; [|done].
  by apply eqb_spec in Heq.
Qed.

Lemma sorted_NoDup reg : sorted_by_typeId reg → NoDup reg.*1.
Proof.
  induction reg as [|[h b] reg IH]; [constructor|].
  intros [Hhd Hs]%sorted_cons. rewrite fmap_cons. apply NoDup_cons.
  split; [|by apply IH].
  intros ([h' b'] & Heq & He)%list_elem_of_fmap. specialize (Hhd _ He).
  cbn in *. subst. lia.
Qed.

(** *** Runs of [set] calls *)

Lemma last_set_app header done todo :
  last_set header (done ++ todo)
  = match last_set header todo with
    | Some b => Some b
    | None => last_set header done
    end.
Proof.
  induction done as [|[h b] done IH]; cbn [app last_set].
  { by destruct (last_set header todo). }
  rewrite IH. destruct (last_set header todo); [done|].
  by destruct (last_set header done).
Qed.

Lemma last_set_Some header buf calls :
  last_set header calls = Some buf → header ∈ calls.*1.
Proof.
  induction calls as [|[h b] calls IH]; cbn [last_set]; [done|].
  rewrite fmap_cons, elem_of_cons. cbn [fst].
  destruct (last_set header calls); [by right; eapply IH|].
  case_decide; [by left|done].
Qed.

Lemma set_all_built cfg todo done reg reg' :
  typeId_keyed (done ++ todo) → built done reg →
  set_all cfg todo reg = Returned reg' → built (done ++ todo) reg'.
Proof.
  revert done reg. induction todo as [|[h b] todo IH]; intros done reg Hkey Hb.
  { cbn. intros [= <-]. by rewrite app_nil_r. }
  cbn [set_all]. destruct (set cfg h b reg) as [reg1|] eqn:Hset; [|done].
  cbn [mbind Outcome_bind Build.bind]. intros Hrest.
  destruct Hb as [Hs Hb].
  apply set_sorted in Hset as ->; [|done].
  replace (done ++ (h, b) :: todo) with ((done ++ [(h, b)]) ++ todo) in *
    by by rewrite <- app_assoc.
  eapply IH; [exact Hkey| |exact Hrest]. split.
  - apply upsert_sorted; [done|]. intros [h' b'] He Hid. cbn [fst] in *.
    apply Hkey; [| |done]; rewrite !fmap_app; cbn [fmap list_fmap fst].
    + apply elem_of_app. left. apply elem_of_app. left.
      eapply last_set_Some. by apply Hb.
    + apply elem_of_app. left. apply elem_of_app. right. by left.
  - intros h' b'. rewrite upsert_elem by done. cbn [fst].
    rewrite last_set_app. cbn [last_set]. rewrite Hb.
    case_decide as Hh; [subst h'|].
    + split; [intros [[= ->]|[_ ?]]|intros [= ->]]; auto; done.
    + split; [intros [[= -> _]|[? _]]|intros ?]; auto; done.
Qed.

Lemma built_empty : built [] empty.
Proof. split; [constructor|]. intros h b. cbn. by rewrite elem_of_nil. Qed.

Lemma keyed_agrees calls reg h :
  typeId_keyed calls → built calls reg → h ∈ calls.*1 → agrees h reg.
Proof.
  intros Hkey [_ Hb] Hh [h' b'] He Hid. cbn [fst] in *.
  apply Hkey; [|done|done]. eapply last_set_Some. by apply Hb.
Qed.

(** Runs of [set] calls in which the [typeId] identifies the type: a run
    that returns leaves at most one entry per header, the entries in
    increasing order of header, and every header with the descriptor of the
    last call for it; a further [set] that returns, for a header that is
    present, has overwritten its descriptor and added no entry. *)
Theorem set_all_keyed cfg calls reg :
  typeId_keyed calls → set_all cfg calls empty = Returned reg →
  NoDup reg.*1 ∧ sorted_by_typeId reg ∧
  (∀ h b, (h, b) ∈ reg ↔ last_set h calls = Some b) ∧
  ∀ h b reg', h ∈ reg.*1 → set cfg h b reg = Returned reg' →
    reg'.*1 = reg.*1 ∧ length reg' = length reg ∧ (h, b) ∈ reg' ∧
    find h reg' = b.
Proof.
  intros Hkey Hrun.
  pose proof (set_all_built cfg calls [] empty reg Hkey built_empty Hrun) as Hb.
  cbn [app] in Hb. pose proof Hb as [Hs Hlast].
  split_and!; [by apply sorted_NoDup|done|done|].
  intros h b reg' Hin Hset.
  assert (Hag : agrees h reg).
  { apply (keyed_agrees calls); [done|done|].
    apply list_elem_of_fmap in Hin as ([h' b'] & -> & He).
    eapply last_set_Some. by apply Hlast. }
  apply set_sorted in Hset as ->; [|done].
  pose proof (upsert_keys h b reg Hs Hin) as Hkeys.
  assert (Hin' : (h, b) ∈ upsert_ordered h b reg).
  { apply upsert_elem; [done|by left]. }
  split_and!; [done| |done|].
  - by rewrite <- (length_fmap fst), Hkeys, length_fmap.
  - rewrite find_sorted by by apply upsert_sorted.
    apply find_ordered_elem; [by apply upsert_sorted|done].
Qed.

(** Runs of [set] calls in which the [typeId] identifies the type: [find]
    returns the descriptor of the entry with the header when there is one,
    and a descriptor with a null buffer when there is none. *)
Theorem find_keyed cfg calls : typeId_keyed calls → find_exact cfg calls.
Proof.
  intros Hkey reg h Hrun.
  pose proof (set_all_built cfg calls [] empty reg Hkey built_empty Hrun) as Hb.
  cbn [app] in Hb. destruct Hb as [Hs _]. rewrite find_sorted by done. split.
  - intros b Hin. by apply find_ordered_elem.
  - intros Hnin. by rewrite find_ordered_absent.
Qed.

(** Two types with one [typeId] and different sizes, and the first
    registered again, leave its header in the register twice. *)
Lemma header_twice :
  ¬ one_entry_per_header Examples.cfg_debug
      [(Examples.h_float, Examples.b_float);
       (Examples.h_double, Examples.b_double);
       (Examples.h_float, Examples.b_float)].
Proof.
  intros H. specialize (H _ eq_refl). vm_compute in H.
  apply NoDup_cons in H as [Hnin _]. apply Hnin. right. left.
Qed.

(** C8 as stated fails: with two types under one [typeId], [find] misses
    the header that was registered first. *)
Lemma find_not_exact :
  ¬ find_exact Examples.cfg_debug
      [(Examples.h_float, Examples.b_float);
       (Examples.h_double, Examples.b_double)].
Proof.
  intros H. destruct (H _ Examples.h_float eq_refl) as [Hf _].
  specialize (Hf Examples.b_float). vm_compute in Hf.
  assert (Hnull : Buffer_null = Examples.b_float); [|discriminate Hnull].
  apply Hf. right. left.
Qed.

Lemma find_clash :
  set_all Examples.cfg_debug
    [(Examples.h_float, Examples.b_float);
     (Examples.h_double, Examples.b_double)] empty
  = Returned [(Examples.h_double, Examples.b_double);
              (Examples.h_float, Examples.b_float)]
  ∧ find Examples.h_float
      [(Examples.h_double, Examples.b_double);
       (Examples.h_float, Examples.b_float)] = Buffer_null.
Proof. split; reflexivity. Qed.

Lemma keyed_example :
  typeId_keyed [(Examples.h2, Examples.b_double); (Examples.h3, Examples.b_float);
                (Examples.h1, Examples.b_float); (Examples.h2, Examples.b_float)].
Proof.
  intros x y Hx Hy.
  cbn in Hx, Hy. set_unfold. intros Hid.
  destruct Hx as [->|[->|[->|[->|[]]]]], Hy as [->|[->|[->|[->|[]]]]];
    (done || by vm_compute in Hid).
Qed.

Lemma set_all_keyed_witness :
  typeId_keyed [(Examples.h2, Examples.b_double); (Examples.h3, Examples.b_float);
                (Examples.h1, Examples.b_float); (Examples.h2, Examples.b_float)]
  ∧ set_all Examples.cfg_debug
      [(Examples.h2, Examples.b_double); (Examples.h3, Examples.b_float);
       (Examples.h1, Examples.b_float); (Examples.h2, Examples.b_float)] empty
    = Returned [(Examples.h1, Examples.b_float); (Examples.h2, Examples.b_float);
                (Examples.h3, Examples.b_float)]
  ∧ NoDup [Examples.h1; Examples.h2; Examples.h3].
Proof.
  split; [exact keyed_example|]. split; [reflexivity|].
  exact (proj1 (set_all_keyed Examples.cfg_debug _ _ keyed_example eq_refl)).
Defined.

Lemma find_keyed_witness :
  typeId_keyed [(Examples.h2, Examples.b_double); (Examples.h3, Examples.b_float);
                (Examples.h1, Examples.b_float); (Examples.h2, Examples.b_float)]
  ∧ find Examples.h2
      [(Examples.h1, Examples.b_float); (Examples.h2, Examples.b_float);
       (Examples.h3, Examples.b_float)] = Examples.b_float.
Proof.
  split; [exact keyed_example|].
  apply (find_keyed Examples.cfg_debug _ keyed_example _ Examples.h2 eq_refl).
  right. left.
Defined.

End RegisterFacts.

Module WireFacts.

Lemma to_N_byte_of_N n : Byte.to_N (byte_of_N n) = (n mod 256)%N.
Proof.
  unfold byte_of_N.
  destruct (Byte.of_N (n mod 256)) as [b|] eqn:Hb.
  - cbn. by apply Byte.to_of_N.
  - apply Byte.of_N_None_iff in Hb.
    pose proof (N.mod_upper_bound n 256). lia.
Qed.

Lemma uint32_roundtrip n : (n < 2 ^ 32)%N → uint32_of_bytes (uint32_bytes n) = n.
Proof.
  intros Hn. unfold uint32_bytes. cbn [uint32_of_bytes].
  rewrite !to_N_byte_of_N.
  change (2 ^ 8)%N with 256%N. change (2 ^ 16)%N with 65536%N.
  change (2 ^ 24)%N with 16777216%N. change (2 ^ 32)%N with 4294967296%N in Hn.
  pose proof (N.div_mod' n 256) as H0.
  pose proof (N.div_mod' (n / 256) 256) as H1.
  pose proof (N.div_mod' (n / 256 / 256) 256) as H2.
  pose proof (N.mod_upper_bound n 256).
  pose proof (N.mod_upper_bound (n / 256) 256).
  pose proof (N.mod_upper_bound (n / 256 / 256) 256).
  replace (n / 65536)%N with (n / 256 / 256)%N by (by rewrite N.Div0.div_div).
  replace (n / 16777216)%N with (n / 256 / 256 / 256)%N
    by (by rewrite !N.Div0.div_div).
  assert (n / 256 / 256 / 256 < 256)%N.
  { rewrite !N.Div0.div_div. apply N.Div0.div_lt_upper_bound. lia. }
  rewrite (N.mod_small (n / 256 / 256 / 256) 256) by done.
  lia.
Qed.

Lemma uint32_bytes_length n : length (uint32_bytes n) = 4.
Proof. done. Qed.

Lemma Header_bytes_length h : length (Header.bytes h) = Header.size.
Proof. done. Qed.

(** A header read back from its bytes is the header. *)
Lemma Header_roundtrip h : Header.valid h → Header.of_bytes (Header.bytes h) = h.
Proof.
  intros [Hid Hsz]. unfold Header.of_bytes, Header.bytes.
  rewrite take_app_length' by done. rewrite drop_app_length' by done.
  rewrite take_ge by done. rewrite !uint32_roundtrip by done. by destruct h.
Qed.

End WireFacts.

Module ReaderFacts.
Import BinaryReader.

(** *** Stores *)

Lemma store_at_app off bs1 bs2 obj :
  store_at off (bs1 ++ bs2) obj
  = store_at off bs1 obj ≫= store_at (off + length bs1) bs2.
Proof.
  unfold store_at. rewrite length_app.
  case_bool_decide as H12.
  - rewrite bool_decide_eq_true_2 by lia. cbn [mbind option_bind].
    assert (Hlen : length (take off obj ++ bs1) = off + length bs1).
    { rewrite length_app, length_take. lia. }
    rewrite (app_assoc (take off obj) bs1).
    rewrite bool_decide_eq_true_2
      by (rewrite length_app, Hlen, length_drop; lia).
    rewrite take_app_length' by done.
    rewrite drop_app_add' by done. rewrite drop_drop.
    rewrite <- !app_assoc. by rewrite Nat.add_assoc.
  - case_bool_decide as H1; [|done]. cbn [mbind option_bind].
    rewrite !length_app, length_take, length_drop.
    rewrite bool_decide_eq_false_2 by lia. done.
Qed.

Lemma store_at_length off bs obj obj' :
  store_at off bs obj = Some obj' → length obj' = length obj.
Proof.
  unfold store_at. case_bool_decide; [|done]. intros [= <-].
  rewrite !length_app, length_take, length_drop. lia.
Qed.

(** A store leaves the register, the current buffer, the state, the stream
    and the calls made as they are. *)
Lemma store_object_frame a bs r w r' w' :
  store_object a bs (r, w) = Some (r', w') →
  dataBufferRegistery_ r' = dataBufferRegistery_ r ∧
  currentBuffer_ r' = currentBuffer_ r ∧ state_ r' = state_ r ∧
  stream w' = stream w ∧ published w' = published w.
Proof.
  unfold store_object. destruct a as [[| | |k] off]; cbn [fst snd];
    intros H; apply bind_Some in H as (x & Hx & H).
  1-3: by simplify_eq.
  apply bind_Some in H as (y & Hy & H). by simplify_eq.
Qed.

Lemma store_frame p bs r w r' w' :
  store p bs (r, w) = Some (r', w') →
  dataBufferRegistery_ r' = dataBufferRegistery_ r ∧
  currentBuffer_ r' = currentBuffer_ r ∧ state_ r' = state_ r ∧
  stream w' = stream w ∧ published w' = published w.
Proof.
  unfold store. case_bool_decide; [by intros [= <- <-]|].
  destruct p; [apply store_object_frame|done].
Qed.

(** A store looks neither at the stream nor at the current buffer. *)
Lemma store_object_with a bs r w s b :
  store_object a bs (with_currentBuffer b r, with_stream s w)
  = (λ x, (with_currentBuffer b x.1, with_stream s x.2)) <$> store_object a bs (r, w).
Proof.
  unfold store_object.
  destruct a as [[| | |k] off];
    cbn [fst snd heap with_stream with_currentBuffer prefix_ header_ postfix_].
  1-3: by destruct (store_at _ _ _).
  destruct (heap w !! k); [|done]. cbn [mbind option_bind].
  by destruct (store_at _ _ _).
Qed.

Lemma store_with p bs r w s b :
  store p bs (with_currentBuffer b r, with_stream s w)
  = (λ x, (with_currentBuffer b x.1, with_stream s x.2)) <$> store p bs (r, w).
Proof.
  unfold store. case_bool_decide; [done|].
  destruct p; [apply store_object_with|done].
Qed.

Lemma store_object_app a bs1 bs2 s :
  store_object a (bs1 ++ bs2) s
  = store_object a bs1 s ≫= store_object (a.1, a.2 + length bs1) bs2.
Proof.
  destruct s as [r w], a as [[| | |k] off]; unfold store_object; cbn [fst snd].
  1-3: rewrite store_at_app; by destruct (store_at off bs1 _).
  destruct (heap w !! k) as [old|] eqn:Hold; cbn [mbind option_bind]; [|done].
  rewrite store_at_app. destruct (store_at off bs1 old) as [obj|];
    cbn [mbind option_bind heap]; [|done].
  rewrite lookup_insert_eq. cbn [mbind option_bind].
  destruct (store_at _ bs2 obj); cbn [mbind option_bind stream published]; [|done].
  by rewrite insert_insert_eq.
Qed.

Lemma advance_0 p : advance p 0 = p.
Proof. destruct p as [[obj off]|]; [|done]. cbn. by rewrite Nat.add_0_r. Qed.

Lemma advance_add p n m : advance (advance p n) m = advance p (n + m).
Proof. destruct p as [[obj off]|]; [|done]. cbn. by rewrite Nat.add_assoc. Qed.

(** Storing in two goes is storing at once. *)
Lemma store_app p bs1 bs2 s :
  store p (bs1 ++ bs2) s
  = store p bs1 s ≫= store (advance p (length bs1)) bs2.
Proof.
  unfold store. destruct (decide (bs1 = [])) as [->|H1].
  { cbn [app length]. rewrite advance_0. by rewrite (bool_decide_eq_true_2 ([] = [])). }
  destruct (decide (bs2 = [])) as [->|H2].
  { rewrite app_nil_r, (bool_decide_eq_true_2 ([] = [])) by done.
    rewrite bool_decide_eq_false_2 by done.
    destruct p as [a|]; [|done]. by destruct (store_object a bs1 s). }
  rewrite !bool_decide_eq_false_2; [|done|done|by intros [? ?]%app_eq_nil].
  destruct p as [[obj off]|]; [|done]. apply store_object_app.
Qed.

(** *** The two blocks of [readBuffer] *)

Ltac unfold_M :=
  unfold mbind, mret, M_bind, M_ret, get_reader, set_currentBuffer, set_state,
    lift; cbn [fst snd].

Lemma with_currentBuffer_id r : with_currentBuffer (currentBuffer_ r) r = r.
Proof. by destruct r. Qed.

Lemma with_stream_id w : with_stream (stream w) w = w.
Proof. by destruct w. Qed.

Lemma Buffer_eta b :
  {| buffer := buffer b; bufferSize := bufferSize b;
     paddingSize := paddingSize b; publisher := publisher b |} = b.
Proof. by destruct b. Qed.

(** The first block in one formula: what the stream holds of the buffer is
    stored, and the block is through when that was all of it. *)
Lemma buffer_spec r w :
  let cur := currentBuffer_ r in
  let n := bufferSize cur in
  let got := take n (stream w) in
  readBuffer_buffer (r, w)
  = match store (buffer cur) got (r, with_stream (drop n (stream w)) w) with
    | Some (r1, w1) =>
        (Returned (bool_decide (n ≤ length (stream w))),
         (with_currentBuffer
            {| buffer := advance (buffer cur) (length got);
               bufferSize := n - length got;
               paddingSize := paddingSize cur;
               publisher := publisher cur |} r1, w1))
    | None => (Faulted Undefined, (r, with_stream (drop n (stream w)) w))
    end.
Proof.
  intros cur n got. unfold readBuffer_buffer, IStream_read. unfold_M.
  fold cur n. case_bool_decide as Hn.
  - fold got. destruct (store _ got _) as [[r1 w1]|]; [|done]. cbn [fst snd].
    f_equal. subst got. rewrite length_take.
    case_bool_decide; case_bool_decide; (done || lia).
  - assert (n = 0) as Hn0 by lia. subst got. rewrite Hn0, take_0, drop_0.
    unfold store. rewrite bool_decide_eq_true_2 by done.
    rewrite bool_decide_eq_true_2 by lia. cbn [length].
    rewrite advance_0, with_stream_id. f_equal. f_equal.
    rewrite <- (with_currentBuffer_id r) at 1. f_equal.
    rewrite <- (Buffer_eta (currentBuffer_ r)) at 1. fold cur. f_equal. lia.
Qed.

(** The second block in one formula. *)
Lemma padding_spec r w :
  let cur := currentBuffer_ r in
  let pad := paddingSize cur in
  readBuffer_padding (r, w)
  = (Returned (bool_decide (pad ≤ length (stream w))),
     (with_currentBuffer
        {| buffer := buffer cur;
           bufferSize := bufferSize cur;
           paddingSize := pad - length (take pad (stream w));
           publisher := publisher cur |} r,
      with_stream (drop pad (stream w)) w)).
Proof.
  intros cur pad. unfold readBuffer_padding, IStream_ignore. unfold_M.
  fold cur pad. case_bool_decide as Hn.
  - f_equal. rewrite length_take.
    case_bool_decide; case_bool_decide; (done || lia).
  - assert (pad = 0) as Hn0 by lia. rewrite Hn0, take_0, drop_0. cbn [length].
    rewrite bool_decide_eq_true_2 by lia. rewrite with_stream_id.
    f_equal. f_equal.
    rewrite <- (with_currentBuffer_id r) at 1. f_equal.
    rewrite <- (Buffer_eta (currentBuffer_ r)) at 1. fold cur. f_equal. lia.
Qed.

(** *** [stateComplete] *)

Lemma nextState_spec cfg proto st r w :
  nextState cfg proto st (r, w)
  = if signals proto st then
      match publisher (currentBuffer_ r) with
      | Some k => (Returned (next_of proto st), (r, signalled k w))
      | None =>
          if ndebug cfg then (Returned (next_of proto st), (r, w))
          else (Faulted Aborted, (r, w))
      end
    else (Returned (next_of proto st), (r, w)).
Proof.
  unfold nextState, nextState_Postfix, IPublish_publish, assert, signals, next_of.
  unfold_M. cbv beta iota. cbn [fst snd].
  destruct st, (Postfix_t proto); try done; cbn [fst snd];
    by destruct (publisher (currentBuffer_ r)), (ndebug cfg).
Qed.

Lemma stateComplete_spec cfg proto r w :
  stateComplete cfg proto (r, w)
  = if getStateStatus proto (state_ r) r then
      match nextState cfg proto (state_ r) (r, w) with
      | (Returned next, (r1, w1)) =>
          let r2 := with_currentBuffer
                      (findStateBuffer proto next (with_state next r1))
                      (with_state next r1) in
          if bool_decide (buffer (currentBuffer_ r2) = None) then
            match raise cfg (if bool_decide (next = State.Data)
                             then msg_null_data else msg_logic) with
            | Returned _ => (Returned false, (r2, w1))
            | Faulted f => (Faulted f, (r2, w1))
            end
          else (Returned true, (r2, w1))
      | (Faulted f, s') => (Faulted f, s')
      end
    else
      match raise cfg (match state_ r with
                       | State.Header => msg_header_mismatch
                       | State.Postfix => msg_postfix_mismatch
                       | _ => msg_sync_lost
                       end) with
      | Returned _ => (Returned false, (with_state State.SyncLost r, w))
      | Faulted f => (Faulted f, (r, w))
      end.
Proof.
  unfold stateComplete, checkStatusOfState. unfold_M.
  destruct (getStateStatus proto (state_ r) r).
  - cbv beta iota. cbn [negb].
    destruct (nextState cfg proto (state_ r) (r, w)) as [[next|f] [r1 w1]];
      [|done].
    cbv beta iota zeta. cbn [fst snd state_ with_state with_currentBuffer currentBuffer_].
    case_bool_decide as Hnull.
    + destruct (raise cfg _); [|done]. cbv beta iota.
      by rewrite bool_decide_eq_false_2 by (by intros []).
    + cbv beta iota. by rewrite bool_decide_eq_true_2.
  - cbv beta iota. destruct (raise cfg _); [|done]. by cbv beta iota.
Qed.

(** [stateComplete] neither reads nor changes the stream. *)
Lemma stateComplete_stream cfg proto r w s :
  stateComplete cfg proto (r, with_stream s w)
  = let '(o, (r', w')) := stateComplete cfg proto (r, w) in
    (o, (r', with_stream s w')).
Proof.
  rewrite !stateComplete_spec, !nextState_spec.
  destruct (getStateStatus proto (state_ r) r).
  - destruct (signals proto (state_ r)), (publisher (currentBuffer_ r)) as [k|],
      (ndebug cfg); try done; cbv zeta;
      (case_bool_decide; [destruct (raise cfg _)|]; done).
  - by destruct (raise cfg _).
Qed.

Lemma stateComplete_stream_eq cfg proto r w o r' w' :
  stateComplete cfg proto (r, w) = (o, (r', w')) → stream w' = stream w.
Proof.
  rewrite stateComplete_spec, nextState_spec.
  destruct (getStateStatus proto (state_ r) r).
  - destruct (signals proto (state_ r)), (publisher (currentBuffer_ r)) as [k|],
      (ndebug cfg); cbv zeta;
      try (case_bool_decide; [destruct (raise cfg _)|]); by intros [= <- <- <-].
  - destruct (raise cfg _); by intros [= <- <- <-].
Qed.

Lemma stateComplete_arrive cfg proto s o s' c :
  stateComplete cfg proto s = (o, s') →
  stateComplete cfg proto (arrive c s) = (o, arrive c s').
Proof.
  destruct s as [r w], s' as [r' w']. intros H. unfold arrive. cbn [fst snd].
  rewrite stateComplete_stream, H.
  by rewrite (stateComplete_stream_eq _ _ _ _ _ _ _ H).
Qed.

(** *** More bytes on the stream *)

Lemma store_restream p bs r w s :
  store p bs (r, with_stream s w)
  = (λ x, (x.1, with_stream s x.2)) <$> store p bs (r, w).
Proof.
  rewrite <- (with_currentBuffer_id r) at 1. rewrite store_with.
  destruct (store p bs (r, w)) as [[r' w']|] eqn:H; [|done]. cbn.
  apply store_frame in H as (_ & Hcur & _). rewrite <- Hcur.
  by rewrite with_currentBuffer_id.
Qed.

Lemma arrive_pair c r w : arrive c (r, w) = (r, with_stream (stream w ++ c) w).
Proof. done. Qed.

(** A block that was through stays through when more bytes follow. *)
Lemma buffer_arrive_true s s' c :
  readBuffer_buffer s = (Returned true, s') →
  readBuffer_buffer (arrive c s) = (Returned true, arrive c s').
Proof.
  destruct s as [r w]. rewrite arrive_pair, !buffer_spec.
  cbn [stream with_stream].
  set (n := bufferSize (currentBuffer_ r)).
  destruct (store _ (take n (stream w)) _) as [[r1 w1]|] eqn:Hst; [|done].
  intros [= Hn <-]. apply bool_decide_eq_true in Hn.
  rewrite take_app_le, drop_app_le by done.
  change (with_stream (drop n (stream w) ++ c) (with_stream (stream w ++ c) w))
    with (with_stream (drop n (stream w) ++ c) (with_stream (drop n (stream w)) w)).
  rewrite store_restream, Hst. cbn [fmap option_fmap option_map fst snd].
  rewrite bool_decide_eq_true_2 by (rewrite length_app; lia).
  apply store_frame in Hst as (_ & _ & _ & Hs & _). cbn [stream with_stream] in Hs.
  by rewrite arrive_pair, Hs.
Qed.

Lemma padding_arrive_true s s' c :
  readBuffer_padding s = (Returned true, s') →
  readBuffer_padding (arrive c s) = (Returned true, arrive c s').
Proof.
  destruct s as [r w]. rewrite arrive_pair, !padding_spec.
  cbn [stream with_stream].
  set (pad := paddingSize (currentBuffer_ r)).
  intros [= Hn <-]. apply bool_decide_eq_true in Hn.
  rewrite take_app_le, drop_app_le by done.
  rewrite bool_decide_eq_true_2 by (rewrite length_app; lia).
  by rewrite arrive_pair.
Qed.

(** A [readBuffer] that completed its state does the same when more bytes
    follow, and leaves them on the stream. *)
Lemma readBuffer_arrive_true cfg proto s s' c :
  readBuffer cfg proto s = (Returned true, s') →
  readBuffer cfg proto (arrive c s) = (Returned true, arrive c s').
Proof.
  unfold readBuffer. unfold_M.
  destruct (readBuffer_buffer s) as [[[] |f] s1] eqn:H1; try done.
  rewrite (buffer_arrive_true _ _ c H1). cbn [negb].
  destruct (readBuffer_padding s1) as [[[] |f] s2] eqn:H2; try done.
  rewrite (padding_arrive_true _ _ c H2). cbn [negb].
  apply stateComplete_arrive.
Qed.

Lemma with_currentBuffer_twice a b r :
  with_currentBuffer a (with_currentBuffer b r) = with_currentBuffer a r.
Proof. done. Qed.

(** A first block that ran out of bytes picks up where it stopped: unless
    the store is undefined, reading the rest in a second call gives what
    reading everything in one call gives. *)
Lemma buffer_resume s s' c o t :
  readBuffer_buffer s = (Returned false, s') →
  readBuffer_buffer (arrive c s) = (o, t) → o ≠ Faulted Undefined →
  readBuffer_buffer (arrive c s') = (o, t).
Proof.
  destruct s as [r w]. rewrite arrive_pair, !buffer_spec.
  cbn [stream with_stream].
  set (cur := currentBuffer_ r). set (n := bufferSize cur).
  destruct (store _ (take n (stream w)) _) as [[r1 w1]|] eqn:Hst; [|done].
  intros [= Hn <-]. apply bool_decide_eq_false in Hn.
  rewrite (take_ge (stream w) n) in * by lia.
  rewrite (drop_ge (stream w) n) in Hst by lia.
  rewrite take_app_ge, drop_app_ge by lia.
  set (c2 := take (n - length (stream w)) c).
  set (D := drop (n - length (stream w)) c).
  rewrite store_app.
  change (with_stream D (with_stream (stream w ++ c) w))
    with (with_stream D (with_stream [] w)).
  rewrite store_restream, Hst. cbn [fmap option_fmap option_map mbind option_bind fst snd].
  pose proof Hst as (_ & _ & _ & Hs & _)%store_frame. cbn [stream with_stream] in Hs.
  rewrite arrive_pair, buffer_spec.
  cbn [currentBuffer_ with_currentBuffer bufferSize buffer paddingSize publisher
         stream with_stream].
  rewrite Hs. cbn [app]. fold c2 D.
  rewrite store_with, !store_restream.
  destruct (store (advance (buffer cur) (length (stream w))) c2 (r1, w1))
    as [[r2 w2]|]; cbn [fmap option_fmap option_map fst snd].
  2:{ by intros [= <- <-] ?. }
  intros [= <- <-] _. rewrite with_currentBuffer_twice.
  rewrite advance_add, !length_app.
  change (with_stream D (with_stream c w2)) with (with_stream D w2).
  rewrite Nat.sub_add_distr.
  f_equal. f_equal. apply bool_decide_ext. lia.
Qed.

Lemma padding_resume s s' c :
  readBuffer_padding s = (Returned false, s') →
  readBuffer_padding (arrive c s') = readBuffer_padding (arrive c s).
Proof.
  destruct s as [r w]. rewrite arrive_pair, !padding_spec.
  cbn [stream with_stream].
  set (cur := currentBuffer_ r). set (pad := paddingSize cur).
  intros [= Hn <-]. apply bool_decide_eq_false in Hn.
  rewrite arrive_pair, padding_spec.
  cbn [currentBuffer_ with_currentBuffer bufferSize buffer paddingSize publisher
         stream with_stream].
  rewrite with_currentBuffer_twice.
  rewrite take_ge, drop_ge by lia. cbn [app].
  rewrite take_app_ge, drop_app_ge by lia. rewrite !length_app.
  rewrite Nat.sub_add_distr.
  f_equal. f_equal. apply bool_decide_ext. lia.
Qed.

Lemma buffer_done s :
  bufferSize (currentBuffer_ s.1) = 0 →
  readBuffer_buffer s = (Returned true, s).
Proof.
  destruct s as [r w]. intros H. unfold readBuffer_buffer. unfold_M.
  cbn [fst] in H. by rewrite H, bool_decide_eq_false_2 by lia.
Qed.

Lemma buffer_true_size s s' :
  readBuffer_buffer s = (Returned true, s') →
  bufferSize (currentBuffer_ s'.1) = 0 ∧
  paddingSize (currentBuffer_ s'.1) = paddingSize (currentBuffer_ s.1).
Proof.
  destruct s as [r w]. rewrite buffer_spec.
  destruct (store _ _ _) as [[r1 w1]|]; [|done].
  intros [= Hn <-]. apply bool_decide_eq_true in Hn. cbn.
  rewrite length_take. split; [lia|done].
Qed.

Lemma padding_true_size s s' :
  readBuffer_padding s = (Returned true, s') →
  bufferSize (currentBuffer_ s'.1) = bufferSize (currentBuffer_ s.1) ∧
  paddingSize (currentBuffer_ s'.1) = 0.
Proof.
  destruct s as [r w]. rewrite padding_spec.
  intros [= Hn <-]. apply bool_decide_eq_true in Hn. cbn.
  rewrite length_take. split; [done|lia].
Qed.

Lemma padding_false_size s s' :
  readBuffer_padding s = (Returned false, s') →
  bufferSize (currentBuffer_ s'.1) = bufferSize (currentBuffer_ s.1).
Proof. destruct s as [r w]. rewrite padding_spec. by intros [= Hn <-]. Qed.

(** A [stateComplete] that returns false leaves no reader waiting for
    bytes: either the state is lost with the buffer used up, or the buffer
    is null. *)
Lemma stateComplete_false cfg proto r w r' w' :
  stateComplete cfg proto (r, w) = (Returned false, (r', w')) →
  bufferSize (currentBuffer_ r) = 0 → paddingSize (currentBuffer_ r) = 0 →
  ¬ blocked r'.
Proof.
  rewrite stateComplete_spec, nextState_spec. intros H Hn Hpad [Hbuf Hwait].
  destruct (getStateStatus proto (state_ r) r).
  - destruct (signals proto (state_ r)), (publisher (currentBuffer_ r)) as [k|],
      (ndebug cfg); cbv zeta in H; try done;
      (case_bool_decide as Hnull; [destruct (raise cfg _)|]; try done;
       simplify_eq; done).
  - destruct (raise cfg _); [|done]. simplify_eq. cbn in Hwait. lia.
Qed.

(** Resumability of [readBuffer]: a call that ran out of bytes and one that
    finds the rest do together what one call with all the bytes does. *)
Lemma readBuffer_resume cfg proto s s' c o t :
  readBuffer cfg proto s = (Returned false, s') → blocked s'.1 →
  readBuffer cfg proto (arrive c s) = (o, t) → o ≠ Faulted Undefined →
  readBuffer cfg proto (arrive c s') = (o, t).
Proof.
  unfold readBuffer. unfold_M. intros H Hblocked.
  destruct (readBuffer_buffer s) as [[[] |f] s1] eqn:H1; cbn [negb] in H;
    [| |done].
  - rewrite (buffer_arrive_true _ _ c H1). cbn [negb].
    pose proof (buffer_true_size _ _ H1) as [Hn1 Hp1].
    destruct (readBuffer_padding s1) as [[[] |f] s2] eqn:H2; cbn [negb] in H;
      [| |done].
    + pose proof (padding_true_size _ _ H2) as [Hn2 Hp2].
      destruct s2 as [r2 w2], s' as [r' w']. exfalso.
      apply (stateComplete_false _ _ _ _ _ _ H); [|done|done].
      cbn in *. congruence.
    + simplify_eq. pose proof (padding_false_size _ _ H2) as Hn2.
      rewrite (buffer_done (arrive c s')) by (cbn; congruence).
      cbn [negb]. by rewrite (padding_resume _ _ c H2).
  - simplify_eq.
    destruct (readBuffer_buffer (arrive c s)) as [o1 t1] eqn:Hd.
    intros Hrest Ho.
    assert (o1 ≠ Faulted Undefined) as Ho1.
    { intros ->. by simplify_eq. }
    by rewrite (buffer_resume _ _ c _ _ H1 Hd Ho1).
Qed.

(** *** Runs of [readBuffer] calls *)

Lemma run_more cfg proto k k' s res :
  run cfg proto k s = Some res → k ≤ k' → run cfg proto k' s = Some res.
Proof.
  revert k' s. induction k as [|k IH]; intros k' s H Hk; [done|].
  destruct k' as [|k']; [lia|]. cbn [run] in *.
  destruct (readBuffer cfg proto s) as [[[] |f] s1]; try done.
  apply IH; [done|lia].
Qed.

Lemma run_det cfg proto k k' s res res' :
  run cfg proto k s = Some res → run cfg proto k' s = Some res' → res = res'.
Proof.
  intros H H'. apply (run_more _ _ _ (k + k')) in H; [|lia].
  apply (run_more _ _ _ (k + k')) in H'; [|lia]. congruence.
Qed.

Lemma run_not_true cfg proto k s s' :
  run cfg proto k s ≠ Some (Returned true, s').
Proof.
  revert s. induction k as [|k IH]; intros s; [done|]. cbn [run].
  destruct (readBuffer cfg proto s) as [[[] |f] s1]; (done || apply IH).
Qed.

(** Resumability of a run: when a run stopped for want of bytes, running
    on with a further chunk gives what the run over all the bytes gives. *)
Lemma run_resume cfg proto k s s' c k2 o t :
  run cfg proto k s = Some (Returned false, s') → blocked s'.1 →
  run cfg proto k2 (arrive c s) = Some (o, t) → o ≠ Faulted Undefined →
  ∃ k3, run cfg proto k3 (arrive c s') = Some (o, t).
Proof.
  intros H Hblocked. revert s k2 H.
  induction k as [|k IH]; intros s k2 H Hd Ho; [done|].
  destruct k2 as [|k2]; [done|]. cbn [run] in H, Hd.
  destruct (readBuffer cfg proto s) as [[[] |f] s1] eqn:H1.
  - rewrite (readBuffer_arrive_true _ _ _ _ c H1) in Hd. by eapply IH.
  - assert (s1 = s') as -> by congruence.
    destruct (readBuffer cfg proto (arrive c s)) as [o1 t1] eqn:Hd1.
    destruct o1 as [[]|f1].
    + exists (S k2). cbn [run].
      by rewrite (readBuffer_resume _ _ _ _ c _ _ H1 Hblocked Hd1).
    + simplify_eq. exists 1. cbn [run].
      by rewrite (readBuffer_resume _ _ _ _ c _ _ H1 Hblocked Hd1).
    + simplify_eq. exists 1. cbn [run].
      by rewrite (readBuffer_resume _ _ _ _ c _ _ H1 Hblocked Hd1).
  - done.
Qed.

(** *** What one [readBuffer] does to state and stream *)

Lemma buffer_inv r w b r' w' :
  readBuffer_buffer (r, w) = (Returned b, (r', w')) →
  state_ r' = state_ r ∧
  stream w' = drop (bufferSize (currentBuffer_ r)) (stream w) ∧
  b = bool_decide (bufferSize (currentBuffer_ r) ≤ length (stream w)).
Proof.
  rewrite buffer_spec.
  destruct (store _ _ _) as [[r1 w1]|] eqn:Hst; [|done].
  intros [= -> <- <-].
  apply store_frame in Hst as (_ & _ & Hstate & Hs & _). by cbn in *.
Qed.

Lemma padding_inv r w b r' w' :
  readBuffer_padding (r, w) = (Returned b, (r', w')) →
  state_ r' = state_ r ∧
  stream w' = drop (paddingSize (currentBuffer_ r)) (stream w).
Proof. rewrite padding_spec. by intros [= _ <- <-]. Qed.

Lemma stateComplete_true cfg proto r w r' w' :
  stateComplete cfg proto (r, w) = (Returned true, (r', w')) →
  state_ r' = next_of proto (state_ r) ∧
  currentBuffer_ r' = findStateBuffer proto (state_ r') (with_state (state_ r') r).
Proof.
  rewrite stateComplete_spec, nextState_spec.
  destruct (getStateStatus proto (state_ r) r).
  - destruct (signals proto (state_ r)), (publisher (currentBuffer_ r)) as [k|],
      (ndebug cfg); cbv zeta; try done;
      (case_bool_decide as Hnull; [by destruct (raise cfg _)|]);
      by intros [= <- <-].
  - by destruct (raise cfg _).
Qed.

(** A [readBuffer] that returns true has moved one state on and taken at
    least the bytes of the buffer off the stream. *)
Lemma readBuffer_true cfg proto s s' :
  readBuffer cfg proto s = (Returned true, s') →
  state_ s'.1 = next_of proto (state_ s.1) ∧
  (state_ s'.1 = State.Header →
   currentBuffer_ s'.1 = findStateBuffer proto State.Header s'.1) ∧
  length (stream s'.2) + bufferSize (currentBuffer_ s.1) ≤ length (stream s.2).
Proof.
  unfold readBuffer. unfold_M. destruct s as [r w], s' as [r' w'].
  destruct (readBuffer_buffer (r, w)) as [[[] |f] [r1 w1]] eqn:H1; try done.
  cbn [negb].
  destruct (readBuffer_padding (r1, w1)) as [[[] |f] [r2 w2]] eqn:H2; try done.
  cbn [negb]. intros H3.
  apply buffer_inv in H1 as (Hst1 & Hs1 & Hb1).
  apply padding_inv in H2 as (Hst2 & Hs2).
  pose proof (stateComplete_stream_eq _ _ _ _ _ _ _ H3) as Hs3.
  apply stateComplete_true in H3 as (Hst3 & Hcur3).
  symmetry in Hb1. apply bool_decide_eq_true in Hb1. cbn [fst snd].
  split_and!.
  - congruence.
  - intros HH. rewrite Hcur3, HH. done.
  - rewrite Hs3, Hs2, Hs1, !length_drop. lia.
Qed.

Lemma readBuffer_stream cfg proto s o s' :
  readBuffer cfg proto s = (o, s') → o ≠ Faulted Undefined →
  length (stream s'.2) ≤ length (stream s.2).
Proof.
  unfold readBuffer. unfold_M. destruct s as [r w], s' as [r' w'].
  destruct (readBuffer_buffer (r, w)) as [[b1|f] [r1 w1]] eqn:H1.
  2:{ rewrite buffer_spec in H1. destruct (store _ _ _) as [[? ?]|]; [done|].
      injection H1 as <- _ _. by intros [= <- _ _] ?. }
  apply buffer_inv in H1 as (Hst1 & Hs1 & Hb1).
  destruct b1; cbn [negb].
  2:{ intros [= <- <- <-] _. cbn. rewrite Hs1, length_drop. lia. }
  destruct (readBuffer_padding (r1, w1)) as [[b2|f] [r2 w2]] eqn:H2.
  2:{ by rewrite padding_spec in H2. }
  apply padding_inv in H2 as (Hst2 & Hs2).
  destruct b2; cbn [negb].
  2:{ intros [= <- <- <-] _. cbn. rewrite Hs2, Hs1, !length_drop. lia. }
  intros H3 _. apply stateComplete_stream_eq in H3. cbn.
  rewrite H3, Hs2, Hs1, !length_drop. lia.
Qed.

Lemma next_of_rank proto st :
  next_of proto st = State.Header ∨ rank (next_of proto st) < rank st.
Proof.
  unfold next_of.
  destruct st, (Prefix_t proto), (Postfix_t proto); cbn; (by left) || (right; lia).
Qed.

(** *** Polls as runs *)

Lemma rank_pos st : 0 < rank st.
Proof. destruct st; cbn; lia. Qed.

Lemma rank_le st : rank st ≤ 4.
Proof. destruct st; cbn; lia. Qed.

(** What the loop of [read] amounts to in [readBuffer] calls. *)
Lemma read_loop_run cfg proto n s o s' :
  read_loop cfg proto n s = (o, s') →
  match o with
  | Returned (Some true) =>
      state_ s'.1 = State.Header ∧
      currentBuffer_ s'.1 = findStateBuffer proto State.Header s'.1 ∧
      length (stream s'.2) + bufferSize (currentBuffer_ s.1)
        ≤ length (stream s.2) ∧
      ∃ k, ∀ m, run cfg proto (k + m) s = run cfg proto m s'
  | Returned (Some false) => ∃ k, run cfg proto k s = Some (Returned false, s')
  | Returned None => n < rank (state_ s.1)
  | Faulted f => ∃ k, run cfg proto k s = Some (Faulted f, s')
  end.
Proof.
  revert s. induction n as [|n IH]; intros s; cbn [read_loop]; unfold_M.
  { intros [= <- <-]. apply rank_pos. }
  destruct (readBuffer cfg proto s) as [[[] |f] s1] eqn:H1.
  - pose proof (readBuffer_true _ _ _ _ H1) as (Hst & Hcur & Hlen).
    case_bool_decide as Hh.
    + intros [= <- <-]. split_and!; [done|by apply Hcur|done|].
      exists 1. intros m. cbn [Nat.add run]. by rewrite H1.
    + intros H. apply IH in H. destruct o as [[[] |]|f].
      * destruct H as (? & ? & ? & k & Hk). split_and!; [done|done|lia|].
        exists (S k). intros m. cbn [Nat.add run]. by rewrite H1.
      * destruct H as [k Hk]. exists (S k). cbn [run]. by rewrite H1.
      * destruct (next_of_rank proto (state_ s.1)); [congruence|]. rewrite Hst in H. lia.
      * destruct H as [k Hk]. exists (S k). cbn [run]. by rewrite H1.
  - intros [= <- <-]. exists 1. cbn [run]. by rewrite H1.
  - intros [= <- <-]. exists 1. cbn [run]. by rewrite H1.
Qed.

(** The loop of [read] always leaves within four rounds, so a poll is what
    its [readBuffer] calls make it. *)
Lemma read_run cfg proto s o s' :
  read cfg proto s = (o, s') →
  match o with
  | Returned true =>
      state_ s'.1 = State.Header ∧
      currentBuffer_ s'.1 = findStateBuffer proto State.Header s'.1 ∧
      length (stream s'.2) + bufferSize (currentBuffer_ s.1)
        ≤ length (stream s.2) ∧
      ∃ k, ∀ m, run cfg proto (k + m) s = run cfg proto m s'
  | Returned false => ∃ k, run cfg proto k s = Some (Returned false, s')
  | Faulted f => ∃ k, run cfg proto k s = Some (Faulted f, s')
  end.
Proof.
  unfold read. unfold_M.
  destruct (read_loop cfg proto 4 s) as [[[[] |]|f] s1] eqn:H;
    pose proof (read_loop_run _ _ _ _ _ _ H) as Hr; cbn beta iota in Hr.
  - by intros [= <- <-].
  - by intros [= <- <-].
  - pose proof (rank_le (state_ s.1)). lia.
  - by intros [= <- <-].
Qed.

Lemma drain_run cfg proto n s o s' :
  drain cfg proto n s = (o, s') → o ≠ Returned true →
  ∃ k, run cfg proto k s = Some (o, s').
Proof.
  revert s. induction n as [|n IH]; intros s; cbn [drain].
  { by intros [= <- <-] ?. }
  destruct (read cfg proto s) as [[[] |f] s1] eqn:H1;
    pose proof (read_run _ _ _ _ _ H1) as Hr; cbn beta iota in Hr.
  - intros H Ho. destruct Hr as (_ & _ & _ & k & Hk).
    destruct (IH _ H Ho) as [k' Hk']. exists (k + k'). by rewrite Hk.
  - by intros [= <- <-] _.
  - by intros [= <- <-] _.
Qed.

Lemma drain_fresh cfg proto n s :
  state_ s.1 = State.Header →
  bufferSize (currentBuffer_ s.1) = Header.size →
  length (stream s.2) < n →
  ∃ o s', drain cfg proto n s = (o, s') ∧ o ≠ Returned true.
Proof.
  revert s. induction n as [|n IH]; intros s Hst Hcur Hn; [lia|].
  cbn [drain].
  destruct (read cfg proto s) as [[[] |f] s1] eqn:H1;
    pose proof (read_run _ _ _ _ _ H1) as Hr; cbn beta iota in Hr.
  - destruct Hr as (Hst1 & Hcur1 & Hlen & _).
    apply IH; [done|by rewrite Hcur1|]. rewrite Hcur in Hlen.
    unfold Header.size in Hlen. lia.
  - by eexists _, _.
  - by eexists _, _.
Qed.

(** [polls_for] polls are enough: the last one does not return true. *)
Lemma drain_total cfg proto n s :
  polls_for s ≤ n →
  ∃ o s', drain cfg proto n s = (o, s') ∧ o ≠ Returned true.
Proof.
  unfold polls_for. intros Hn. destruct n as [|n]; [lia|]. cbn [drain].
  destruct (read cfg proto s) as [[[] |f] s1] eqn:H1;
    pose proof (read_run _ _ _ _ _ H1) as Hr; cbn beta iota in Hr.
  - destruct Hr as (Hst1 & Hcur1 & Hlen & _).
    apply drain_fresh; [done|by rewrite Hcur1|lia].
  - by eexists _, _.
  - by eexists _, _.
Qed.

(** The outcome of draining is the outcome of the run. *)
Lemma drain_of_run cfg proto k n s o s' :
  run cfg proto k s = Some (o, s') → polls_for s ≤ n →
  drain cfg proto n s = (o, s').
Proof.
  intros Hrun Hn.
  destruct (drain_total cfg proto n s Hn) as (o2 & s2 & Hd & Ho2).
  destruct (drain_run _ _ _ _ _ _ Hd Ho2) as [k2 Hk2].
  rewrite Hd. by rewrite (run_det _ _ _ _ _ _ _ Hrun Hk2).
Qed.

(** *** Feeding in chunks *)

Lemma arrive_app c1 c2 s : arrive (c1 ++ c2) s = arrive c2 (arrive c1 s).
Proof.
  destruct s as [r w]. rewrite !arrive_pair. cbn [stream with_stream].
  by rewrite app_assoc.
Qed.

Lemma arrive_nil s : arrive [] s = s.
Proof.
  destruct s as [r w]. rewrite arrive_pair, app_nil_r. by rewrite with_stream_id.
Qed.

(** Feeding chunk by chunk gives what the run over all the bytes gives, as
    long as every chunk but the last leaves the reader waiting for bytes. *)
Lemma feed_chunks cfg proto chunks s o t :
  chunks ≠ [] →
  (∀ i, 0 < i < length chunks →
     ∃ k si, run cfg proto k (arrive (concat (take i chunks)) s)
             = Some (Returned false, si) ∧ blocked si.1) →
  (∃ k, run cfg proto k (arrive (concat chunks) s) = Some (o, t)) →
  o ≠ Faulted Undefined →
  feed cfg proto chunks s = (o, t).
Proof.
  revert s. induction chunks as [|c chunks IH]; intros s Hne Hmid [k Hk] Ho;
    [done|].
  cbn [feed]. destruct chunks as [|c' chunks].
  { cbn [concat] in Hk. rewrite app_nil_r in Hk.
    rewrite (drain_of_run _ _ _ _ _ _ _ Hk) by done.
    by destruct o. }
  destruct (Hmid 1) as (k1 & s1 & Hk1 & Hb1); [cbn [length]; lia|].
  cbn [take concat] in Hk1. rewrite app_nil_r in Hk1.
  rewrite (drain_of_run _ _ _ _ _ _ _ Hk1) by done.
  apply IH; [done| |..|done].
  - intros i Hi. destruct (Hmid (S i)) as (ki & si & Hki & Hbi).
    { cbn [length] in *. lia. }
    cbn [take concat] in Hki. rewrite arrive_app in Hki.
    destruct (run_resume _ _ _ _ _ _ _ _ _ Hk1 Hb1 Hki) as [k3 Hk3]; [done|].
    by exists k3, si.
  - cbn [concat] in Hk. rewrite arrive_app in Hk.
    by apply (run_resume _ _ _ _ _ _ _ _ _ Hk1 Hb1 Hk).
Qed.

(** *** One segment of a frame *)

(** The stream holds all the bytes of the current buffer and its padding:
    [readBuffer] stores the first, discards the second and completes the
    state. *)
Lemma readBuffer_segment cfg proto r w a m pd pb seg x rest r1 w1 :
  currentBuffer_ r
  = {| buffer := a; bufferSize := m; paddingSize := pd; publisher := pb |} →
  stream w = seg ++ x ++ rest → length seg = m → length x = pd →
  store a seg (r, with_stream (x ++ rest) w) = Some (r1, w1) →
  readBuffer cfg proto (r, w)
  = stateComplete cfg proto
      (with_currentBuffer
         {| buffer := advance a m; bufferSize := 0; paddingSize := 0;
            publisher := pb |} r1,
       with_stream rest w1).
Proof.
  intros Hcur Hs Hm Hpd Hst. unfold readBuffer. unfold_M.
  rewrite buffer_spec, Hcur, Hs. cbn [buffer bufferSize paddingSize publisher].
  rewrite take_app_length', drop_app_length' by done. rewrite Hst.
  rewrite bool_decide_eq_true_2 by (rewrite !length_app; lia). cbn [negb].
  rewrite padding_spec.
  cbn [currentBuffer_ with_currentBuffer buffer bufferSize paddingSize publisher].
  pose proof Hst as (_ & _ & _ & Hs1 & _)%store_frame.
  cbn [stream with_stream] in Hs1. rewrite Hs1.
  rewrite take_app_length', drop_app_length' by done.
  rewrite bool_decide_eq_true_2 by (rewrite !length_app; lia). cbn [negb].
  rewrite with_currentBuffer_twice, Hm, Hpd, !Nat.sub_diag. done.
Qed.

(** The stream holds less than the current buffer and its padding need:
    [readBuffer] takes what is there and returns false, with no call made
    and the reader waiting for the rest. *)
Lemma readBuffer_short cfg proto r w r1 w1 :
  let cur := currentBuffer_ r in
  length (stream w) < bufferSize cur + paddingSize cur →
  store (buffer cur) (take (bufferSize cur) (stream w))
        (r, with_stream (drop (bufferSize cur) (stream w)) w) = Some (r1, w1) →
  ∃ t, readBuffer cfg proto (r, w) = (Returned false, t) ∧
       (buffer cur ≠ None → blocked t.1) ∧
       published t.2 = published w ∧ stream t.2 = [].
Proof.
  intros cur Hlen Hst. unfold readBuffer. unfold_M.
  rewrite buffer_spec. fold cur. rewrite Hst.
  pose proof Hst as (_ & _ & _ & Hs1 & Hp1)%store_frame.
  cbn [stream with_stream published] in Hs1, Hp1.
  case_bool_decide as Hn; cbn [negb].
  - rewrite padding_spec.
    cbn [currentBuffer_ with_currentBuffer buffer bufferSize paddingSize publisher].
    rewrite Hs1, length_drop.
    rewrite bool_decide_eq_false_2 by lia. cbn [negb].
    eexists. split; [done|]. unfold blocked.
    cbn [fst snd currentBuffer_ with_currentBuffer bufferSize paddingSize buffer
           stream published with_stream].
    rewrite !length_take, !length_drop.
    split_and!; [|done|by rewrite drop_ge by (rewrite length_drop; lia)].
    intros Ha. split; [|lia]. by destruct (buffer cur) as [[? ?]|].
  - eexists. split; [done|]. unfold blocked.
    cbn [fst snd currentBuffer_ with_currentBuffer bufferSize paddingSize buffer
           stream published with_stream].
    rewrite !length_take.
    split_and!; [|done|by rewrite Hs1, drop_ge by lia].
    intros Ha. split; [|lia]. by destruct (buffer cur) as [[? ?]|].
Qed.

(** *** The segments of a frame, one by one *)

(** With nothing on the stream a reader that waits stays as it is. *)
Lemma readBuffer_idle cfg proto r w :
  stream w = [] →
  0 < bufferSize (currentBuffer_ r) ∨ 0 < paddingSize (currentBuffer_ r) →
  readBuffer cfg proto (r, w) = (Returned false, (r, w)).
Proof.
  destruct r as [reg [a m pd pb] st pm hm qm], w as [s hp ev].
  cbn [stream currentBuffer_ bufferSize paddingSize]. intros -> Hwait.
  unfold readBuffer. unfold_M.
  rewrite buffer_spec.
  cbn [stream currentBuffer_ bufferSize paddingSize buffer publisher].
  rewrite take_nil, drop_nil.
  unfold store. rewrite bool_decide_eq_true_2 by done.
  cbn [length with_stream with_currentBuffer]. rewrite advance_0, Nat.sub_0_r.
  case_bool_decide as Hn; cbn [negb]; [|done].
  assert (m = 0) as -> by lia.
  rewrite padding_spec.
  cbn [stream currentBuffer_ bufferSize paddingSize buffer publisher
         with_stream with_currentBuffer].
  rewrite take_nil, drop_nil.
  cbn [length with_stream with_currentBuffer]. rewrite Nat.sub_0_r.
  rewrite bool_decide_eq_false_2 by lia. done.
Qed.

Local Arguments BufferRegister.find : simpl never.
Local Arguments Header.of_bytes : simpl never.
Local Arguments Header.bytes : simpl never.

Lemma store_at_0 bs obj :
  length bs ≤ length obj →
  store_at 0 bs obj = Some (bs ++ drop (length bs) obj).
Proof. intros H. unfold store_at. by rewrite bool_decide_eq_true_2 by lia. Qed.

Lemma store_at_0_all bs obj :
  length bs = length obj → store_at 0 bs obj = Some bs.
Proof.
  intros H. rewrite store_at_0 by lia. by rewrite drop_ge, app_nil_r by lia.
Qed.

Lemma store_prefix bs reg cur st pm hm qm w :
  length bs ≤ length pm →
  store (Some (PrefixMember, 0)) bs (MkReader reg cur st pm hm qm, w)
  = Some (MkReader reg cur st (bs ++ drop (length bs) pm) hm qm, w).
Proof.
  intros H. unfold store. case_bool_decide as Hbs; [by subst|].
  unfold store_object. cbn [fst snd prefix_]. by rewrite store_at_0.
Qed.

Lemma store_header bs reg cur st pm hm qm w :
  length bs ≤ length hm →
  store (Some (HeaderMember, 0)) bs (MkReader reg cur st pm hm qm, w)
  = Some (MkReader reg cur st pm (bs ++ drop (length bs) hm) qm, w).
Proof.
  intros H. unfold store. case_bool_decide as Hbs; [by subst|].
  unfold store_object. cbn [fst snd header_]. by rewrite store_at_0.
Qed.

Lemma store_postfix bs reg cur st pm hm qm w :
  length bs ≤ length qm →
  store (Some (PostfixMember, 0)) bs (MkReader reg cur st pm hm qm, w)
  = Some (MkReader reg cur st pm hm (bs ++ drop (length bs) qm), w).
Proof.
  intros H. unfold store. case_bool_decide as Hbs; [by subst|].
  unfold store_object. cbn [fst snd postfix_]. by rewrite store_at_0.
Qed.

Lemma store_data bs r k s hp ev old :
  hp !! k = Some old → length bs ≤ length old →
  store (Some (DataBuffer k, 0)) bs (r, MkWorld s hp ev)
  = Some (r, MkWorld s (<[k := bs ++ drop (length bs) old]> hp) ev).
Proof.
  intros Hk H. unfold store. case_bool_decide as Hbs.
  { subst. cbn [app length]. rewrite drop_0. by rewrite insert_id. }
  unfold store_object. cbn [fst snd heap]. rewrite Hk. cbn [mbind option_bind].
  by rewrite store_at_0.
Qed.

Section Segments.
Context (cfg : Config) (proto : Protocol).

Lemma prefix_segment reg pm hm qm pv P rest hp ev :
  Prefix_t proto = Some pv → length P = length pv → length pm = length pv →
  readBuffer cfg proto
    (MkReader reg (start_buffer proto) State.Prefix pm hm qm,
     MkWorld (P ++ rest) hp ev)
  = (Returned true,
     (MkReader reg header_buffer State.Header P hm qm, MkWorld rest hp ev)).
Proof.
  intros Hpv HP Hpm. unfold start_buffer. rewrite Hpv.
  erewrite (readBuffer_segment _ _ _ _ _ _ _ _ P [] rest);
    [|done|done|done|done|].
  2:{ unfold with_stream. cbn [app heap published].
      rewrite store_prefix by lia. rewrite drop_ge, app_nil_r by lia. done. }
  rewrite stateComplete_spec, nextState_spec. done.
Qed.

Lemma header_segment reg pm hm qm h rest hp ev :
  length hm = Header.size → Header.valid h →
  buffer (BufferRegister.find h reg) ≠ None →
  readBuffer cfg proto
    (MkReader reg header_buffer State.Header pm hm qm,
     MkWorld (Header.bytes h ++ rest) hp ev)
  = (Returned true,
     (MkReader reg (BufferRegister.find h reg) State.Data pm (Header.bytes h) qm,
      MkWorld rest hp ev)).
Proof.
  intros Hhm Hh Hfind.
  erewrite (readBuffer_segment _ _ _ _ _ _ _ _ (Header.bytes h) [] rest);
    [|done|done|done|done|].
  2:{ unfold with_stream. cbn [app heap published].
      rewrite store_header by (rewrite WireFacts.Header_bytes_length; lia).
      rewrite drop_ge, app_nil_r by (rewrite WireFacts.Header_bytes_length; lia).
      done. }
  rewrite stateComplete_spec, nextState_spec.
  cbn [state_ getStateStatus BufferRegister.validate signals next_of
         with_state with_currentBuffer findStateBuffer header_ dataBufferRegistery_
         currentBuffer_].
  rewrite WireFacts.Header_roundtrip by done.
  by rewrite bool_decide_eq_false_2 by done.
Qed.

Lemma next_of_Postfix : next_of proto State.Postfix = start_state proto.
Proof. done. Qed.

Lemma findStateBuffer_start r :
  findStateBuffer proto (start_state proto) r = start_buffer proto.
Proof.
  unfold start_state, start_buffer, findStateBuffer.
  by destruct (Prefix_t proto).
Qed.

Lemma data_segment reg pm hm qm k n pad p D X rest hp ev old :
  hp !! k = Some old → n ≤ length old → length D = n → length X = pad →
  let hp' := <[k := D ++ drop n old]> hp in
  readBuffer cfg proto
    (MkReader reg {| buffer := Some (DataBuffer k, 0); bufferSize := n;
                     paddingSize := pad; publisher := Some p |}
              State.Data pm hm qm,
     MkWorld (D ++ X ++ rest) hp ev)
  = match Postfix_t proto with
    | Some qv =>
        (Returned true,
         (MkReader reg {| buffer := Some (PostfixMember, 0);
                          bufferSize := length qv; paddingSize := 0;
                          publisher := Some p |}
                   State.Postfix pm hm qm,
          MkWorld rest hp' ev))
    | None =>
        (Returned true,
         (MkReader reg (start_buffer proto) (start_state proto) pm hm qm,
          MkWorld rest hp' (ev ++ [(p, default [] (hp' !! p))])))
    end.
Proof.
  intros Hk Hn HD HX hp'.
  erewrite (readBuffer_segment _ _ _ _ _ _ _ _ D X rest);
    [|done|done|done|done|].
  2:{ unfold with_stream. cbn [heap published].
      rewrite (store_data _ _ _ _ _ _ old) by (done || lia). by rewrite HD. }
  rewrite stateComplete_spec, nextState_spec.
  cbn [state_ getStateStatus signals with_state with_currentBuffer
         currentBuffer_ publisher].
  destruct (Postfix_t proto) as [qv|] eqn:Hq.
  - unfold next_of. rewrite Hq. cbv zeta.
    cbn [findStateBuffer with_state with_currentBuffer currentBuffer_ publisher
           buffer sizeof_or_0 state_ dataBufferRegistery_ prefix_ header_ postfix_].
    rewrite Hq. by rewrite bool_decide_eq_false_2 by done.
  - replace (next_of proto State.Data) with (start_state proto)
      by (unfold next_of; by rewrite Hq).
    cbv zeta. rewrite findStateBuffer_start.
    cbn [with_state with_currentBuffer currentBuffer_ publisher
           state_ dataBufferRegistery_ prefix_ header_ postfix_].
    rewrite bool_decide_eq_false_2; [done|].
    unfold start_buffer. by destruct (Prefix_t proto).
Qed.

Lemma postfix_segment_good reg pm hm qm qv p rest hp ev :
  Postfix_t proto = Some qv → length qm = length qv →
  readBuffer cfg proto
    (MkReader reg {| buffer := Some (PostfixMember, 0);
                     bufferSize := length qv; paddingSize := 0;
                     publisher := Some p |}
              State.Postfix pm hm qm,
     MkWorld (qv ++ rest) hp ev)
  = (Returned true,
     (MkReader reg (start_buffer proto) (start_state proto) pm hm qv,
      MkWorld rest hp (ev ++ [(p, default [] (hp !! p))]))).
Proof.
  intros Hq Hqm.
  erewrite (readBuffer_segment _ _ _ _ _ _ _ _ qv [] rest);
    [|done|done|done|done|].
  2:{ unfold with_stream. cbn [app heap published].
      rewrite store_postfix by lia. rewrite drop_ge, app_nil_r by lia. done. }
  rewrite stateComplete_spec, nextState_spec.
  cbn [state_ getStateStatus signals with_state with_currentBuffer
         currentBuffer_ publisher postfix_].
  rewrite Hq, bool_decide_eq_true_2 by done.
  rewrite next_of_Postfix. cbv zeta. rewrite findStateBuffer_start.
  cbn [with_state with_currentBuffer currentBuffer_ publisher
         state_ dataBufferRegistery_ prefix_ header_ postfix_].
  rewrite bool_decide_eq_false_2; [done|].
  unfold start_buffer. by destruct (Prefix_t proto).
Qed.

Lemma postfix_segment_bad reg pm hm qm qv Q p rest hp ev :
  Postfix_t proto = Some qv → length qm = length qv → length Q = length qv →
  Q ≠ qv →
  ∃ o t, readBuffer cfg proto
           (MkReader reg {| buffer := Some (PostfixMember, 0);
                            bufferSize := length qv; paddingSize := 0;
                            publisher := Some p |}
                     State.Postfix pm hm qm,
            MkWorld (Q ++ rest) hp ev) = (o, t) ∧
         o ≠ Returned true ∧ published t.2 = ev ∧ mismatch_outcome cfg o t.1.
Proof.
  intros Hq Hqm HQ Hbad.
  erewrite (readBuffer_segment _ _ _ _ _ _ _ _ Q [] rest);
    [|done|done|done|done|].
  2:{ unfold with_stream. cbn [app heap published].
      rewrite store_postfix by lia. rewrite drop_ge, app_nil_r by lia. done. }
  rewrite stateComplete_spec.
  cbn [state_ getStateStatus with_state with_currentBuffer
         currentBuffer_ publisher postfix_].
  rewrite Hq, bool_decide_eq_false_2 by done.
  unfold raise, assert, mismatch_outcome.
  destruct (cpp_exceptions cfg), (ndebug cfg); eexists _, _;
    (split; [done|]); cbn; split_and!; done.
Qed.

(** A reader between two frames with nothing on the stream waits. *)
Lemma start_waits reg pm hm qm hp ev :
  Prefix_t proto ≠ Some [] →
  ∃ t, readBuffer cfg proto
         (MkReader reg (start_buffer proto) (start_state proto) pm hm qm,
          MkWorld [] hp ev) = (Returned false, t) ∧
       blocked t.1 ∧ published t.2 = ev.
Proof.
  intros Hwf.
  edestruct (readBuffer_short cfg proto
               (MkReader reg (start_buffer proto) (start_state proto) pm hm qm)
               (MkWorld [] hp ev)) as (t & Ht & Hb & Hp & _).
  - cbn [currentBuffer_ stream]. unfold start_buffer.
    destruct (Prefix_t proto) as [[|b pv]|]; cbn; (done || lia).
  - cbn [stream]. rewrite take_nil. unfold store.
    by rewrite bool_decide_eq_true_2.
  - exists t. split_and!; [done| |done]. apply Hb. cbn [currentBuffer_].
    unfold start_buffer. by destruct (Prefix_t proto).
Qed.

Lemma split_covers (q rest A B : list byte) :
  q ++ rest = A ++ B → length A ≤ length q →
  ∃ q', q = A ++ q' ∧ q' ++ rest = B.
Proof.
  intros Heq Hlen. exists (drop (length A) q). split.
  - rewrite <- (take_drop (length A) q) at 1. f_equal.
    apply (f_equal (take (length A))) in Heq.
    by rewrite take_app_le, take_app_length in Heq by done.
  - apply (f_equal (drop (length A))) in Heq.
    by rewrite drop_app_le, drop_app_length in Heq by done.
Qed.

Lemma split_short (q rest A : list byte) :
  q ++ rest = A → length q < length A → rest ≠ [].
Proof. intros <- Hlen ->. rewrite app_nil_r in Hlen. lia. Qed.

(** From the start of the postfix on. *)
Lemma from_postfix reg pm hm qm qv p hp ev q rest Q :
  Prefix_t proto ≠ Some [] →
  Postfix_t proto = Some qv → length qm = length qv → length Q = length qv →
  q ++ rest = Q →
  ∃ k o t,
    run cfg proto k
      (MkReader reg {| buffer := Some (PostfixMember, 0);
                       bufferSize := length qv; paddingSize := 0;
                       publisher := Some p |}
                State.Postfix pm hm qm,
       MkWorld q hp ev) = Some (o, t) ∧
    frame_result cfg ev (p, default [] (hp !! p)) (bool_decide (Q = qv))
      rest o t.
Proof.
  intros Hwf Hq Hqm HQ Heq.
  destruct (decide (length q < length Q)) as [Hshort|Hfull].
  - pose proof (split_short _ _ _ Heq Hshort) as Hrest.
    edestruct (readBuffer_short cfg proto
      (MkReader reg {| buffer := Some (PostfixMember, 0);
                       bufferSize := length qv; paddingSize := 0;
                       publisher := Some p |} State.Postfix pm hm qm)
      (MkWorld q hp ev)) as (t & Ht & Hb & Hp & _).
    + cbn [currentBuffer_ bufferSize paddingSize stream]. lia.
    + cbn [currentBuffer_ buffer bufferSize stream]. unfold with_stream.
      apply store_postfix. rewrite length_take. lia.
    + exists 1, (Returned false), t. cbn [run]. rewrite Ht. split; [done|].
      unfold frame_result. destruct rest; [done|].
      split_and!; [done|by apply Hb|done].
  - assert (rest = []) as ->.
    { apply (f_equal length) in Heq. rewrite length_app in Heq.
      destruct rest; [done|]. cbn [length] in Heq. lia. }
    rewrite app_nil_r in Heq. subst q. unfold frame_result.
    case_bool_decide as Hgood.
    + subst Q.
      pose proof (postfix_segment_good reg pm hm qm qv p [] hp ev Hq Hqm) as H1.
      rewrite app_nil_r in H1.
      destruct (start_waits reg pm hm qv hp (ev ++ [(p, default [] (hp !! p))]) Hwf)
        as (t & Ht & Hb & Hp).
      exists 2, (Returned false), t. cbn [run]. rewrite H1, Ht.
      split_and!; done.
    + destruct (postfix_segment_bad reg pm hm qm qv Q p [] hp ev Hq Hqm HQ Hgood)
        as (o & t & H1 & Hnt & Hp & Herr).
      rewrite app_nil_r in H1.
      exists 1, o, t. cbn [run]. rewrite H1.
      split; [by destruct o as [[]|]|done].
Qed.

(** From the start of the payload on. *)
Lemma from_data reg pm hm qm k n pad p hp ev old q rest D X Q :
  Prefix_t proto ≠ Some [] →
  hp !! k = Some old → n ≤ length old → length D = n → length X = pad →
  length qm = length (member_init (Postfix_t proto)) →
  length Q = sizeof_or_0 (Postfix_t proto) →
  q ++ rest = D ++ X ++ Q →
  ∃ kk o t,
    run cfg proto kk
      (MkReader reg {| buffer := Some (DataBuffer k, 0); bufferSize := n;
                       paddingSize := pad; publisher := Some p |}
                State.Data pm hm qm,
       MkWorld q hp ev) = Some (o, t) ∧
    frame_result cfg ev (p, default [] (<[k := D ++ drop n old]> hp !! p))
      (bool_decide (Q = default [] (Postfix_t proto))) rest o t.
Proof.
  intros Hwf Hk Hn HD HX Hqm HQ Heq.
  destruct (decide (length q < n + pad)) as [Hshort|Hfull].
  - assert (rest ≠ []) as Hrest.
    { intros ->. rewrite app_nil_r in Heq. subst q.
      rewrite !length_app in Hshort. lia. }
    edestruct (readBuffer_short cfg proto
      (MkReader reg {| buffer := Some (DataBuffer k, 0); bufferSize := n;
                       paddingSize := pad; publisher := Some p |}
                State.Data pm hm qm)
      (MkWorld q hp ev)) as (t & Ht & Hb & Hp & _).
    + cbn [currentBuffer_ bufferSize paddingSize stream]. lia.
    + cbn [currentBuffer_ buffer bufferSize stream]. unfold with_stream.
      cbn [heap published].
      apply (store_data _ _ _ _ _ _ old); [done|]. rewrite length_take. lia.
    + exists 1, (Returned false), t. cbn [run]. rewrite Ht. split; [done|].
      unfold frame_result. destruct rest; [done|].
      split_and!; [done|by apply Hb|done].
  - rewrite app_assoc in Heq.
    destruct (split_covers _ _ _ _ Heq) as (q4 & -> & Heq4).
    { rewrite length_app. lia. }
    rewrite <- app_assoc.
    pose proof (data_segment reg pm hm qm k n pad p D X q4 hp ev old
                  Hk Hn HD HX) as H1. cbv zeta in H1.
    destruct (Postfix_t proto) as [qv|] eqn:Hq.
    + cbn [member_init sizeof_or_0 default] in *.
      destruct (from_postfix reg pm hm qm qv p (<[k:=D ++ drop n old]> hp) ev
                  q4 rest Q Hwf Hq Hqm HQ Heq4) as (kk & o & t & Hrun & Hres).
      exists (S kk), o, t. cbn [run]. by rewrite H1.
    + cbn [sizeof_or_0 default] in *.
      apply nil_length_inv in HQ. subst Q.
      apply app_eq_nil in Heq4 as [-> ->].
      destruct (start_waits reg pm hm qm (<[k:=D ++ drop n old]> hp)
                  (ev ++ [(p, default [] (<[k:=D ++ drop n old]> hp !! p))]) Hwf)
        as (t & Ht & Hb & Hp).
      exists 2, (Returned false), t. cbn [run]. rewrite H1, Ht.
      split; [done|]. unfold frame_result.
      by rewrite bool_decide_eq_true_2 by done.
Qed.

(** From the start of the header on. *)
Lemma from_header reg pm hm qm h k n pad p hp ev old q rest D X Q :
  Prefix_t proto ≠ Some [] →
  length hm = Header.size → Header.valid h →
  BufferRegister.find h reg
  = {| buffer := Some (DataBuffer k, 0); bufferSize := n;
       paddingSize := pad; publisher := Some p |} →
  hp !! k = Some old → n ≤ length old → length D = n → length X = pad →
  length qm = length (member_init (Postfix_t proto)) →
  length Q = sizeof_or_0 (Postfix_t proto) →
  q ++ rest = Header.bytes h ++ D ++ X ++ Q →
  ∃ kk o t,
    run cfg proto kk
      (MkReader reg header_buffer State.Header pm hm qm, MkWorld q hp ev)
    = Some (o, t) ∧
    frame_result cfg ev (p, default [] (<[k := D ++ drop n old]> hp !! p))
      (bool_decide (Q = default [] (Postfix_t proto))) rest o t.
Proof.
  intros Hwf Hhm Hh Hfind Hk Hn HD HX Hqm HQ Heq.
  destruct (decide (length q < Header.size)) as [Hshort|Hfull].
  - assert (rest ≠ []) as Hrest.
    { intros ->. rewrite app_nil_r in Heq. subst q.
      rewrite length_app, WireFacts.Header_bytes_length in Hshort. lia. }
    edestruct (readBuffer_short cfg proto
      (MkReader reg header_buffer State.Header pm hm qm)
      (MkWorld q hp ev)) as (t & Ht & Hb & Hp & _).
    + cbn [currentBuffer_ header_buffer bufferSize paddingSize stream]. lia.
    + cbn [currentBuffer_ header_buffer buffer bufferSize stream].
      unfold with_stream. apply store_header. rewrite length_take. lia.
    + exists 1, (Returned false), t. cbn [run]. rewrite Ht. split; [done|].
      unfold frame_result. destruct rest; [done|].
      split_and!; [done|by apply Hb|done].
  - destruct (split_covers _ _ _ _ Heq) as (q3 & -> & Heq3).
    { rewrite WireFacts.Header_bytes_length. lia. }
    pose proof (header_segment reg pm hm qm h q3 hp ev Hhm Hh) as H1.
    rewrite Hfind in H1. specialize (H1 ltac:(done)).
    destruct (from_data reg pm (Header.bytes h) qm k n pad p hp ev old q3 rest
                D X Q Hwf Hk Hn HD HX Hqm HQ Heq3) as (kk & o & t & Hrun & Hres).
    exists (S kk), o, t. cbn [run]. by rewrite H1.
Qed.

(** The first [readBuffer] of a fresh reader: the empty initial buffer is
    complete at once, and the reader is in [Header] with the stream
    untouched. *)
Lemma readBuffer_initial reg pm hm qm w :
  readBuffer cfg proto (MkReader reg Buffer_null State.Prefix pm hm qm, w)
  = (Returned true, (MkReader reg header_buffer State.Header pm hm qm, w)).
Proof. by destruct w. Qed.

(** From a frame boundary on: what a run over the first bytes [q] of a
    frame comes to. *)
Lemma from_start r w h k n pad p old P D X Q q rest :
  Prefix_t proto ≠ Some [] →
  synced proto r → members_sized proto r → stream w = [] →
  Header.valid h →
  BufferRegister.find h (dataBufferRegistery_ r)
  = {| buffer := Some (DataBuffer k, 0); bufferSize := n;
       paddingSize := pad; publisher := Some p |} →
  heap w !! k = Some old → n ≤ length old →
  length P = sizeof_or_0 (Prefix_t proto) → length D = n → length X = pad →
  length Q = sizeof_or_0 (Postfix_t proto) →
  q ++ rest = P ++ Header.bytes h ++ D ++ X ++ Q →
  ∃ kk o t,
    run cfg proto kk (arrive q (r, w)) = Some (o, t) ∧
    frame_result cfg (published w)
      (p, default [] (<[k := D ++ drop n old]> (heap w) !! p))
      (bool_decide (Q = default [] (Postfix_t proto))) rest o t.
Proof.
  intros Hwf Hsync (Hpm & Hhm & Hqm) Hs Hh Hfind Hk Hn HP HD HX HQ Heq.
  destruct r as [reg cur st pm hm qm], w as [s hp ev].
  cbn [stream heap published dataBufferRegistery_ prefix_ header_ postfix_] in *.
  subst s. rewrite arrive_pair. unfold with_stream.
  cbn [stream app heap published].
  destruct Hsync as [[Hst Hcur]|(Hvoid & Hst & Hcur)];
    cbn [state_ currentBuffer_] in Hst, Hcur; subst st cur.
  - destruct (Prefix_t proto) as [pv|] eqn:Hpv.
    + cbn [sizeof_or_0 member_init] in *.
      destruct (decide (length q < length pv)) as [Hshort|Hfull].
      * assert (rest ≠ []) as Hrest.
        { intros ->. rewrite app_nil_r in Heq. subst q.
          rewrite length_app in Hshort. lia. }
        edestruct (readBuffer_short cfg proto
          (MkReader reg (start_buffer proto) (start_state proto) pm hm qm)
          (MkWorld q hp ev)) as (t & Ht & Hb & Hp & _).
        -- cbn [currentBuffer_ stream]. unfold start_buffer. rewrite Hpv.
           cbn [bufferSize paddingSize]. lia.
        -- cbn [currentBuffer_ stream]. unfold start_buffer. rewrite Hpv.
           cbn [buffer bufferSize]. unfold with_stream.
           apply store_prefix. rewrite length_take. lia.
        -- exists 1, (Returned false), t. cbn [run]. rewrite Ht. split; [done|].
           unfold frame_result. destruct rest; [done|].
           split_and!; [done| |done]. apply Hb. cbn [currentBuffer_].
           unfold start_buffer. by rewrite Hpv.
      * destruct (split_covers _ _ _ _ Heq) as (q2 & -> & Heq2); [lia|].
        pose proof (prefix_segment reg pm hm qm pv P q2 hp ev Hpv HP Hpm) as H1.
        replace (start_state proto) with State.Prefix
          by (unfold start_state; by rewrite Hpv).
        destruct (from_header reg P hm qm h k n pad p hp ev old q2 rest D X Q)
          as (kk & o & t & Hrun & Hres); try done.
        { by rewrite Hpv. }
        exists (S kk), o, t. cbn [run]. by rewrite H1.
    + cbn [sizeof_or_0] in HP. apply nil_length_inv in HP. subst P.
      cbn [app] in Heq. unfold start_state, start_buffer. rewrite Hpv.
      apply (from_header reg pm hm qm h k n pad p hp ev old q rest D X Q);
        try done. by rewrite Hpv.
  - rewrite Hvoid in HP. cbn [sizeof_or_0] in HP.
    apply nil_length_inv in HP. subst P. cbn [app] in Heq.
    destruct (from_header reg pm hm qm h k n pad p hp ev old q rest D X Q)
      as (kk & o & t & Hrun & Hres); try done.
    exists (S kk), o, t. cbn [run]. by rewrite readBuffer_initial.
Qed.

End Segments.

Lemma frame_result_defined cfg calls call good rest o s :
  frame_result cfg calls call good rest o s → o ≠ Faulted Undefined.
Proof.
  unfold frame_result, mismatch_outcome. intros H ->.
  destruct rest, good; try by destruct H.
  destruct H as (_ & H & _).
  by destruct (cpp_exceptions cfg), (ndebug cfg).
Qed.

Lemma frame_result_waits cfg calls call good rest o s :
  rest ≠ [] → frame_result cfg calls call good rest o s →
  o = Returned false ∧ blocked s.1.
Proof. unfold frame_result. destruct rest; [done|]. by intros _ (? & ? & _). Qed.

Lemma concat_nonempty (chunks : list (list byte)) :
  chunks ≠ [] → Forall (λ c, c ≠ []) chunks → concat chunks ≠ [].
Proof.
  destruct chunks as [|c chunks]; [done|]. intros _ H.
  apply Forall_cons in H as [Hc _]. cbn [concat]. by destruct c.
Qed.

Lemma start_buffer_waits proto :
  Prefix_t proto ≠ Some [] → 0 < bufferSize (start_buffer proto).
Proof.
  unfold start_buffer. destruct (Prefix_t proto) as [[|b pv]|]; [done|..];
    cbn [bufferSize header_buffer length]; unfold Header.size; lia.
Qed.



Lemma after_frame_between proto r h P Q :
  between_frames proto (after_frame proto r h P Q).
Proof. done. Qed.

Lemma after_frame_sized proto r h P Q :
  members_sized proto r →
  length P = sizeof_or_0 (Prefix_t proto) →
  length Q = sizeof_or_0 (Postfix_t proto) →
  members_sized proto (after_frame proto r h P Q).
Proof.
  intros (Hpm & Hhm & Hqm) HP HQ. unfold members_sized, after_frame.
  cbn [prefix_ header_ postfix_].
  rewrite WireFacts.Header_bytes_length.
  by destruct (Prefix_t proto), (Postfix_t proto).
Qed.

(** While bytes of the frame are missing, the polls after each chunk end
    with the reader waiting. *)
Lemma frame_chunks_wait cfg proto r w h k n pad p old P D X Q chunks rest :
  Prefix_t proto ≠ Some [] →
  synced proto r → members_sized proto r → stream w = [] →
  Header.valid h →
  BufferRegister.find h (dataBufferRegistery_ r)
  = {| buffer := Some (DataBuffer k, 0); bufferSize := n;
       paddingSize := pad; publisher := Some p |} →
  heap w !! k = Some old → n ≤ length old →
  length P = sizeof_or_0 (Prefix_t proto) → length D = n → length X = pad →
  length Q = sizeof_or_0 (Postfix_t proto) →
  Forall (λ c, c ≠ []) chunks →
  concat chunks ++ rest = P ++ Header.bytes h ++ D ++ X ++ Q →
  ∀ i, 0 < i < length chunks →
    ∃ kk si, run cfg proto kk (arrive (concat (take i chunks)) (r, w))
             = Some (Returned false, si) ∧ blocked si.1.
Proof.
  intros Hwf Hsync Hsized Hs Hh Hfind Hk Hn HP HD HX HQ Hall Heq i Hi.
  destruct (from_start cfg proto r w h k n pad p old P D X Q
              (concat (take i chunks)) (concat (drop i chunks) ++ rest))
    as (ki & oi & ti & Hruni & Hresi); try done.
  { by rewrite app_assoc, <- concat_app, take_drop. }
  apply frame_result_waits in Hresi as [-> Hb].
  - by exists ki, ti.
  - intros Hnil. apply app_eq_nil in Hnil as [Hnil _]. revert Hnil.
    apply concat_nonempty.
    + intros Hd. apply (f_equal length) in Hd.
      rewrite length_drop in Hd. cbn [length] in Hd. lia.
    + by apply Forall_drop.
Qed.

(** A reader at a frame boundary is fed the first bytes of a frame in
    chunks: the outcome is that of one run over these bytes. *)
Lemma feed_frame cfg proto r w h k n pad p old P D X Q chunks rest :
  Prefix_t proto ≠ Some [] →
  synced proto r → members_sized proto r → stream w = [] →
  Header.valid h →
  BufferRegister.find h (dataBufferRegistery_ r)
  = {| buffer := Some (DataBuffer k, 0); bufferSize := n;
       paddingSize := pad; publisher := Some p |} →
  heap w !! k = Some old → n ≤ length old →
  length P = sizeof_or_0 (Prefix_t proto) → length D = n → length X = pad →
  length Q = sizeof_or_0 (Postfix_t proto) →
  chunks ≠ [] → Forall (λ c, c ≠ []) chunks →
  concat chunks ++ rest = P ++ Header.bytes h ++ D ++ X ++ Q →
  ∃ o t,
    feed cfg proto chunks (r, w) = (o, t) ∧
    frame_result cfg (published w)
      (p, default [] (<[k := D ++ drop n old]> (heap w) !! p))
      (bool_decide (Q = default [] (Postfix_t proto))) rest o t.
Proof.
  intros Hwf Hsync Hsized Hs Hh Hfind Hk Hn HP HD HX HQ Hne Hall Heq.
  destruct (from_start cfg proto r w h k n pad p old P D X Q
              (concat chunks) rest) as (kk & o & t & Hrun & Hres); try done.
  exists o, t. split; [|done].
  apply feed_chunks; [done| |by exists kk|by eapply frame_result_defined].
  by eapply frame_chunks_wait.
Qed.



(** *** Single polls *)

Lemma read_loop_header cfg proto n s s' :
  readBuffer cfg proto s = (Returned true, s') → state_ s'.1 = State.Header →
  read_loop cfg proto (S n) s = (Returned (Some true), s').
Proof.
  intros H Hst. cbn [read_loop]. unfold_M. rewrite H.
  by rewrite bool_decide_eq_true_2.
Qed.

Lemma read_loop_more cfg proto n s s' :
  readBuffer cfg proto s = (Returned true, s') → state_ s'.1 ≠ State.Header →
  read_loop cfg proto (S n) s = read_loop cfg proto n s'.
Proof.
  intros H Hst. cbn [read_loop]. unfold_M. rewrite H.
  by rewrite bool_decide_eq_false_2.
Qed.

Lemma read_loop_false cfg proto n s s' :
  readBuffer cfg proto s = (Returned false, s') →
  read_loop cfg proto (S n) s = (Returned (Some false), s').
Proof. intros H. cbn [read_loop]. unfold_M. by rewrite H. Qed.

Lemma read_loop_fault cfg proto n s f s' :
  readBuffer cfg proto s = (Faulted f, s') →
  read_loop cfg proto (S n) s = (Faulted f, s').
Proof. intros H. cbn [read_loop]. unfold_M. by rewrite H. Qed.

Lemma read_of_loop cfg proto s b s' :
  read_loop cfg proto 4 s = (Returned (Some b), s') →
  read cfg proto s = (Returned b, s').
Proof. intros H. unfold read. unfold_M. by rewrite H. Qed.

(** The first poll of a reader as constructed, or as [close] leaves it. *)
Lemma read_initial cfg proto reg pm hm qm w :
  read cfg proto (MkReader reg Buffer_null State.Prefix pm hm qm, w)
  = (Returned true, (MkReader reg header_buffer State.Header pm hm qm, w)).
Proof.
  apply read_of_loop, read_loop_header; [apply readBuffer_initial|done].
Qed.

(** [stateComplete] writes to no member. *)
Lemma stateComplete_members cfg proto s o t :
  stateComplete cfg proto s = (o, t) →
  prefix_ t.1 = prefix_ s.1 ∧ header_ t.1 = header_ s.1 ∧
  postfix_ t.1 = postfix_ s.1 ∧ stream t.2 = stream s.2.
Proof.
  destruct s as [r w]. rewrite stateComplete_spec, nextState_spec.
  destruct (getStateStatus proto (state_ r) r).
  - destruct (signals proto (state_ r)); [destruct (publisher (currentBuffer_ r))|];
      [|destruct (ndebug cfg)|..]; cbv zeta;
      repeat case_bool_decide; try destruct (raise cfg _);
      intros [= <- <-]; by destruct r, w.
  - destruct (raise cfg _); intros [= <- <-]; by destruct r, w.
Qed.

(** *** A header that is not registered *)

(** Eight bytes that are not the header of a registered buffer: the reader
    is left in [Data] with the null buffer of [find], and the failure block
    is run. *)
Lemma header_unknown cfg proto reg pm hm qm b rest hp ev :
  length hm = Header.size → length b = Header.size →
  buffer (BufferRegister.find (Header.of_bytes b) reg) = None →
  readBuffer cfg proto
    (MkReader reg header_buffer State.Header pm hm qm, MkWorld (b ++ rest) hp ev)
  = let t := (MkReader reg (BufferRegister.find (Header.of_bytes b) reg)
                       State.Data pm b qm, MkWorld rest hp ev) in
    match raise cfg msg_null_data with
    | Returned _ => (Returned false, t)
    | Faulted f => (Faulted f, t)
    end.
Proof.
  intros Hhm Hb Hfind.
  erewrite (readBuffer_segment _ _ _ _ _ _ _ _ b [] rest);
    [|done|done|done|done|].
  2:{ unfold with_stream. cbn [app heap published].
      rewrite store_header by lia.
      rewrite drop_ge, app_nil_r by lia. done. }
  rewrite stateComplete_spec, nextState_spec.
  cbn [state_ getStateStatus BufferRegister.validate signals next_of
         with_state with_currentBuffer findStateBuffer header_ dataBufferRegistery_
         currentBuffer_].
  cbv zeta.
  cbn [state_ getStateStatus BufferRegister.validate signals next_of
         with_state with_currentBuffer findStateBuffer header_ dataBufferRegistery_
         currentBuffer_ prefix_ postfix_].
  by rewrite !bool_decide_eq_true_2 by done.
Qed.

Lemma raise_defined cfg msg : raise cfg msg ≠ Faulted Undefined.
Proof. unfold raise, assert. by destruct (cpp_exceptions cfg), (ndebug cfg). Qed.

(** A run of a fresh reader over bytes [q] the first eight of which, once
    there, are not a registered header. *)
Lemma from_fresh_short cfg proto reg pm hm qm q hp ev :
  length hm = Header.size → length q < Header.size →
  ∃ t, run cfg proto 2
         (MkReader reg Buffer_null State.Prefix pm hm qm, MkWorld q hp ev)
       = Some (Returned false, t) ∧ blocked t.1 ∧ published t.2 = ev.
Proof.
  intros Hhm Hq. cbn [run]. rewrite readBuffer_initial.
  edestruct (readBuffer_short cfg proto
    (MkReader reg header_buffer State.Header pm hm qm)
    (MkWorld q hp ev)) as (t & Ht & Hb & Hp & _).
  - cbn [currentBuffer_ header_buffer bufferSize paddingSize stream]. lia.
  - cbn [currentBuffer_ header_buffer buffer bufferSize stream].
    unfold with_stream. apply store_header. rewrite length_take. lia.
  - exists t. rewrite Ht. split_and!; [done| |done]. by apply Hb.
Qed.

Lemma from_fresh_unknown cfg proto reg pm hm qm q hp ev f :
  length hm = Header.size → Header.size ≤ length q →
  buffer (BufferRegister.find (Header.of_bytes (take Header.size q)) reg) = None →
  raise cfg msg_null_data = Faulted f →
  ∃ t, run cfg proto 2
         (MkReader reg Buffer_null State.Prefix pm hm qm, MkWorld q hp ev)
       = Some (Faulted f, t) ∧ published t.2 = ev ∧
       state_ t.1 = State.Data ∧ header_ t.1 = take Header.size q.
Proof.
  intros Hhm Hq Hfind Hraise. cbn [run]. rewrite readBuffer_initial.
  replace (MkWorld q hp ev)
    with (MkWorld (take Header.size q ++ drop Header.size q) hp ev)
    by (by rewrite take_drop).
  rewrite header_unknown; [|done|rewrite length_take; lia|done].
  cbv zeta. rewrite Hraise. by eexists.
Qed.

(** Feeding stops at a fault. *)
Lemma feed_app_fault cfg proto c1 c2 s f t :
  feed cfg proto c1 s = (Faulted f, t) →
  feed cfg proto (c1 ++ c2) s = (Faulted f, t).
Proof.
  revert s. induction c1 as [|c c1 IH]; intros s; [done|].
  cbn [feed app].
  destruct (drain cfg proto _ _) as [[b|f'] s2]; [|done].
  destruct c1 as [|c' c1]; [done|]. cbn [app]. apply IH.
Qed.

Lemma concat_take_length (chunks : list (list byte)) i :
  length (concat (take i chunks)) ≤ length (concat chunks).
Proof.
  rewrite <- (take_drop i chunks) at 2. rewrite concat_app, length_app. lia.
Qed.

(** A fresh reader is fed, in chunks, bytes the first eight of which are
    not a registered header. *)
Lemma feed_fresh_unknown cfg proto reg pm hm qm hp ev f chunks :
  length hm = Header.size →
  raise cfg msg_null_data = Faulted f →
  Forall (λ c, c ≠ []) chunks →
  Header.size ≤ length (concat chunks) →
  buffer (BufferRegister.find
            (Header.of_bytes (take Header.size (concat chunks))) reg) = None →
  ∃ t, feed cfg proto chunks
         (MkReader reg Buffer_null State.Prefix pm hm qm, MkWorld [] hp ev)
       = (Faulted f, t) ∧ published t.2 = ev ∧
       state_ t.1 = State.Data ∧
       header_ t.1 = take Header.size (concat chunks).
Proof.
  intros Hhm Hraise. induction chunks as [|c chunks IH] using rev_ind.
  { cbn [concat length]. unfold Header.size. lia. }
  intros Hall Hlen Hfind. apply Forall_app in Hall as [Hall Hc].
  rewrite concat_app in Hlen, Hfind |- *. cbn [concat] in Hlen, Hfind |- *.
  rewrite app_nil_r in Hlen, Hfind |- *.
  destruct (decide (Header.size ≤ length (concat chunks))) as [Hfull|Hshort].
  - rewrite take_app_le in Hfind |- * by done.
    destruct (IH Hall Hfull Hfind) as (t & Hfeed & Ht).
    exists t. split; [|done]. by apply feed_app_fault.
  - destruct (from_fresh_unknown cfg proto reg pm hm qm (concat chunks ++ c)
                hp ev f Hhm Hlen Hfind Hraise) as (t & Hrun & Ht).
    exists t. split; [|done].
    apply feed_chunks; [by intros [_ [=]]%app_eq_nil| | |].
    3:{ intros [= ->]. by apply raise_defined in Hraise. }
    + intros i Hi. rewrite length_app in Hi. cbn [length] in Hi.
      rewrite take_app_le by lia. rewrite arrive_pair. unfold with_stream.
      cbn [stream app heap published].
      destruct (from_fresh_short cfg proto reg pm hm qm
                  (concat (take i chunks)) hp ev Hhm) as (ti & Hti & Hb & _).
      { pose proof (concat_take_length chunks i). lia. }
      by exists 2, ti.
    + exists 2. rewrite concat_app. cbn [concat]. rewrite app_nil_r.
      by rewrite arrive_pair.
Qed.

Lemma frame_length proto v :
  Header.size ≤ length (BinaryWriter.frame proto v).
Proof.
  unfold BinaryWriter.frame.
  rewrite !length_app, WireFacts.Header_bytes_length. lia.
Qed.

(** The round trip for a protocol without prefix: whatever the chunks, a
    fresh reader makes the one completion call, with the bytes of the
    message in the landing buffer. *)
Lemma roundtrip_void_prefix cfg proto reg pm hm qm hp ev v k old chunks :
  Prefix_t proto = None →
  members_sized proto (MkReader reg Buffer_null State.Prefix pm hm qm) →
  Header.valid (Header_of v) →
  BufferRegister.find (Header_of v) reg
  = {| buffer := Some (DataBuffer k, 0); bufferSize := length (object_bytes v);
       paddingSize := 0; publisher := Some k |} →
  hp !! k = Some old → length old = length (object_bytes v) →
  chunks ≠ [] → Forall (λ c, c ≠ []) chunks →
  concat chunks = BinaryWriter.frame proto v →
  ∃ t, feed cfg proto chunks
         (MkReader reg Buffer_null State.Prefix pm hm qm, MkWorld [] hp ev)
       = (Returned false, t) ∧
       published t.2 = ev ++ [(k, object_bytes v)].
Proof.
  intros Hpv Hsized Hh Hfind Hk Hold Hne Hall Hcat.
  destruct (feed_frame cfg proto (MkReader reg Buffer_null State.Prefix pm hm qm)
              (MkWorld [] hp ev) (Header_of v) k (length (object_bytes v)) 0 k
              old [] (object_bytes v) [] (default [] (Postfix_t proto))
              chunks [])
    as (o & t & Hfeed & Hres); try done.
  - by rewrite Hpv.
  - by right.
  - lia.
  - by rewrite Hpv.
  - by destruct (Postfix_t proto).
  - rewrite app_nil_r, Hcat. unfold BinaryWriter.frame. by rewrite Hpv.
  - unfold frame_result in Hres. rewrite bool_decide_eq_true_2 in Hres by done.
    destruct Hres as [-> Hp]. exists t. split; [done|]. rewrite Hp.
    cbn [heap]. rewrite lookup_insert_eq. cbn [default].
    by rewrite drop_ge, app_nil_r by lia.
Qed.

(** C1: the round trip fails where the first eight bytes of the frame are
    not a registered header, as with a prefix in front of the header.  A
    freshly constructed reader is in [Prefix] with an empty buffer, so it
    takes the first eight bytes of the frame for the header: whatever the
    chunks, the feeding ends in the failure of the null data buffer once
    the eighth byte is in, and no completion call is made. *)
Theorem fresh_reader_loses_first_frame cfg proto reg pm hm qm hp ev v chunks :
  cpp_exceptions cfg = true ∨ ndebug cfg = false →
  length hm = Header.size →
  Forall (λ c, c ≠ []) chunks →
  concat chunks = BinaryWriter.frame proto v →
  buffer (BufferRegister.find
            (Header.of_bytes (take Header.size (BinaryWriter.frame proto v)))
            reg) = None →
  ∃ t, feed cfg proto chunks
         (MkReader reg Buffer_null State.Prefix pm hm qm, MkWorld [] hp ev)
       = (Faulted (if cpp_exceptions cfg then Thrown msg_null_data
                   else Aborted), t) ∧
       published t.2 = ev ∧ state_ t.1 = State.Data ∧
       header_ t.1 = take Header.size (BinaryWriter.frame proto v).
Proof.
  intros Hcfg Hhm Hall Hcat Hfind. rewrite <- Hcat in Hfind |- *.
  apply feed_fresh_unknown; [done| |done| |done].
  - unfold raise, assert.
    destruct Hcfg as [-> | ->]; [done|]. by destruct (cpp_exceptions cfg).
  - rewrite Hcat. apply frame_length.
Qed.

Lemma next_of_not_lost proto st : next_of proto st ≠ State.SyncLost.
Proof.
  unfold next_of. by destruct st, (Postfix_t proto), (Prefix_t proto).
Qed.

(** How a reader gets into [SyncLost]: by a postfix that does not match,
    in a build without exceptions and without assertions; the poll returns
    false and the buffer of the postfix is used up. *)
Lemma sync_lost_entered cfg proto s o t :
  readBuffer cfg proto s = (o, t) →
  state_ s.1 ≠ State.SyncLost → state_ t.1 = State.SyncLost →
  o = Returned false ∧ state_ s.1 = State.Postfix ∧
  cpp_exceptions cfg = false ∧ ndebug cfg = true ∧
  bufferSize (currentBuffer_ t.1) = 0 ∧ paddingSize (currentBuffer_ t.1) = 0.
Proof.
  unfold readBuffer. unfold_M. destruct s as [r w], t as [r' w'].
  cbn [fst snd]. intros H Hs Ht.
  destruct (readBuffer_buffer (r, w)) as [[b1|f] [r1 w1]] eqn:H1.
  2:{ rewrite buffer_spec in H1. destruct (store _ _ _) as [[? ?]|]; [done|].
      simplify_eq. }
  pose proof (buffer_inv _ _ _ _ _ H1) as (Hst1 & _ & _).
  destruct b1; cbn [negb] in H; [|simplify_eq; congruence].
  apply buffer_true_size in H1 as [Hn1 _]. cbn [fst] in Hn1.
  destruct (readBuffer_padding (r1, w1)) as [[b2|f] [r2 w2]] eqn:H2.
  2:{ by rewrite padding_spec in H2. }
  pose proof (padding_inv _ _ _ _ _ H2) as (Hst2 & _).
  destruct b2; cbn [negb] in H; [|simplify_eq; congruence].
  apply padding_true_size in H2 as [Hn2 Hp2]. cbn [fst] in Hn2, Hp2.
  rewrite stateComplete_spec, nextState_spec in H.
  destruct (getStateStatus proto (state_ r2) r2) eqn:Hstatus.
  - exfalso.
    destruct (signals proto (state_ r2)), (publisher (currentBuffer_ r2)) as [k|],
      (ndebug cfg); cbv zeta in H; try (simplify_eq; congruence);
      (case_bool_decide as Hnull; [destruct (raise cfg _)|]);
      simplify_eq; cbn [state_ with_currentBuffer with_state] in Ht;
      by apply next_of_not_lost in Ht.
  - assert (state_ r2 = State.Postfix) as Hpost.
    { unfold getStateStatus, BufferRegister.validate in Hstatus.
      by destruct (state_ r2). }
    unfold raise, assert in H.
    destruct (cpp_exceptions cfg), (ndebug cfg); simplify_eq;
      try congruence.
    cbn [currentBuffer_ with_state]. split_and!; (done || congruence).
Qed.

(** C4: a reader in [SyncLost], its buffer used up as the failed check
    leaves it, does not stay there: the next poll reports nothing, returns
    true and has the reader in [Header], waiting for the header of a
    frame. *)
Theorem sync_lost_resumes cfg proto r w :
  state_ r = State.SyncLost →
  bufferSize (currentBuffer_ r) = 0 → paddingSize (currentBuffer_ r) = 0 →
  read cfg proto (r, w)
  = (Returned true, (with_currentBuffer header_buffer (with_state State.Header r), w)).
Proof.
  destruct r as [reg [a m pd pb] st pm hm qm].
  cbn [state_ currentBuffer_ bufferSize paddingSize]. intros -> -> ->.
  apply read_of_loop, read_loop_header; [|done]. by destruct w.
Qed.

(** C10: the first poll of a freshly constructed reader returns true and
    takes nothing from the stream: the empty buffer of the initial
    [Prefix] state is complete at once, and the reader is in [Header].
    So the prefix of the first frame is never read as such: the next
    eight bytes of the stream, whatever they are, are taken for the
    header, and the prefix member stays as constructed. *)
Theorem first_poll_skips_prefix cfg proto reg w :
  let fresh := with_registry reg (init proto) in
  ∃ r1,
    read cfg proto (fresh, w) = (Returned true, (r1, w)) ∧
    state_ r1 = State.Header ∧ currentBuffer_ r1 = header_buffer ∧
    prefix_ r1 = member_init (Prefix_t proto) ∧
    ∀ b rest hp ev, length b = Header.size →
      ∃ o t, readBuffer cfg proto (r1, MkWorld (b ++ rest) hp ev) = (o, t) ∧
             header_ t.1 = b ∧ prefix_ t.1 = member_init (Prefix_t proto) ∧
             stream t.2 = rest.
Proof.
  cbv zeta. unfold init, with_registry.
  cbn [dataBufferRegistery_ currentBuffer_ state_ prefix_ header_ postfix_].
  eexists. split; [apply read_initial|]. split_and!; [done..|].
  intros b rest hp ev Hb.
  erewrite (readBuffer_segment _ _ _ _ _ _ _ _ b [] rest);
    [|done|done|done|done|].
  2:{ unfold with_stream. cbn [app heap published].
      rewrite store_header by (rewrite length_replicate; lia).
      rewrite drop_ge, app_nil_r by (rewrite length_replicate; lia). done. }
  destruct (stateComplete cfg proto _) as [o t] eqn:Hsc.
  apply stateComplete_members in Hsc as (Hp & Hh & _ & Hs). by exists o, t.
Qed.

(** C5: what a poll returns is not whether a frame was consumed.  The first
    poll of a fresh reader returns true with nothing read.  And with a
    prefix type, a reader between two frames that finds a whole valid frame
    on the stream returns true from the poll that has read the prefix only,
    with the rest of the frame still on the stream and no call made; the
    next poll reads the rest of the frame, makes the completion call, and
    returns false. *)
Theorem poll_true_at_header cfg proto reg pm hm qm hp ev pv h k n pad p old
    P D X :
  Prefix_t proto = Some pv → pv ≠ [] →
  length P = length pv → length pm = length pv → length hm = Header.size →
  length qm = length (member_init (Postfix_t proto)) →
  Header.valid h →
  BufferRegister.find h reg
  = {| buffer := Some (DataBuffer k, 0); bufferSize := n;
       paddingSize := pad; publisher := Some p |} →
  hp !! k = Some old → n ≤ length old → length D = n → length X = pad →
  let tail := Header.bytes h ++ D ++ X ++ default [] (Postfix_t proto) in
  let r1 := MkReader reg header_buffer State.Header P hm qm in
  (∀ w, read cfg proto (MkReader reg Buffer_null State.Prefix pm hm qm, w)
        = (Returned true,
           (MkReader reg header_buffer State.Header pm hm qm, w))) ∧
  read cfg proto
    (MkReader reg (start_buffer proto) State.Prefix pm hm qm,
     MkWorld (P ++ tail) hp ev)
  = (Returned true, (r1, MkWorld tail hp ev)) ∧
  ∃ t, read cfg proto (r1, MkWorld tail hp ev) = (Returned false, t) ∧
       published t.2
       = ev ++ [(p, default [] (<[k := D ++ drop n old]> hp !! p))].
Proof.
  intros Hpv Hne HP Hpm Hhm Hqm Hh Hfind Hk Hn HD HX tail r1.
  split; [intros w; apply read_initial|]. split.
  { apply read_of_loop, read_loop_header; [|done].
    by apply prefix_segment with (pv := pv). }
  assert (Prefix_t proto ≠ Some []) as Hwf by congruence.
  assert (start_state proto = State.Prefix) as Hstart
    by (unfold start_state; by rewrite Hpv).
  subst tail r1.
  pose proof (header_segment cfg proto reg P hm qm h
                (D ++ X ++ default [] (Postfix_t proto)) hp ev Hhm Hh) as H1.
  rewrite Hfind in H1. specialize (H1 ltac:(done)).
  pose proof (data_segment cfg proto reg P (Header.bytes h) qm k n pad p D X
                (default [] (Postfix_t proto)) hp ev old Hk Hn HD HX) as H2.
  cbv zeta in H2.
  destruct (Postfix_t proto) as [qv|] eqn:Hq; cbn [default] in *.
  - pose proof (postfix_segment_good cfg proto reg P (Header.bytes h) qm qv p []
                  (<[k := D ++ drop n old]> hp) ev Hq Hqm) as H3.
    rewrite app_nil_r in H3.
    destruct (start_waits cfg proto reg P (Header.bytes h) qv
                (<[k := D ++ drop n old]> hp)
                (ev ++ [(p, default [] (<[k := D ++ drop n old]> hp !! p))]) Hwf)
      as (t & H4 & _ & Hpub).
    exists t. split; [|done]. apply read_of_loop.
    rewrite (read_loop_more _ _ _ _ _ H1) by done.
    rewrite (read_loop_more _ _ _ _ _ H2) by done.
    rewrite (read_loop_more _ _ _ _ _ H3) by (cbn [fst state_]; by rewrite Hstart).
    by apply read_loop_false.
  - destruct (start_waits cfg proto reg P (Header.bytes h) qm
                (<[k := D ++ drop n old]> hp)
                (ev ++ [(p, default [] (<[k := D ++ drop n old]> hp !! p))]) Hwf)
      as (t & H4 & _ & Hpub).
    exists t. split; [|done]. apply read_of_loop.
    rewrite (read_loop_more _ _ _ _ _ H1) by done.
    rewrite (read_loop_more _ _ _ _ _ H2) by (cbn [fst state_]; by rewrite Hstart).
    by apply read_loop_false.
Qed.

(** *** The scenario of the specification *)


Lemma fresh_reader_loses_first_frame_witness :
  Examples.wire_pi Examples.sub0 = BinaryWriter.frame Examples.sub0 Examples.pi ∧
  buffer (BufferRegister.find (Header_of Examples.pi) Examples.registry_pi)
  = Some (DataBuffer 7, 0) ∧
  ∃ t, feed Examples.cfg_debug Examples.sub0
         (Examples.bytewise (Examples.wire_pi Examples.sub0))
         (Examples.fresh_reader Examples.sub0)
       = (Faulted (Thrown msg_null_data), t) ∧
       published t.2 = [] ∧
       header_ t.1 = ["S"; "U"; "B"; "0"; "d"; x00; x00; x00]%byte.
Proof.
  split; [reflexivity|]. split; [reflexivity|].
  destruct (fresh_reader_loses_first_frame Examples.cfg_debug Examples.sub0
              Examples.registry_pi (member_init (Prefix_t Examples.sub0))
              (replicate Header.size x00)
              (member_init (Postfix_t Examples.sub0))
              {[7 := replicate 4 x00]} [] Examples.pi
              (Examples.bytewise (Examples.wire_pi Examples.sub0)))
    as (t & Hfeed & Hp & _ & Hh).
  - left. reflexivity.
  - reflexivity.
  - vm_compute. repeat constructor; done.
  - reflexivity.
  - reflexivity.
  - exists t. split; [exact Hfeed|]. split; [exact Hp|]. exact Hh.
Defined.

Lemma poll_true_at_header_witness :
  read Examples.cfg_debug Examples.sub0
    (Examples.idle_reader Examples.sub0,
     Examples.world_pi (Examples.wire_pi Examples.sub0))
  = (Returned true,
     (MkReader Examples.registry_pi header_buffer State.Header
        ["S"; "U"; "B"; "0"]%byte (replicate 8 x00) [x0a],
      Examples.world_pi (drop 4 (Examples.wire_pi Examples.sub0)))) ∧
  ∃ t, read Examples.cfg_debug Examples.sub0
         (MkReader Examples.registry_pi header_buffer State.Header
            ["S"; "U"; "B"; "0"]%byte (replicate 8 x00) [x0a],
          Examples.world_pi (drop 4 (Examples.wire_pi Examples.sub0)))
       = (Returned false, t) ∧
       published t.2 = [(7, object_bytes Examples.pi)].
Proof.
  pose proof (poll_true_at_header Examples.cfg_debug Examples.sub0
                Examples.registry_pi ["S"; "U"; "B"; "0"]%byte
                (replicate 8 x00) [x0a]
                {[7 := replicate 4 x00]} []
                ["S"; "U"; "B"; "0"]%byte (Header_of Examples.pi) 7 4 0 7
                (replicate 4 x00) ["S"; "U"; "B"; "0"]%byte
                (object_bytes Examples.pi) []) as H.
  cbv zeta in H.
  destruct H as (_ & H1 & t & H2 & H3).
  - reflexivity.
  - done.
  - reflexivity.
  - reflexivity.
  - reflexivity.
  - reflexivity.
  - split; by vm_compute.
  - reflexivity.
  - by vm_compute.
  - vm_compute. lia.
  - reflexivity.
  - reflexivity.
  - split; [exact H1|]. exists t. split; [exact H2|].
    rewrite H3. by vm_compute.
Defined.

Lemma sync_lost_resumes_witness :
  state_ Examples.lost_reader.1 = State.SyncLost ∧
  ∃ r, read Examples.cfg_release Examples.sub0_noprefix Examples.lost_reader
       = (Returned true, (r, Examples.lost_reader.2)) ∧
       state_ r = State.Header ∧ currentBuffer_ r = header_buffer.
Proof.
  split; [by vm_compute|].
  eexists. split.
  - rewrite (surjective_pairing Examples.lost_reader) at 1.
    apply (sync_lost_resumes Examples.cfg_release Examples.sub0_noprefix
             Examples.lost_reader.1 Examples.lost_reader.2).
    + by vm_compute.
    + by vm_compute.
    + by vm_compute.
  - split; reflexivity.
Defined.


(** In the release build the frame that follows one with a wrong postfix
    is read and published, and no poll has reported anything. *)
Lemma release_goes_on :
  ∃ t, feed Examples.cfg_release Examples.sub0_noprefix
         [Examples.bad_postfix_pi; Examples.wire_pi Examples.sub0_noprefix]
         (Examples.fresh_reader Examples.sub0_noprefix) = (Returned false, t) ∧
       published t.2 = [(7, object_bytes Examples.pi)].
Proof. eexists. split; by vm_compute. Qed.

(** With exceptions the state is never set to [SyncLost]: the reader stays
    in [Postfix] with its buffer used up. *)
Lemma thrown_stays_in_postfix :
  ∃ t, feed Examples.cfg_debug Examples.sub0_noprefix [Examples.bad_postfix_pi]
         (Examples.fresh_reader Examples.sub0_noprefix)
       = (Faulted (Thrown msg_postfix_mismatch), t) ∧
       state_ t.1 = State.Postfix ∧ published t.2 = [] ∧
       (read Examples.cfg_debug Examples.sub0_noprefix t).1
       = Faulted (Thrown msg_postfix_mismatch).
Proof. eexists. split_and!; by vm_compute. Qed.

End ReaderFacts.

(** ** Streams of frames through the reader *)
Module StreamFacts.
Import BinaryReader Streams ReaderFacts.

Lemma receivable_sink reg hp data :
  receivable reg hp data →
  ∃ old,
    BufferRegister.find (Header_of data) reg
    = {| buffer := Some (DataBuffer (sink reg data), 0);
         bufferSize := length (object_bytes data);
         paddingSize := 0; publisher := Some (sink reg data) |} ∧
    hp !! sink reg data = Some old ∧ length old = length (object_bytes data).
Proof.
  intros (_ & k & old & Hfind & Hk & Hlen). unfold sink. rewrite Hfind.
  cbn [publisher default from_option id]. by exists old.
Qed.

(** A message that has landed leaves every buffer at its size. *)
Lemma receivable_landed reg hp data data' :
  receivable reg hp data → receivable reg hp data' →
  receivable reg (<[sink reg data := object_bytes data]> hp) data'.
Proof.
  intros H H'. destruct (receivable_sink _ _ _ H) as (old & _ & Hk & Hlen).
  destruct H' as (Hv & k' & old' & Hfind' & Hk' & Hlen').
  split; [done|]. exists k'.
  destruct (decide (k' = sink reg data)) as [->|Hne].
  - exists (object_bytes data). rewrite lookup_insert_eq.
    split_and!; [done|done|]. congruence.
  - exists old'. by rewrite lookup_insert_ne.
Qed.

Lemma receivable_landed_all reg hp data msgs :
  receivable reg hp data → Forall (receivable reg hp) msgs →
  Forall (receivable reg (<[sink reg data := object_bytes data]> hp)) msgs.
Proof.
  intros H Hall. eapply Forall_impl; [done|].
  intros data'. by apply receivable_landed.
Qed.

(** A frame with a good postfix and more bytes behind it, from the header
    on: the run goes on behind the frame. *)
Lemma run_header_then cfg proto reg pm hm qm h k n pad p hp ev old D X q2 :
  length hm = Header.size → Header.valid h →
  BufferRegister.find h reg
  = {| buffer := Some (DataBuffer k, 0); bufferSize := n;
       paddingSize := pad; publisher := Some p |} →
  hp !! k = Some old → n ≤ length old → length D = n → length X = pad →
  length qm = length (member_init (Postfix_t proto)) →
  let Q := default [] (Postfix_t proto) in
  let hp' := <[k := D ++ drop n old]> hp in
  ∃ c, ∀ kk,
    run cfg proto (c + kk)
      (MkReader reg header_buffer State.Header pm hm qm,
       MkWorld (Header.bytes h ++ D ++ X ++ Q ++ q2) hp ev)
    = run cfg proto kk
        (MkReader reg (start_buffer proto) (start_state proto) pm
           (Header.bytes h)
           (match Postfix_t proto with Some _ => Q | None => qm end),
         MkWorld q2 hp' (ev ++ [(p, default [] (hp' !! p))])).
Proof.
  intros Hhm Hh Hfind Hk Hn HD HX Hqm Q hp'.
  pose proof (header_segment cfg proto reg pm hm qm h (D ++ X ++ Q ++ q2) hp ev
                Hhm Hh) as H1.
  rewrite Hfind in H1. specialize (H1 ltac:(done)).
  pose proof (data_segment cfg proto reg pm (Header.bytes h) qm k n pad p D X
                (Q ++ q2) hp ev old Hk Hn HD HX) as H2.
  cbv zeta in H2. fold hp' in H2. subst Q.
  destruct (Postfix_t proto) as [qv|] eqn:Hq; cbn [default] in *; unfold id in *.
  - pose proof (postfix_segment_good cfg proto reg pm (Header.bytes h) qm qv p q2
                  hp' ev Hq Hqm) as H3.
    exists 3. intros kk. cbn [Nat.add run]. by rewrite H1, H2, H3.
  - cbn [app] in H1, H2 |- *.
    exists 2. intros kk. cbn [Nat.add run]. by rewrite H1, H2.
Qed.

(** The same from a frame boundary on. *)
Lemma run_frame_then cfg proto r w h k n pad p old P D X q2 :
  Prefix_t proto ≠ Some [] →
  synced proto r → members_sized proto r → stream w = [] →
  Header.valid h →
  BufferRegister.find h (dataBufferRegistery_ r)
  = {| buffer := Some (DataBuffer k, 0); bufferSize := n;
       paddingSize := pad; publisher := Some p |} →
  heap w !! k = Some old → n ≤ length old →
  length P = sizeof_or_0 (Prefix_t proto) → length D = n → length X = pad →
  let Q := default [] (Postfix_t proto) in
  let hp' := <[k := D ++ drop n old]> (heap w) in
  ∃ c, ∀ kk,
    run cfg proto (c + kk)
      (arrive (P ++ Header.bytes h ++ D ++ X ++ Q ++ q2) (r, w))
    = run cfg proto kk
        (arrive q2
           (after_frame proto r h P Q,
            MkWorld [] hp' (published w ++ [(p, default [] (hp' !! p))]))).
Proof.
  intros Hwf Hsync (Hpm & Hhm & Hqm) Hs Hh Hfind Hk Hn HP HD HX Q hp'.
  subst Q hp'.
  destruct r as [reg cur st pm hm qm], w as [s hp ev].
  cbn [stream heap published dataBufferRegistery_ prefix_ header_ postfix_] in *.
  subst s. rewrite !arrive_pair. unfold with_stream, after_frame.
  cbn [stream app heap published dataBufferRegistery_ prefix_ header_ postfix_].
  pose proof (run_header_then cfg proto reg) as Hrun. cbv zeta in Hrun.
  destruct Hsync as [[Hst Hcur]|(Hvoid & Hst & Hcur)];
    cbn [state_ currentBuffer_] in Hst, Hcur; subst st cur.
  - destruct (Prefix_t proto) as [pv|] eqn:Hpv.
    + cbn [sizeof_or_0 member_init] in *.
      destruct (Hrun P hm qm h k n pad p hp ev old D X q2) as [c Hc];
        try done.
      exists (S c). intros kk. cbn [Nat.add run].
      replace (start_state proto) with State.Prefix at 1
        by (unfold start_state; by rewrite Hpv).
      rewrite (prefix_segment cfg proto reg pm hm qm pv P _ hp ev Hpv HP Hpm).
      apply Hc.
    + cbn [sizeof_or_0] in HP. apply nil_length_inv in HP. subst P.
      destruct (Hrun pm hm qm h k n pad p hp ev old D X q2) as [c Hc];
        try done.
      exists c. intros kk. unfold start_state at 1, start_buffer at 1.
      rewrite Hpv. cbn [app]. apply Hc.
  - rewrite Hvoid in HP |- *. cbn [sizeof_or_0] in HP.
    apply nil_length_inv in HP. subst P. cbn [app].
    destruct (Hrun pm hm qm h k n pad p hp ev old D X q2) as [c Hc];
      try done.
    exists (S c). intros kk. cbn [Nat.add run]. rewrite readBuffer_initial.
    apply Hc.
Qed.

(** A reader at a frame boundary with nothing on the stream waits. *)
Lemma synced_waits cfg proto r w :
  Prefix_t proto ≠ Some [] → synced proto r → stream w = [] →
  ∃ kk t, run cfg proto kk (r, w) = Some (Returned false, t) ∧
          blocked t.1 ∧ t.2 = w ∧
          between_frames proto t.1 ∧
          dataBufferRegistery_ t.1 = dataBufferRegistery_ r ∧
          (members_sized proto r → members_sized proto t.1).
Proof.
  intros Hwf Hsync Hs. pose proof (start_buffer_waits proto Hwf) as Hwait.
  assert (buffer (start_buffer proto) ≠ None) as Hnn.
  { unfold start_buffer. by destruct (Prefix_t proto). }
  destruct r as [reg cur st pm hm qm].
  destruct Hsync as [[Hst Hcur]|(Hvoid & Hst & Hcur)];
    cbn [state_ currentBuffer_] in Hst, Hcur; subst st cur.
  - exists 1, (MkReader reg (start_buffer proto) (start_state proto) pm hm qm, w).
    cbn [run]. rewrite readBuffer_idle by (done || by left).
    split_and!; try done. by split; [|left].
  - exists 2, (MkReader reg header_buffer State.Header pm hm qm, w).
    cbn [run]. rewrite readBuffer_initial.
    rewrite readBuffer_idle
      by (done || left; cbn [currentBuffer_ header_buffer bufferSize];
          unfold Header.size; lia).
    split_and!; try done.
    + split; [done|]. left. cbn. unfold Header.size. lia.
    + unfold between_frames, start_state, start_buffer. by rewrite Hvoid.
Qed.

Lemma wire_cons proto data msgs :
  wire proto (data :: msgs) = BinaryWriter.frame proto data ++ wire proto msgs.
Proof. done. Qed.

Lemma frame_parts proto data q2 :
  BinaryWriter.frame proto data ++ q2
  = default [] (Prefix_t proto) ++ Header.bytes (Header_of data)
    ++ object_bytes data ++ [] ++ default [] (Postfix_t proto) ++ q2.
Proof. unfold BinaryWriter.frame. by rewrite <- !app_assoc. Qed.

Lemma default_sized (T : option (list byte)) :
  length (default [] T) = sizeof_or_0 T.
Proof. by destruct T. Qed.

(** A run over the first bytes [q] of the frames of [msgs], from a frame
    boundary on: it ends with the reader waiting, and with all bytes in,
    every message has been published, in order. *)
Lemma from_start_stream cfg proto msgs r w q rest :
  Prefix_t proto ≠ Some [] →
  synced proto r → members_sized proto r → stream w = [] →
  Forall (receivable (dataBufferRegistery_ r) (heap w)) msgs →
  q ++ rest = wire proto msgs →
  ∃ kk t,
    run cfg proto kk (arrive q (r, w)) = Some (Returned false, t) ∧
    blocked t.1 ∧
    (rest = [] →
     published t.2
     = published w ++ map (event (dataBufferRegistery_ r)) msgs ∧
     heap t.2 = landed (dataBufferRegistery_ r) (heap w) msgs ∧
     stream t.2 = [] ∧ between_frames proto t.1 ∧ members_sized proto t.1 ∧
     dataBufferRegistery_ t.1 = dataBufferRegistery_ r).
Proof.
  intros Hwf. revert r w q.
  induction msgs as [|data msgs IH]; intros r w q Hsync Hsized Hs Hall Heq.
  { apply app_eq_nil in Heq as [-> ->]. rewrite arrive_pair, app_nil_r.
    rewrite with_stream_id.
    destruct (synced_waits cfg proto r w Hwf Hsync Hs)
      as (kk & t & Hrun & Hb & Ht & Hbetween & Hreg & Hsz).
    exists kk, t. split_and!; [done|done|]. intros _. rewrite Ht.
    cbn [map landed foldl]. rewrite app_nil_r. split_and!; auto. }
  apply Forall_cons in Hall as [Hdata Hall].
  destruct (receivable_sink _ _ _ Hdata) as (old & Hfind & Hk & Hold).
  rewrite wire_cons in Heq.
  set (reg := dataBufferRegistery_ r) in *.
  set (k := sink reg data) in *.
  destruct (decide (length (BinaryWriter.frame proto data) ≤ length q))
    as [Hfull|Hshort].
  - destruct (split_covers _ _ _ _ Heq Hfull) as (q2 & -> & Heq2).
    destruct (run_frame_then cfg proto r w (Header_of data) k
                (length (object_bytes data)) 0 k old
                (default [] (Prefix_t proto)) (object_bytes data) [] q2)
      as [c Hc]; try done.
    { by destruct Hdata. } { lia. } { apply default_sized. }
    cbv zeta in Hc.
    rewrite drop_ge, app_nil_r in Hc by lia.
    rewrite lookup_insert_eq in Hc. cbn [default from_option id] in Hc.
    destruct (IH (after_frame proto r (Header_of data)
                    (default [] (Prefix_t proto)) (default [] (Postfix_t proto)))
                 (MkWorld [] (<[k := object_bytes data]> (heap w))
                    (published w ++ [(k, object_bytes data)])) q2)
      as (kk & t & Hrun & Hb & Hdone); try done.
    { left. apply after_frame_between. }
    { apply after_frame_sized; [done|apply default_sized..]. }
    { cbn [heap after_frame dataBufferRegistery_].
      by apply receivable_landed_all. }
    exists (c + kk), t. rewrite frame_parts, Hc. split_and!; [done|done|].
    intros Hrest. destruct (Hdone Hrest) as (Hp & Hh & Hst & Hbt & Hsz & Hrg).
    cbn [published heap after_frame dataBufferRegistery_] in Hp, Hh, Hrg.
    split_and!; try done.
    by rewrite Hp, <- app_assoc.
  - assert (q ++ drop (length q) (BinaryWriter.frame proto data)
            = BinaryWriter.frame proto data) as Hq.
    { rewrite <- (take_drop (length q) (BinaryWriter.frame proto data)) at 2.
      f_equal. apply (f_equal (take (length q))) in Heq.
      rewrite take_app_length in Heq. etrans; [exact Heq|].
      by rewrite take_app_le by lia. }
    assert (drop (length q) (BinaryWriter.frame proto data) ≠ []) as Hne.
    { intros Hnil. apply (f_equal length) in Hnil.
      rewrite length_drop in Hnil. cbn [length] in Hnil. lia. }
    pose proof (frame_parts proto data []) as Hparts.
    rewrite !app_nil_r in Hparts. rewrite Hparts in Hq.
    destruct (from_start cfg proto r w (Header_of data) k
                (length (object_bytes data)) 0 k old
                (default [] (Prefix_t proto)) (object_bytes data) []
                (default [] (Postfix_t proto)) q
                (drop (length q) (BinaryWriter.frame proto data)))
      as (kk & o & t & Hrun & Hres); try done.
    { by destruct Hdata. } { lia. } { apply default_sized. }
    { apply default_sized. }
    apply frame_result_waits in Hres as [-> Hb]; [|done].
    exists kk, t. split_and!; [done|done|].
    intros ->. rewrite app_nil_r in Heq. apply (f_equal length) in Heq.
    rewrite length_app in Heq. lia.
Qed.

(** The frames of [msgs] fed in chunks to a reader at a frame boundary. *)
Lemma feed_wire cfg proto r w msgs chunks :
  Prefix_t proto ≠ Some [] →
  synced proto r → members_sized proto r → stream w = [] →
  Forall (receivable (dataBufferRegistery_ r) (heap w)) msgs →
  chunks ≠ [] → Forall (λ c, c ≠ []) chunks →
  concat chunks = wire proto msgs →
  ∃ t, feed cfg proto chunks (r, w) = (Returned false, t) ∧
       published t.2
       = published w ++ map (event (dataBufferRegistery_ r)) msgs ∧
       heap t.2 = landed (dataBufferRegistery_ r) (heap w) msgs ∧
       stream t.2 = [] ∧ between_frames proto t.1 ∧ members_sized proto t.1 ∧
       dataBufferRegistery_ t.1 = dataBufferRegistery_ r.
Proof.
  intros Hwf Hsync Hsized Hs Hall Hne Hchunks Heq.
  destruct (from_start_stream cfg proto msgs r w (concat chunks) [])
    as (kk & t & Hrun & Hb & Hdone); try done.
  { by rewrite app_nil_r. }
  exists t. split; [|by apply Hdone].
  apply feed_chunks; [done| |by exists kk|done].
  intros i Hi.
  destruct (from_start_stream cfg proto msgs r w (concat (take i chunks))
              (concat (drop i chunks)))
    as (ki & ti & Hruni & Hbi & _); try done.
  { by rewrite <- concat_app, take_drop. }
  by exists ki, ti.
Qed.

(** What the serializer has put on the wire. *)
Lemma forward_all_spec proto msgs s :
  StreamSerializer.forward_all proto msgs s
  = {| BinaryWriter.wire :=
         BinaryWriter.wire s ++ take (BinaryWriter.room s) (wire proto msgs);
       BinaryWriter.room := BinaryWriter.room s - length (wire proto msgs) |}.
Proof.
  revert s. induction msgs as [|data msgs IH]; intros s.
  { cbn. rewrite take_nil, app_nil_r, Nat.sub_0_r. by destruct s. }
  cbn [StreamSerializer.forward_all foldl].
  fold (StreamSerializer.forward_all proto msgs (StreamSerializer.forward proto data s)).
  rewrite IH. unfold StreamSerializer.forward.
  rewrite WriterFacts.write_spec. cbn [snd BinaryWriter.wire BinaryWriter.room].
  rewrite wire_cons, length_app, <- app_assoc, take_app. f_equal. lia.
Qed.

(** What a serializer puts on the wire for a run of messages: the frames
    one behind the other, as far as the transport takes them; a write that
    fails is not reported, and what it did get out stays on the wire. *)
Theorem serializer_wire proto msgs s :
  let s' := StreamSerializer.forward_all proto msgs s in
  BinaryWriter.wire s'
  = BinaryWriter.wire s ++ take (BinaryWriter.room s) (wire proto msgs) ∧
  BinaryWriter.room s' = BinaryWriter.room s - length (wire proto msgs) ∧
  (length (wire proto msgs) ≤ BinaryWriter.room s ↔
   BinaryWriter.wire s' = BinaryWriter.wire s ++ wire proto msgs).
Proof.
  cbv zeta. rewrite forward_all_spec. cbn [BinaryWriter.wire BinaryWriter.room].
  split_and!; [done|done|]. split.
  - intros H. by rewrite take_ge.
  - intros H. apply app_inv_head in H. apply (f_equal length) in H.
    rewrite length_take in H. lia.
Qed.

(** Serialize, then deserialize: the messages a serializer has forwarded
    onto an empty transport with room for them, fed in chunks of any sizes
    to a reader at a frame boundary that has a buffer registered for each,
    are published one by one, in order, each with its bytes in the buffer
    of its publisher; the reader is at a frame boundary again. *)
Theorem serialize_deserialize cfg proto r w msgs s chunks :
  Prefix_t proto ≠ Some [] →
  synced proto r → members_sized proto r → stream w = [] →
  Forall (receivable (dataBufferRegistery_ r) (heap w)) msgs →
  BinaryWriter.wire s = [] → length (wire proto msgs) ≤ BinaryWriter.room s →
  chunks ≠ [] → Forall (λ c, c ≠ []) chunks →
  concat chunks
  = BinaryWriter.wire (StreamSerializer.forward_all proto msgs s) →
  ∃ t, feed cfg proto chunks (r, w) = (Returned false, t) ∧
       published t.2
       = published w ++ map (event (dataBufferRegistery_ r)) msgs ∧
       heap t.2 = landed (dataBufferRegistery_ r) (heap w) msgs ∧
       stream t.2 = [] ∧ synced proto t.1.
Proof.
  intros Hwf Hsync Hsized Hs Hall Hempty Hroom Hne Hchunks Heq.
  rewrite forward_all_spec in Heq. cbn [BinaryWriter.wire] in Heq.
  rewrite Hempty, take_ge in Heq by done. cbn [app] in Heq.
  destruct (feed_wire cfg proto r w msgs chunks)
    as (t & Hfeed & Hp & Hh & Hst & Hb & _); try done.
  exists t. split_and!; try done. by left.
Qed.

Lemma serialize_deserialize_witness :
  let proto := Examples.sub0_noprefix in
  let s := Scenarios.reader_two proto in
  let chunks := Scenarios.cut_three (BinaryWriter.wire (Scenarios.sent_three proto)) in
  length (BinaryWriter.wire (Scenarios.sent_three proto)) = 37 ∧
  ∃ t, feed Examples.cfg_debug proto chunks s = (Returned false, t) ∧
       published t.2
       = [(7, object_bytes Examples.pi); (9, object_bytes Scenarios.ab);
          (7, object_bytes Examples.pi)].
Proof.
  cbv zeta. split; [reflexivity|].
  destruct (serialize_deserialize Examples.cfg_debug Examples.sub0_noprefix
              (Scenarios.reader_two Examples.sub0_noprefix).1
              (Scenarios.reader_two Examples.sub0_noprefix).2
              [Examples.pi; Scenarios.ab; Examples.pi]
              {| BinaryWriter.wire := []; BinaryWriter.room := 64 |}
              (Scenarios.cut_three
                 (BinaryWriter.wire (Scenarios.sent_three Examples.sub0_noprefix))))
    as (t & Hfeed & Hp & _).
  - done.
  - right. by vm_compute.
  - by vm_compute.
  - reflexivity.
  - apply Forall_cons_2; [|apply Forall_cons_2; [|apply Forall_cons_2;
      [|apply Forall_nil_2]]];
      (split; [split; by vm_compute|]);
      [exists 7, (replicate 4 x00)|exists 9, (replicate 2 x00)
      |exists 7, (replicate 4 x00)]; by vm_compute.
  - reflexivity.
  - vm_compute. lia.
  - done.
  - vm_compute. repeat constructor; done.
  - by vm_compute.
  - exists t. split; [exact Hfeed|]. rewrite Hp. by vm_compute.
Defined.

End StreamFacts.

(** ** The register under arbitrary runs of [set] calls *)
Module RegisterRunFacts.
Import BufferRegister RegisterRuns RegisterFacts.

Lemma ordered_cons e reg :
  ordered (e :: reg) ↔
  (∀ e', e' ∈ reg → (Header.typeId e.1 ≤ Header.typeId e'.1)%N) ∧ ordered reg.
Proof. unfold ordered. by rewrite StronglySorted_cons, Forall_forall. Qed.

Lemma ordered_lookup reg i j x y :
  ordered reg → i ≤ j → reg !! i = Some x → reg !! j = Some y →
  (Header.typeId x.1 ≤ Header.typeId y.1)%N.
Proof.
  intros Hs. revert i j. induction reg as [|e reg IH]; intros i j Hij Hi Hj.
  { done. }
  apply ordered_cons in Hs as [Hhd Hs].
  destruct i as [|i], j as [|j]; cbn in Hi, Hj; simplify_eq; [lia| |lia|].
  - apply Hhd. by eapply list_elem_of_lookup_2.
  - apply (IH Hs i j); (done || lia).
Qed.

Lemma ordered_partitioned header reg :
  ordered reg → partitioned (λ lhs, Header.lt lhs.1 header) reg.
Proof.
  intros Hs i j x y Hij Hi Hj Hy.
  pose proof (ordered_lookup reg i j x y Hs Hij Hi Hj).
  apply lt_spec in Hy. apply lt_spec. lia.
Qed.

(** On an ordered register a [set] that returns has done the ordered
    insertion, and [find] is the scan. *)
Lemma set_ordered cfg header buf reg reg' :
  ordered reg → set cfg header buf reg = Returned reg' →
  reg' = upsert_ordered header buf reg.
Proof.
  intros Hs. unfold set.
  rewrite lower_bound_spec by by apply ordered_partitioned.
  rewrite <- set_core_scan. cbn zeta.
  destruct (assert cfg _); cbn [mbind Outcome_bind Build.bind]; [|done].
  destruct (reg !! _) as [found|].
  - destruct (Header.eqb found.1 header); [congruence|].
    case_bool_decide; congruence.
  - case_bool_decide; congruence.
Qed.

Lemma find_on_ordered header reg :
  ordered reg → find header reg = find_ordered header reg.
Proof.
  intros Hs. unfold find.
  rewrite lower_bound_spec by by apply ordered_partitioned.
  apply find_scan.
Qed.

Lemma upsert_members header buf reg e :
  e ∈ upsert_ordered header buf reg → e = (header, buf) ∨ e ∈ reg.
Proof.
  induction reg as [|[h b] reg IH]; cbn [upsert_ordered].
  { rewrite list_elem_of_singleton. auto. }
  destruct (Header.lt h header).
  - rewrite !elem_of_cons. intros [->|?]; [auto|]. destruct IH; auto.
  - destruct (Header.eqb h header) eqn:Heq.
    + apply eqb_spec in Heq as ->. rewrite !elem_of_cons. intros [->|?]; auto.
    + rewrite !elem_of_cons. intros [->|[->|?]]; auto.
Qed.

Lemma upsert_ordered_ordered header buf reg :
  ordered reg → ordered (upsert_ordered header buf reg).
Proof.
  induction reg as [|[h b] reg IH]; cbn [upsert_ordered].
  { intros _. apply ordered_cons. split; [by intros ? ?%elem_of_nil|constructor]. }
  intros Hs. pose proof Hs as [Hhd Hs']%ordered_cons. cbn [fst] in Hhd.
  destruct (Header.lt h header) eqn:Hlt.
  - apply lt_spec in Hlt. apply ordered_cons. split; [|by apply IH].
    intros e' [->|He']%upsert_members; cbn [fst]; [lia|by apply Hhd].
  - apply lt_false in Hlt. destruct (Header.eqb h header) eqn:Heq.
    + apply ordered_cons. by split.
    + apply ordered_cons. split; [|done].
      intros e' [->|He']%elem_of_cons; cbn [fst]; [lia|].
      specialize (Hhd _ He'). lia.
Qed.

Lemma first_of_cons id e reg :
  first_of id (e :: reg)
  = if decide (Header.typeId e.1 = id) then Some e else first_of id reg.
Proof. unfold first_of. rewrite filter_cons. by case_decide. Qed.

Lemma first_of_upsert id header buf reg :
  first_of id (upsert_ordered header buf reg)
  = if decide (id = Header.typeId header) then Some (header, buf)
    else first_of id reg.
Proof.
  induction reg as [|[h b] reg IH]; cbn [upsert_ordered].
  { rewrite first_of_cons. cbn [fst]. repeat case_decide; by simplify_eq. }
  destruct (Header.lt h header) eqn:Hlt.
  - apply lt_spec in Hlt. rewrite !first_of_cons, IH. cbn [fst].
    repeat case_decide; simplify_eq; (done || lia).
  - destruct (Header.eqb h header) eqn:Heq.
    + apply eqb_spec in Heq as ->. rewrite !first_of_cons. cbn [fst].
      repeat case_decide; by simplify_eq.
    + rewrite !first_of_cons. cbn [fst].
      repeat case_decide; by simplify_eq.
Qed.

Lemma latest_snoc id calls header buf :
  latest id (calls ++ [(header, buf)])
  = if decide (id = Header.typeId header) then Some (header, buf)
    else latest id calls.
Proof.
  unfold latest. rewrite filter_app, filter_cons, filter_nil. cbn [fst].
  repeat case_decide; simplify_eq; [by rewrite last_snoc|by rewrite app_nil_r].
Qed.

Lemma first_of_None id reg :
  (∀ e, e ∈ reg → Header.typeId e.1 ≠ id) → first_of id reg = None.
Proof.
  induction reg as [|e reg IH]; intros H; [done|].
  rewrite first_of_cons. rewrite decide_False by (apply H; by left).
  apply IH. intros e' He'. apply H. by right.
Qed.

Lemma find_ordered_first header reg :
  ordered reg →
  find_ordered header reg
  = match first_of (Header.typeId header) reg with
    | Some (h, b) => if decide (h = header) then b else Buffer_null
    | None => Buffer_null
    end.
Proof.
  induction reg as [|[h b] reg IH]; cbn [find_ordered]; [done|].
  intros [Hhd Hs]%ordered_cons. cbn [fst] in Hhd.
  rewrite first_of_cons. cbn [fst].
  destruct (Header.lt h header) eqn:Hlt.
  - apply lt_spec in Hlt. rewrite decide_False by lia. by apply IH.
  - apply lt_false in Hlt. destruct (Header.eqb h header) eqn:Heq.
    + apply eqb_spec in Heq as ->. by rewrite !decide_True.
    + case_decide as Hid.
      * rewrite decide_False; [done|]. intros ->. by rewrite eqb_refl in Heq.
      * rewrite first_of_None; [done|].
        intros e' He'. specialize (Hhd _ He'). lia.
Qed.

(** What a run of [set] calls that returns has built: an ordered register
    whose first entry for every [typeId] is the last call with it. *)
Lemma set_all_latest cfg todo done reg reg' :
  ordered reg → (∀ id, first_of id reg = latest id done) →
  set_all cfg todo reg = Returned reg' →
  ordered reg' ∧ ∀ id, first_of id reg' = latest id (done ++ todo).
Proof.
  revert done reg. induction todo as [|[h b] todo IH]; intros done reg Hs Hfirst.
  { cbn. intros [= <-]. by rewrite app_nil_r. }
  cbn [set_all]. destruct (set cfg h b reg) as [reg1|] eqn:Hset; [|done].
  cbn [mbind Outcome_bind Build.bind]. intros Hrest.
  apply set_ordered in Hset as ->; [|done].
  replace (done ++ (h, b) :: todo) with ((done ++ [(h, b)]) ++ todo)
    by by rewrite <- app_assoc.
  eapply IH; [by apply upsert_ordered_ordered| |exact Hrest].
  intros id. by rewrite first_of_upsert, latest_snoc, Hfirst.
Qed.

Lemma set_length cfg header buf reg reg' :
  set cfg header buf reg = Returned reg' →
  length reg ≤ cMaxDataBufferCount → length reg' ≤ cMaxDataBufferCount.
Proof.
  unfold set. destruct (assert cfg _); cbn [mbind Outcome_bind Build.bind]; [|done].
  destruct (reg !! _) as [found|].
  - destruct (Header.eqb found.1 header).
    + intros [= <-]. by rewrite length_insert.
    + case_bool_decide as Hlen; [|done]. intros [= <-] _.
      rewrite length_app. cbn [length].
      pose proof (length_take_le reg (lower_bound (λ lhs, Header.lt lhs.1 header) reg)).
      rewrite length_take, length_drop. lia.
  - case_bool_decide as Hlen; [|done]. intros [= <-] _.
    rewrite length_app. cbn [length]. rewrite length_take, length_drop. lia.
Qed.

Lemma set_all_length cfg calls reg reg' :
  set_all cfg calls reg = Returned reg' →
  length reg ≤ cMaxDataBufferCount → length reg' ≤ cMaxDataBufferCount.
Proof.
  revert reg. induction calls as [|[h b] calls IH]; intros reg.
  { by intros [= <-]. }
  cbn [set_all]. destruct (set cfg h b reg) as [reg1|] eqn:Hset; [|done].
  cbn [mbind Outcome_bind Build.bind]. intros Hrest Hlen.
  eapply IH; [done|]. by eapply set_length.
Qed.

(** After any run of [set] calls that returns, [find] of a header returns
    the descriptor of the last call with the [typeId] of the header if that
    call was for this header, and the null descriptor if it was for a
    header of another size or if there was no call with the [typeId]. *)
Theorem find_after_sets cfg calls reg header :
  set_all cfg calls empty = Returned reg →
  find header reg = found_after header calls.
Proof.
  intros Hrun.
  destruct (set_all_latest cfg calls [] empty reg) as [Hs Hfirst];
    [constructor|done|done|].
  rewrite find_on_ordered, find_ordered_first by done.
  unfold found_after. by rewrite Hfirst.
Qed.

(** The register never holds more than [cMaxDataBufferCount] entries, and
    once it holds that many, a build with assertions refuses every further
    [set], also one for a header that is there. *)
Theorem register_capacity cfg calls reg :
  set_all cfg calls empty = Returned reg →
  length reg ≤ cMaxDataBufferCount ∧
  (length reg = cMaxDataBufferCount → ndebug cfg = false →
   ∀ header buf, set cfg header buf reg = Faulted Aborted).
Proof.
  intros Hrun. split.
  - eapply set_all_length; [done|]. cbn. unfold cMaxDataBufferCount. lia.
  - intros Hfull Hdbg header buf. unfold set, assert.
    rewrite Hdbg, bool_decide_eq_false_2 by lia. done.
Qed.

(** *** The register after any run of [set] calls *)

(** [find] returns the null descriptor for a header that no entry has,
    whatever the register. *)
Lemma find_absent header reg :
  header ∉ reg.*1 → find header reg = Buffer_null.
Proof.
  intros Hnin. unfold find.
  destruct (reg !! _) as [found|] eqn:Hk; [|done].
  destruct (Header.eqb found.1 header) eqn:Heq; [|done].
  apply eqb_spec in Heq. destruct Hnin. rewrite <- Heq.
  apply list_elem_of_fmap. exists found. split; [done|].
  by eapply list_elem_of_lookup_2.
Qed.

(** The first entry with the [typeId] of a header is where the search for
    the header ends. *)
Lemma first_of_lookup header e reg :
  ordered reg → first_of (Header.typeId header) reg = Some e →
  reg !! partition_point (λ lhs, Header.lt lhs.1 header) reg = Some e.
Proof.
  induction reg as [|[h b] reg IH]; [done|].
  intros [Hhd Hs]%ordered_cons. cbn [fst] in Hhd.
  rewrite first_of_cons. cbn [partition_point fst].
  destruct (Header.lt h header) eqn:Hlt.
  - apply lt_spec in Hlt. rewrite decide_False by lia. by apply IH.
  - apply lt_false in Hlt. case_decide as Hid; [done|].
    intros Hfirst. unfold first_of in Hfirst.
    apply head_Some_elem_of, list_elem_of_filter in Hfirst as [He Hin].
    specialize (Hhd _ Hin). lia.
Qed.

(** A [set] for the header of the first entry with its [typeId]: past the
    capacity check it stores the descriptor in that entry, whatever room is
    left. *)
Lemma set_first cfg header buf old reg :
  ordered reg → first_of (Header.typeId header) reg = Some (header, old) →
  ∃ i, reg !! i = Some (header, old) ∧
       upsert_ordered header buf reg = <[i := (header, buf)]> reg ∧
       set cfg header buf reg
       = (assert cfg (bool_decide (length reg < cMaxDataBufferCount)) ;;
          Returned (<[i := (header, buf)]> reg)).
Proof.
  intros Hs Hfirst.
  pose proof (first_of_lookup header (header, old) reg Hs Hfirst) as Hk.
  exists (partition_point (λ lhs, Header.lt lhs.1 header) reg).
  split_and!; [done| |].
  - pose proof (set_core_scan header buf reg) as Hscan. cbn zeta in Hscan.
    rewrite Hk in Hscan. cbn [fst] in Hscan. by rewrite eqb_refl in Hscan.
  - unfold set. rewrite lower_bound_spec by by apply ordered_partitioned.
    rewrite Hk. cbn [fst]. by rewrite eqb_refl.
Qed.

Lemma upsert_first_keys header buf old reg :
  ordered reg → first_of (Header.typeId header) reg = Some (header, old) →
  (upsert_ordered header buf reg).*1 = reg.*1.
Proof.
  induction reg as [|[h b] reg IH]; [done|].
  intros [Hhd Hs]%ordered_cons. cbn [fst] in Hhd.
  rewrite first_of_cons. cbn [upsert_ordered fst].
  destruct (Header.lt h header) eqn:Hlt.
  - apply lt_spec in Hlt. rewrite decide_False by lia. intros Hfirst.
    rewrite !fmap_cons. f_equal. by apply IH.
  - apply lt_false in Hlt. case_decide as Hid.
    + intros [= -> ->]. by rewrite eqb_refl.
    + intros Hfirst. unfold first_of in Hfirst.
      apply head_Some_elem_of, list_elem_of_filter in Hfirst as [He Hin].
      specialize (Hhd _ Hin). cbn [fst] in *. lia.
Qed.

Lemma find_upserted header buf reg :
  ordered reg → find header (upsert_ordered header buf reg) = buf.
Proof.
  intros Hs. rewrite find_on_ordered by by apply upsert_ordered_ordered.
  rewrite find_ordered_first by by apply upsert_ordered_ordered.
  rewrite first_of_upsert. by rewrite !decide_True.
Qed.

(** In a register in strictly increasing order every entry is the first
    with its [typeId]. *)
Lemma sorted_first_of h b reg :
  sorted_by_typeId reg → (h, b) ∈ reg →
  first_of (Header.typeId h) reg = Some (h, b).
Proof.
  induction reg as [|[h' b'] reg IH]; [by intros _ ?%elem_of_nil|].
  intros [Hhd Hs]%sorted_cons Hin. cbn [fst] in Hhd.
  rewrite first_of_cons. cbn [fst].
  apply elem_of_cons in Hin as [[= -> ->]|Hin]; [by rewrite decide_True|].
  specialize (Hhd _ Hin). cbn [fst] in Hhd.
  rewrite decide_False by lia. by apply IH.
Qed.

(** The headers of the register after an ordered insertion: as before
    where the header is that of the first entry with its [typeId], and one
    more otherwise. *)
Lemma upsert_new_keys header buf reg :
  ordered reg →
  (∀ old, first_of (Header.typeId header) reg ≠ Some (header, old)) →
  (upsert_ordered header buf reg).*1 ≡ₚ header :: reg.*1.
Proof.
  induction reg as [|[h b] reg IH]; [done|].
  intros [Hhd Hs]%ordered_cons Hnot. cbn [fst] in Hhd.
  cbn [upsert_ordered]. destruct (Header.lt h header) eqn:Hlt.
  - apply lt_spec in Hlt. rewrite !fmap_cons. cbn [fst].
    rewrite IH; [apply Permutation_swap|done|].
    intros old Hfirst. apply (Hnot old). rewrite first_of_cons. cbn [fst].
    by rewrite decide_False by lia.
  - destruct (Header.eqb h header) eqn:Heq; [|done].
    apply eqb_spec in Heq as ->. destruct (Hnot b).
    rewrite first_of_cons. cbn [fst]. by rewrite decide_True.
Qed.

Lemma first_of_elem id e reg : first_of id reg = Some e → e ∈ reg.
Proof.
  unfold first_of. by intros [_ ?]%head_Some_elem_of%list_elem_of_filter.
Qed.

(** A header that is in the register twice stays there twice. *)
Lemma set_all_NoDup_before cfg calls reg reg' :
  ordered reg → set_all cfg calls reg = Returned reg' →
  NoDup reg'.*1 → NoDup reg.*1.
Proof.
  revert reg. induction calls as [|[h b] calls IH]; intros reg Hs.
  { by intros [= <-]. }
  cbn [set_all]. destruct (set cfg h b reg) as [reg1|] eqn:Hset; [|done].
  cbn [mbind Outcome_bind Build.bind]. intros Hrest Hnd.
  apply set_ordered in Hset as ->; [|done].
  apply IH in Hrest; [|by apply upsert_ordered_ordered|done].
  destruct (first_of (Header.typeId h) reg) as [[h' old]|] eqn:Hfirst.
  - destruct (decide (h' = h)) as [->|Hne].
    + by rewrite (upsert_first_keys h b old reg Hs Hfirst) in Hrest.
    + rewrite upsert_new_keys in Hrest; [by apply NoDup_cons in Hrest as [_ ?]|done|].
      intros old'. rewrite Hfirst. congruence.
  - rewrite upsert_new_keys in Hrest; [by apply NoDup_cons in Hrest as [_ ?]|done|].
    intros old'. by rewrite Hfirst.
Qed.

(** When a run of [set] calls leaves no header in the register twice. *)
Lemma set_all_NoDup cfg todo done reg reg' :
  ordered reg → (∀ id, first_of id reg = latest id done) →
  (∀ h, h ∈ reg.*1 ↔ h ∈ done.*1) → NoDup reg.*1 →
  set_all cfg todo reg = Returned reg' →
  NoDup reg'.*1 ↔ repeats_first done todo.
Proof.
  revert done reg. induction todo as [|[h b] todo IH];
    intros done reg Hs Hfirst Hmem Hnd.
  { intros [= <-]. by cbn. }
  cbn [set_all repeats_first].
  destruct (set cfg h b reg) as [reg1|] eqn:Hset; [|done].
  cbn [mbind Outcome_bind Build.bind]. intros Hrest.
  apply set_ordered in Hset as ->; [|done].
  pose proof (upsert_ordered_ordered h b reg Hs) as Hs1.
  assert (∀ id, first_of id (upsert_ordered h b reg)
                = latest id (done ++ [(h, b)])) as Hfirst1.
  { intros id. by rewrite first_of_upsert, latest_snoc, Hfirst. }
  assert ((∃ old, first_of (Header.typeId h) reg = Some (h, old)) ∨
          ¬ ∃ old, first_of (Header.typeId h) reg = Some (h, old))
    as [[old Hold]|Hnew].
  { destruct (first_of (Header.typeId h) reg) as [[h' old]|]; [|by right; intros [? ?]].
    destruct (decide (h' = h)) as [->|Hne]; [left; by exists old|].
    right. intros [? ?]. congruence. }
  - pose proof (upsert_first_keys h b old reg Hs Hold) as Hkeys.
    assert (h ∈ reg.*1) as Hin.
    { apply list_elem_of_fmap. exists (h, old). split; [done|].
      by eapply first_of_elem. }
    rewrite (IH (done ++ [(h, b)]) _ Hs1 Hfirst1); [| |by rewrite Hkeys|done].
    + split; [|by intros [_ ?]]. intros Hrep. split; [|done].
      intros _. exists old. by rewrite <- Hfirst.
    + intros h'. rewrite Hkeys, Hmem, fmap_app, elem_of_app. cbn [fmap list_fmap fst].
      rewrite list_elem_of_singleton. split; [by left|].
      intros [?| ->]; [done|]. by apply Hmem.
  - assert ((upsert_ordered h b reg).*1 ≡ₚ h :: reg.*1) as Hkeys.
    { apply upsert_new_keys; [done|]. intros old Hold. apply Hnew. by exists old. }
    destruct (decide (h ∈ reg.*1)) as [Hin|Hnin].
    + split.
      * intros Hnd'. apply (set_all_NoDup_before _ _ _ _ Hs1 Hrest) in Hnd'.
        rewrite Hkeys in Hnd'. by apply NoDup_cons in Hnd' as [? _].
      * intros [Hrep _]. destruct Hrep as [old Hold]; [by apply Hmem|].
        destruct Hnew. exists old. by rewrite Hfirst.
    + rewrite (IH (done ++ [(h, b)]) _ Hs1 Hfirst1); [| |by rewrite Hkeys; apply NoDup_cons|done].
      * split; [|by intros [_ ?]]. intros Hrep. split; [|done].
        intros Hin. by apply Hmem in Hin.
      * intros h'. rewrite Hkeys, elem_of_cons, Hmem, fmap_app, elem_of_app.
        cbn [fmap list_fmap fst]. rewrite list_elem_of_singleton. tauto.
Qed.

(** C7, as the code has it.  After every run of [set] calls that return,
    the register is in order of [typeId] and within its capacity.  A
    further [set] for the header of the first entry with its [typeId]
    stores the descriptor in that entry and changes nothing else; with
    assertions this needs the register to hold fewer than
    [cMaxDataBufferCount] entries, and is refused otherwise.  No header is
    in the register twice exactly when no call of the run was for a header
    set before with, since then, a call for a header with the same
    [typeId] and another size.  So where the [typeId] identifies the type
    throughout the run, no header is there twice, every entry is the first
    with its [typeId], the order is strict, and every header has the
    descriptor of the last call for it. *)
Theorem set_all_sorted cfg calls reg :
  set_all cfg calls empty = Returned reg →
  ordered reg ∧ length reg ≤ cMaxDataBufferCount ∧
  (∀ h b old, first_of (Header.typeId h) reg = Some (h, old) →
     (length reg < cMaxDataBufferCount ∨ ndebug cfg = true →
      ∃ i reg', reg !! i = Some (h, old) ∧
                set cfg h b reg = Returned reg' ∧
                reg' = <[i := (h, b)]> reg ∧
                reg'.*1 = reg.*1 ∧ length reg' = length reg ∧
                find h reg' = b) ∧
     (length reg = cMaxDataBufferCount → ndebug cfg = false →
      set cfg h b reg = Faulted Aborted)) ∧
  (NoDup reg.*1 ↔ repeats_first [] calls) ∧
  (typeId_keyed calls →
     NoDup reg.*1 ∧ sorted_by_typeId reg ∧
     (∀ h b, (h, b) ∈ reg ↔ last_set h calls = Some b) ∧
     ∀ h old, (h, old) ∈ reg →
       first_of (Header.typeId h) reg = Some (h, old)).
Proof.
  intros Hrun.
  destruct (set_all_latest cfg calls [] empty reg) as [Hs _];
    [constructor|done|done|].
  split_and!; [done| | | |].
  - eapply set_all_length; [done|]. cbn. unfold cMaxDataBufferCount. lia.
  - intros h b old Hfirst.
    destruct (set_first cfg h b old reg Hs Hfirst) as (i & Hi & Hup & ->).
    unfold assert. split.
    + intros Hroom.
      assert ((if ndebug cfg then Returned ()
               else if bool_decide (length reg < cMaxDataBufferCount)
                    then Returned () else Faulted Aborted) = Returned ()) as ->.
      { destruct Hroom as [Hlt| ->]; [|done].
        rewrite bool_decide_eq_true_2 by done. by destruct (ndebug cfg). }
      cbn [mbind Outcome_bind Build.bind]. exists i. eexists.
      split_and!; [done|done|done| | |].
      * rewrite <- Hup. by eapply upsert_first_keys.
      * by rewrite length_insert.
      * rewrite <- Hup. by apply find_upserted.
    + intros Hfull ->. by rewrite bool_decide_eq_false_2 by lia.
  - apply (set_all_NoDup cfg calls [] empty reg); [constructor|done|done| |done].
    constructor.
  - intros Hkey.
    pose proof (set_all_built cfg calls [] empty reg Hkey built_empty Hrun)
      as [Hsorted Hlast].
    split_and!; [by apply sorted_NoDup|done|done|].
    intros h old. by apply sorted_first_of.
Qed.

(** C8, as the code has it.  In every register that a run of [set] calls
    has built, [find] of a header that no entry has returns the null
    descriptor, and [find] of a header that the first entry with its
    [typeId] has returns the descriptor of that entry; behind a header of
    the same [typeId] and another size a header is not found.  Where the
    [typeId] identifies the type throughout the run, every entry is found
    by its header. *)
Theorem find_first_match cfg calls reg h :
  set_all cfg calls empty = Returned reg →
  (h ∉ reg.*1 → find h reg = Buffer_null) ∧
  (∀ b, first_of (Header.typeId h) reg = Some (h, b) → find h reg = b) ∧
  (∀ h' b', first_of (Header.typeId h) reg = Some (h', b') → h' ≠ h →
            find h reg = Buffer_null) ∧
  (typeId_keyed calls → ∀ b, (h, b) ∈ reg → find h reg = b).
Proof.
  intros Hrun.
  destruct (set_all_latest cfg calls [] empty reg) as [Hs _];
    [constructor|done|done|].
  assert (∀ e, first_of (Header.typeId h) reg = Some e →
               find h reg = if decide (e.1 = h) then e.2 else Buffer_null)
    as Hfind.
  { intros [h' b'] He. rewrite find_on_ordered, find_ordered_first by done.
    by rewrite He. }
  split_and!.
  - apply find_absent.
  - intros b Hfirst. rewrite (Hfind _ Hfirst). cbn [fst snd].
    by rewrite decide_True.
  - intros h' b' Hfirst Hne. rewrite (Hfind _ Hfirst). cbn [fst snd].
    by rewrite decide_False.
  - intros Hkey b Hin.
    pose proof (set_all_built cfg calls [] empty reg Hkey built_empty Hrun)
      as [Hsorted _].
    rewrite (Hfind _ (sorted_first_of h b reg Hsorted Hin)). cbn [fst snd].
    by rewrite decide_True.
Qed.

Lemma set_all_sorted_witness :
  ∃ reg',
    set Examples.cfg_debug Examples.h_double Examples.b_float
      [(Examples.h_double, Examples.b_double); (Examples.h_float, Examples.b_float)]
    = Returned reg' ∧
    reg'.*1 = [Examples.h_double; Examples.h_float] ∧
    find Examples.h_double reg' = Examples.b_float.
Proof.
  destruct (set_all_sorted Examples.cfg_debug
              [(Examples.h_float, Examples.b_float);
               (Examples.h_double, Examples.b_double)]
              [(Examples.h_double, Examples.b_double);
               (Examples.h_float, Examples.b_float)] eq_refl)
    as (_ & _ & Hover & _).
  destruct (Hover Examples.h_double Examples.b_float Examples.b_double eq_refl)
    as [Hok _].
  destruct Hok as (i & reg' & _ & Hset & _ & Hkeys & _ & Hfind).
  { left. vm_compute. lia. }
  exists reg'. split; [exact Hset|]. split; [exact Hkeys|exact Hfind].
Defined.

Lemma find_first_match_witness :
  find Examples.h_double
    [(Examples.h_double, Examples.b_double); (Examples.h_float, Examples.b_float)]
  = Examples.b_double ∧
  find Examples.h3
    [(Examples.h_double, Examples.b_double); (Examples.h_float, Examples.b_float)]
  = Buffer_null.
Proof.
  split.
  - destruct (find_first_match Examples.cfg_debug
                [(Examples.h_float, Examples.b_float);
                 (Examples.h_double, Examples.b_double)]
                [(Examples.h_double, Examples.b_double);
                 (Examples.h_float, Examples.b_float)]
                Examples.h_double eq_refl) as (_ & Hfirst & _).
    apply Hfirst. reflexivity.
  - destruct (find_first_match Examples.cfg_debug
                [(Examples.h_float, Examples.b_float);
                 (Examples.h_double, Examples.b_double)]
                [(Examples.h_double, Examples.b_double);
                 (Examples.h_float, Examples.b_float)]
                Examples.h3 eq_refl) as (Habsent & _).
    apply Habsent. apply (bool_decide_unpack _). by vm_compute.
Defined.

(** C7 as stated fails.  Two types with one [typeId] and different sizes,
    and the first registered again, leave its header in the register
    twice.  And with assertions a register that holds
    [cMaxDataBufferCount] entries refuses the [set] for a header that is
    there. *)
Lemma upsert_not_as_stated :
  ¬ one_entry_per_header Examples.cfg_debug
      [(Examples.h_float, Examples.b_float);
       (Examples.h_double, Examples.b_double);
       (Examples.h_float, Examples.b_float)] ∧
  ∃ reg, set_all Examples.cfg_debug Scenarios.calls_64 empty = Returned reg ∧
         Examples.h1 ∈ reg.*1 ∧
         set Examples.cfg_debug Examples.h1 Examples.b_double reg
         = Faulted Aborted.
Proof.
  split.
  - intros H. specialize (H _ eq_refl). vm_compute in H.
    apply NoDup_cons in H as [Hnin _]. apply Hnin. right. left.
  - destruct (set_all Examples.cfg_debug Scenarios.calls_64 empty) as [reg|f]
      eqn:Hrun; [|by vm_compute in Hrun].
    exists reg. split; [done|].
    vm_compute in Hrun. injection Hrun as <-. split.
    + apply (bool_decide_unpack _). by vm_compute.
    + reflexivity.
Qed.

Lemma find_after_sets_witness :
  find Examples.h_float
    [(Examples.h_double, Examples.b_double); (Examples.h_float, Examples.b_float)]
  = Buffer_null ∧
  find Examples.h_double
    [(Examples.h_double, Examples.b_double); (Examples.h_float, Examples.b_float)]
  = Examples.b_double.
Proof.
  split.
  - apply (find_after_sets Examples.cfg_debug
             [(Examples.h_float, Examples.b_float);
              (Examples.h_double, Examples.b_double)]). reflexivity.
  - apply (find_after_sets Examples.cfg_debug
             [(Examples.h_float, Examples.b_float);
              (Examples.h_double, Examples.b_double)]). reflexivity.
Defined.

Lemma register_capacity_witness :
  ∃ reg, set_all Examples.cfg_debug Scenarios.calls_64 empty = Returned reg ∧
         length reg = cMaxDataBufferCount ∧
         set Examples.cfg_debug Examples.h1 Examples.b_double reg
         = Faulted Aborted.
Proof.
  destruct (set_all Examples.cfg_debug Scenarios.calls_64 empty) as [reg|f]
    eqn:Hrun; [|by vm_compute in Hrun].
  exists reg. split; [done|].
  assert (length reg = cMaxDataBufferCount) as Hlen.
  { vm_compute in Hrun. injection Hrun as <-. reflexivity. }
  split; [done|].
  by apply (proj2 (register_capacity Examples.cfg_debug Scenarios.calls_64 reg Hrun)).
Defined.

End RegisterRunFacts.

(** ** The broker at its edges, and under the lifetimes of subscribers *)
Module BrokerEdgeFacts.
Import Broker BrokerFacts.

Section Edges.
Context {Data : Type}.
Variable filter_of : nat -> Data -> bool.

Lemma registered_ids_length st :
  wf st → length (registered_ids st) = N.to_nat (subscriptionCount st).
Proof.
  intros (Hcap & Hlen & Hnull). unfold registered_ids.
  assert (length (registered st) = N.to_nat (subscriptionCount st)) as <-.
  { unfold registered. rewrite length_take. lia. }
  revert Hnull. generalize (registered st). clear.
  induction l as [|[s|] l IH]; intros Hnull; [done| |].
  - cbn. f_equal. apply IH. intros ?. apply Hnull. by right.
  - destruct Hnull. by left.
Qed.

Lemma registered_ids_some st :
  wf st → registered st = Some <$> registered_ids st.
Proof.
  intros (_ & _ & Hnull). unfold registered_ids. revert Hnull.
  generalize (registered st).
  induction l as [|[s|] l IH]; intros Hnull; [done| |].
  - cbn. f_equal. apply IH. intros ?. apply Hnull. by right.
  - destruct Hnull. by left.
Qed.

Lemma filter_some_ids (s : nat) (ids : list nat) :
  filter (λ p, p ≠ Some s) (Some <$> ids) = Some <$> filter (λ x, x ≠ s) ids.
Proof.
  induction ids as [|x ids IH]; [done|].
  rewrite fmap_cons, !filter_cons, IH.
  repeat case_decide; simplify_eq; done.
Qed.

Lemma omap_some_ids (ids : list nat) : omap id (Some <$> ids) = ids.
Proof. induction ids as [|x ids IH]; [done|]. cbn. by f_equal. Qed.

(** An [unsubscribe] of a pointer that is registered exactly once, in any
    build. *)
Lemma unsubscribe_once cfg s st :
  wf st → occurrences (Some s) st = 1 →
  ∃ st', unsubscribe cfg (Some s) st = Returned st' ∧ wf st' ∧
         registered st' = filter (λ p, p ≠ Some s) (registered st).
Proof.
  intros (Hcap & Hlen & Hnull) Hocc.
  unfold unsubscribe, std_remove, assert, occurrences in *.
  rewrite bool_decide_eq_true_2 by lia.
  fold (registered st) in *.
  pose proof (kept_removed (Some s) (registered st)) as Hsplit.
  assert (Hn : length (registered st) = N.to_nat (subscriptionCount st)).
  { unfold registered. rewrite length_take. lia. }
  set (kept := filter (λ p, p ≠ Some s) (registered st)) in *.
  rewrite bool_decide_eq_true_2 by lia.
  assert ((if ndebug cfg then Returned () else Returned ()) = Returned ()) as ->
    by by destruct (ndebug cfg).
  cbn [mbind Outcome_bind Build.bind].
  eexists. split; [done|].
  assert (Hcount : uint32_wrap (Z.of_N (subscriptionCount st) - 1)
                   = (subscriptionCount st - 1)%N).
  { unfold cMaxSubscriptions in *. rewrite uint32_wrap_small; lia. }
  assert (Hreg : take (N.to_nat (subscriptionCount st - 1))
                   ((kept ++ drop (length kept) (registered st))
                    ++ drop (N.to_nat (subscriptionCount st)) (subscriptions st))
                 = kept).
  { rewrite <- app_assoc. rewrite take_app_length'; [done|lia]. }
  unfold wf. rewrite !registered_mk.
  cbn [subscriptionCount subscriptions].
  rewrite Hcount, Hreg, !length_app, !length_drop.
  split_and!; try lia; [|done].
  intros Hin. apply Hnull. by apply list_elem_of_filter in Hin as [_ ?].
Qed.

Lemma occurrences_ids s st :
  wf st →
  occurrences (Some s) st = length (filter (λ x, x = s) (registered_ids st)).
Proof.
  intros Hwf. unfold occurrences. rewrite (registered_ids_some st Hwf).
  generalize (registered_ids st).
  induction l as [|x l IH]; [done|].
  rewrite fmap_cons, !filter_cons.
  repeat case_decide; simplify_eq; cbn [length]; by rewrite IH.
Qed.

Lemma count_absent (s : nat) (ids : list nat) :
  s ∉ ids → filter (λ x, x = s) ids = [].
Proof.
  induction ids as [|x ids IH]; [done|].
  rewrite not_elem_of_cons. intros [Hne Hnin].
  rewrite filter_cons, decide_False by done. by apply IH.
Qed.

Lemma count_once (s : nat) (ids : list nat) :
  NoDup ids → s ∈ ids → length (filter (λ x, x = s) ids) = 1.
Proof.
  induction 1 as [|x ids Hx Hnd IH]; [by intros ?%elem_of_nil|].
  rewrite filter_cons. intros [->|Hin]%elem_of_cons.
  - rewrite decide_True by done. cbn [length]. by rewrite count_absent.
  - rewrite decide_False by (intros ->; done). by apply IH.
Qed.

Lemma registered_ids_snoc st st' s :
  registered st' = registered st ++ [Some s] →
  registered_ids st' = registered_ids st ++ [s].
Proof. unfold registered_ids. intros ->. by rewrite omap_app. Qed.

Lemma registered_ids_filter st st' s :
  wf st → registered st' = filter (λ p, p ≠ Some s) (registered st) →
  registered_ids st' = filter (λ x, x ≠ s) (registered_ids st).
Proof.
  intros Hwf Hreg. unfold registered_ids at 1.
  by rewrite Hreg, (registered_ids_some st Hwf), filter_some_ids, omap_some_ids.
Qed.

(** A run of lifetimes keeps the table in step with the live objects. *)
Lemma run_lifetimes cfg ops st :
  wf st → NoDup (registered_ids st) →
  Subscribe.lifetimes ops (registered_ids st) →
  ∃ st', Subscribe.run cfg ops st = Returned st' ∧ wf st' ∧
         registered_ids st' = Subscribe.alive ops (registered_ids st) ∧
         NoDup (registered_ids st').
Proof.
  revert st. induction ops as [|[s|s] ops IH]; intros st Hwf Hnd Hlife.
  - by exists st.
  - destruct Hlife as (Hnew & Hroom & Hlife).
    destruct (subscribe_spec cfg s st Hwf) as (st1 & Hsub & Hwf1 & Hreg1).
    { rewrite <- registered_ids_length by done. done. }
    apply registered_ids_snoc in Hreg1.
    destruct (IH st1) as (st' & Hrun & Hwf' & Hids & Hnd'); [done| |by rewrite Hreg1|].
    { rewrite Hreg1. apply NoDup_app. split_and!; [done| |apply NoDup_singleton].
      intros x Hx ->%list_elem_of_singleton. done. }
    exists st'. cbn [Subscribe.run Subscribe.step Subscribe.alive].
    rewrite Hsub. cbn [mbind Outcome_bind Build.bind]. by rewrite <- Hreg1.
  - destruct Hlife as (Hlive & Hlife).
    destruct (unsubscribe_once cfg s st Hwf) as (st1 & Hun & Hwf1 & Hreg1).
    { rewrite occurrences_ids by done. by apply count_once. }
    apply registered_ids_filter in Hreg1; [|done].
    destruct (IH st1) as (st' & Hrun & Hwf' & Hids & Hnd'); [done| |by rewrite Hreg1|].
    { rewrite Hreg1. by apply NoDup_filter. }
    exists st'. cbn [Subscribe.run Subscribe.step Subscribe.alive].
    rewrite Hun. cbn [mbind Outcome_bind Build.bind]. by rewrite <- Hreg1.
Qed.

(** Subscriber objects come and go, never more than [cMaxSubscriptions] of
    them alive: in every build the constructors and destructors return,
    and a publish then visits exactly the objects alive, in the order of
    their construction. *)
Theorem publish_reaches_the_living cfg ops :
  Subscribe.lifetimes ops [] →
  ∃ st, Subscribe.run cfg ops State_init = Returned st ∧
        registered_ids st = Subscribe.alive ops [] ∧
        ∀ data, publish filter_of cfg st data
                = Returned (flat_map (visit filter_of data)
                              (Subscribe.alive ops [])).
Proof.
  intros Hlife.
  destruct (run_lifetimes cfg ops State_init) as (st & Hrun & Hwf & Hids & _);
    [apply wf_init|constructor|done|].
  exists st. split_and!; [done|done|].
  intros data. rewrite publish_spec by done. by rewrite Hids.
Qed.

Lemma kept_all (v : option nat) (l : list (option nat)) :
  filter (λ p, p = v) l = [] → filter (λ p, p ≠ v) l = l.
Proof.
  induction l as [|p l IH]; [done|]. rewrite !filter_cons.
  destruct (decide (p = v)) as [->|Hne].
  - done.
  - rewrite decide_True by done. intros H. f_equal. by apply IH.
Qed.

(** A table that is full takes no further subscriber: with assertions the
    constructor aborts, without them it stores past the end of the table. *)
Theorem subscribe_when_full cfg p st :
  wf st → N.to_nat (subscriptionCount st) = cMaxSubscriptions →
  subscribe cfg p st
  = Faulted (if sub0pub_assert cfg && negb (ndebug cfg) then Aborted
             else Undefined).
Proof.
  intros (Hcap & Hlen & Hnull) Hfull. unfold subscribe, onSubscription, assert.
  rewrite (bool_decide_eq_false_2 (_ < cMaxSubscriptions)) by lia.
  rewrite bool_decide_eq_false_2 by lia.
  destruct (sub0pub_assert cfg), (ndebug cfg); cbn; try done.
  by case_bool_decide.
Qed.

(** Without assertions, an [unsubscribe] of a pointer that is not
    registered leaves the table as it is and still lowers the count: the
    subscriber that registered last is no longer published to; and on an
    empty table the count wraps around. *)
Theorem unsubscribe_stranger cfg s st :
  ndebug cfg = true → wf st → occurrences (Some s) st = 0 →
  ∃ st', unsubscribe cfg (Some s) st = Returned st' ∧
         subscriptions st' = subscriptions st ∧
         subscriptionCount st'
         = uint32_wrap (Z.of_N (subscriptionCount st) - 1) ∧
         (subscriptionCount st ≠ 0%N →
          registered_ids st' = removelast (registered_ids st)) ∧
         (subscriptionCount st = 0%N →
          subscriptionCount st' = (2 ^ 32 - 1)%N).
Proof.
  intros Hrel Hwf Hocc. pose proof Hwf as (Hcap & Hlen & Hnull).
  unfold unsubscribe, std_remove, assert, occurrences in *.
  rewrite Hrel, bool_decide_eq_true_2 by lia.
  fold (registered st) in *.
  pose proof (kept_removed (Some s) (registered st)) as Hsplit.
  apply length_zero_iff_nil in Hocc. rewrite Hocc in Hsplit.
  cbn [length] in Hsplit.
  pose proof (kept_all (Some s) (registered st) Hocc) as Hkept.
  rewrite Hkept. cbn [mbind Outcome_bind Build.bind].
  eexists. split; [done|]. cbn [subscriptions subscriptionCount].
  assert (drop (length (registered st)) (registered st) = []) as ->
    by (by apply drop_all).
  rewrite app_nil_r.
  assert (registered st ++ drop (N.to_nat (subscriptionCount st)) (subscriptions st)
          = subscriptions st) as Hsubs by apply take_drop.
  rewrite Hsubs.
  split_and!; [done|done| |].
  - intros Hpos. unfold registered_ids, registered.
    cbn [subscriptions subscriptionCount].
    rewrite uint32_wrap_small by (unfold cMaxSubscriptions in *; lia).
    replace (N.to_nat (Z.to_N (Z.of_N (subscriptionCount st) - 1)))
      with (N.to_nat (subscriptionCount st) - 1) by lia.
    pose proof (registered_ids_some st Hwf) as Hsome.
    unfold registered in Hsome at 1.
    assert (take (N.to_nat (subscriptionCount st) - 1) (subscriptions st)
            = Some <$> removelast (registered_ids st)) as ->.
    { rewrite removelast_firstn_len, fmap_take, <- Hsome, take_take.
      rewrite registered_ids_length by done. f_equal. lia. }
    apply omap_some_ids.
  - intros ->. done.
Qed.

Lemma wf_broker_full : wf Scenarios.broker_full.
Proof.
  unfold wf. split_and!; [done|by vm_compute|].
  apply (bool_decide_unpack _). by vm_compute.
Qed.

End Edges.

Lemma publish_reaches_the_living_witness :
  Subscribe.alive Scenarios.come_and_go [] = [2; 3] ∧
  ∃ st, Subscribe.run Examples.cfg_release Scenarios.come_and_go State_init
        = Returned st ∧
        publish Examples.even_for_odd Examples.cfg_release st 3
        = Returned [Filter 2 3; Receive 2 3; Filter 3 3].
Proof.
  split; [reflexivity|].
  destruct (publish_reaches_the_living Examples.even_for_odd
              Examples.cfg_release Scenarios.come_and_go)
    as (st & Hrun & _ & Hpub).
  - cbn. split_and!; try done; try lia;
      apply (bool_decide_unpack _); by vm_compute.
  - exists st. split; [exact Hrun|]. by rewrite Hpub.
Defined.

Lemma subscribe_when_full_witness :
  subscribe Examples.cfg_debug (Some 9) Scenarios.broker_full = Faulted Aborted ∧
  subscribe Examples.cfg_release (Some 9) Scenarios.broker_full
  = Faulted Undefined.
Proof.
  split.
  - apply (subscribe_when_full Examples.cfg_debug (Some 9) Scenarios.broker_full);
      [exact wf_broker_full|reflexivity].
  - apply (subscribe_when_full Examples.cfg_release (Some 9) Scenarios.broker_full);
      [exact wf_broker_full|reflexivity].
Defined.

Lemma unsubscribe_stranger_witness :
  ∃ st', unsubscribe Examples.cfg_release (Some 9) Examples.broker123
         = Returned st' ∧
         registered_ids st' = [1; 2].
Proof.
  destruct (unsubscribe_stranger Examples.cfg_release 9 Examples.broker123)
    as (st' & Hun & _ & _ & Hlast & _).
  - reflexivity.
  - exact wf_broker123.
  - reflexivity.
  - exists st'. split; [exact Hun|]. by rewrite Hlast.
Defined.

End BrokerEdgeFacts.

(** ** FourCC, hash, the bytes of a header, and the names of a type *)
Module UtilityFacts.
Import Utility.

Local Open Scope Z_scope.

Lemma uint32_wrap_mod (z : Z) :
  Z.of_N (Broker.uint32_wrap z) = z mod 2 ^ 32.
Proof.
  unfold Broker.uint32_wrap. rewrite Z2N.id; [done|].
  apply Z.mod_pos_bound. lia.
Qed.

Lemma hash_step_mod sc h c :
  Z.of_N (hash_step sc h c) = (33 * Z.of_N h + char_value sc c) mod 2 ^ 32.
Proof.
  unfold hash_step. rewrite !uint32_wrap_mod.
  rewrite Z.shiftl_mul_pow2 by lia.
  rewrite Zplus_mod_idemp_l, <- Z.add_assoc, Zplus_mod_idemp_l.
  f_equal. change (2 ^ 5) with 32. lia.
Qed.

Lemma djb2_from_mod sc (s : list byte) (a : Z) :
  foldl (λ h c, 33 * h + char_value sc c) (a mod 2 ^ 32) s mod 2 ^ 32
  = foldl (λ h c, 33 * h + char_value sc c) a s mod 2 ^ 32.
Proof.
  revert a. induction s as [|c s IH]; intros a; cbn [foldl].
  { by rewrite Zmod_mod. }
  rewrite <- (IH (33 * (a mod 2 ^ 32) + _)), <- (IH (33 * a + _)).
  assert ((33 * (a mod 2 ^ 32) + char_value sc c) mod 2 ^ 32
          = (33 * a + char_value sc c) mod 2 ^ 32) as ->; [|done].
  rewrite (Z.add_mod (33 * (a mod 2 ^ 32))), Z.mul_mod_idemp_r by lia.
  by rewrite <- Z.add_mod by lia.
Qed.

Lemma hash_step_bound sc h c : (hash_step sc h c < 2 ^ 32)%N.
Proof.
  pose proof (hash_step_mod sc h c) as H.
  pose proof (Z.mod_pos_bound (33 * Z.of_N h + char_value sc c) (2 ^ 32)).
  change (2 ^ 32)%N with 4294967296%N. change (2 ^ 32) with 4294967296 in *.
  lia.
Qed.

Lemma hash_loop_spec sc (s rest : list byte) (h : N) :
  (h < 2 ^ 32)%N → x00 ∉ s →
  hash_loop sc (s ++ x00 :: rest) h
  = Returned (Broker.uint32_wrap
                (foldl (λ h c, 33 * h + char_value sc c) (Z.of_N h) s)).
Proof.
  revert h. induction s as [|c s IH]; intros h Hh Hs; cbn [app hash_loop foldl].
  { rewrite bool_decide_eq_false_2 by (by intros []). f_equal.
    unfold Broker.uint32_wrap. rewrite Z.mod_small, N2Z.id; [done|].
    change (2 ^ 32)%N with 4294967296%N in Hh. change (2 ^ 32) with 4294967296.
    lia. }
  apply not_elem_of_cons in Hs as [Hc Hs].
  rewrite bool_decide_eq_true_2 by done.
  rewrite IH by (done || apply hash_step_bound). f_equal.
  unfold Broker.uint32_wrap. f_equal.
  by rewrite hash_step_mod, djb2_from_mod.
Qed.

(** [hash] is the djb2 sum: over the bytes in front of the first zero byte,
    whatever follows it, the three wrapping operations of every round come
    to [hash * 33 + c] taken once modulo 2^32 at the end; and over an array
    without a zero byte the loop runs off its end. *)
Theorem hash_is_djb2 sc (s rest : list byte) :
  x00 ∉ s →
  hash sc (s ++ x00 :: rest) = Returned (Broker.uint32_wrap (djb2 sc s)) ∧
  hash sc s = Faulted Undefined.
Proof.
  intros Hs. split.
  - unfold hash, djb2. by rewrite hash_loop_spec.
  - unfold hash. generalize 5381%N. induction s as [|c s IH]; intros h; [done|].
    apply not_elem_of_cons in Hs as [Hc Hs]. cbn [hash_loop].
    rewrite bool_decide_eq_true_2 by done. by apply IH.
Qed.

Local Close Scope Z_scope.
Local Open Scope N_scope.

Lemma low_bits_above (a n : N) : a < 2 ^ 8 → 8 ≤ n → N.testbit a n = false.
Proof.
  intros Ha Hn. destruct (decide (a = 0)) as [->|Hpos]; [apply N.bits_0|].
  apply N.bits_above_log2.
  assert (N.log2 a < 8); [|lia]. apply N.log2_lt_pow2; [lia|done].
Qed.

Lemma lor_shiftl_8 (x a : N) : a < 2 ^ 8 → N.lor (N.shiftl x 8) a = x * 2 ^ 8 + a.
Proof.
  intros Ha. rewrite <- N.shiftl_mul_pow2.
  assert (N.land (N.shiftl x 8) a = 0) as Hdisjoint.
  { apply N.bits_inj. intros n. rewrite N.land_spec, N.bits_0.
    destruct (decide (n < 8)) as [Hn|Hn].
    - by rewrite N.shiftl_spec_low.
    - rewrite (low_bits_above a n) by (done || lia). apply andb_false_r. }
  by rewrite <- N.lxor_lor, <- N.add_nocarry_lxor.
Qed.

Lemma FourCC_sum a b c d :
  a < 2 ^ 8 → b < 2 ^ 8 → c < 2 ^ 8 →
  FourCC a b c d = ((d * 2 ^ 8 + c) * 2 ^ 8 + b) * 2 ^ 8 + a.
Proof. intros Ha Hb Hc. unfold FourCC. by rewrite !lor_shiftl_8. Qed.

Lemma byte_of_N_add (x a : N) : byte_of_N (x * 2 ^ 8 + a) = byte_of_N a.
Proof.
  unfold byte_of_N. f_equal. f_equal. change (2 ^ 8) with 256.
  rewrite N.add_comm. by rewrite N.Div0.mod_add.
Qed.

Lemma div_add_256 (x a : N) : a < 2 ^ 8 → (x * 2 ^ 8 + a) / 2 ^ 8 = x.
Proof.
  intros Ha. change (2 ^ 8) with 256 in *.
  rewrite N.add_comm, N.div_add by lia. rewrite N.div_small by done. lia.
Qed.

(** [FourCC<a,b,c,d>::value] is the 32-bit value whose four bytes in
    memory, least significant first, are [a], [b], [c] and [d]: as the
    prefix of a frame it reads [a b c d] on the wire, and it is read back
    from these bytes. *)
Theorem FourCC_bytes a b c d :
  a < 2 ^ 8 → b < 2 ^ 8 → c < 2 ^ 8 → d < 2 ^ 8 →
  FourCC a b c d < 2 ^ 32 ∧
  uint32_bytes (FourCC a b c d)
  = [byte_of_N a; byte_of_N b; byte_of_N c; byte_of_N d] ∧
  uint32_of_bytes [byte_of_N a; byte_of_N b; byte_of_N c; byte_of_N d]
  = FourCC a b c d.
Proof.
  intros Ha Hb Hc Hd. rewrite FourCC_sum by done.
  assert (Hbytes :
    uint32_bytes (((d * 2 ^ 8 + c) * 2 ^ 8 + b) * 2 ^ 8 + a)
    = [byte_of_N a; byte_of_N b; byte_of_N c; byte_of_N d]).
  { unfold uint32_bytes.
    replace (2 ^ 16) with (2 ^ 8 * 2 ^ 8) by done.
    replace (2 ^ 24) with (2 ^ 8 * 2 ^ 8 * 2 ^ 8) by done.
    rewrite <- !N.Div0.div_div.
    rewrite byte_of_N_add, !div_add_256 by done.
    rewrite !byte_of_N_add.
    replace d with (0 * 2 ^ 8 + d) at 1 by lia. done. }
  assert (Hlt : ((d * 2 ^ 8 + c) * 2 ^ 8 + b) * 2 ^ 8 + a < 2 ^ 32).
  { change (2 ^ 8) with 256 in *. change (2 ^ 32) with 4294967296. lia. }
  split_and!; [done|done|].
  rewrite <- Hbytes. by apply WireFacts.uint32_roundtrip.
Qed.

Lemma byte_of_to_N (b : byte) : byte_of_N (Byte.to_N b) = b.
Proof. by destruct b. Qed.

Lemma to_N_low (b : byte) : Byte.to_N b < 2 ^ 8.
Proof. pose proof (Byte.to_N_bounded b). change (2 ^ 8) with 256. lia. Qed.

Lemma uint32_bytes_of_bytes b0 b1 b2 b3 :
  uint32_bytes (uint32_of_bytes [b0; b1; b2; b3]) = [b0; b1; b2; b3] ∧
  uint32_of_bytes [b0; b1; b2; b3] < 2 ^ 32.
Proof.
  cbn [uint32_of_bytes].
  pose proof (to_N_low b0). pose proof (to_N_low b1).
  pose proof (to_N_low b2). pose proof (to_N_low b3).
  replace (Byte.to_N b0 + 2 ^ 8 * (Byte.to_N b1 + 2 ^ 8 * (Byte.to_N b2
             + 2 ^ 8 * (Byte.to_N b3 + 2 ^ 8 * 0))))
    with (((Byte.to_N b3 * 2 ^ 8 + Byte.to_N b2) * 2 ^ 8 + Byte.to_N b1) * 2 ^ 8
          + Byte.to_N b0) by lia.
  split.
  - unfold uint32_bytes.
    replace (2 ^ 16) with (2 ^ 8 * 2 ^ 8) by done.
    replace (2 ^ 24) with (2 ^ 8 * 2 ^ 8 * 2 ^ 8) by done.
    rewrite <- !N.Div0.div_div.
    rewrite byte_of_N_add, !div_add_256 by done.
    rewrite !byte_of_N_add. by rewrite !byte_of_to_N.
  - change (2 ^ 8) with 256 in *. change (2 ^ 32) with 4294967296. lia.
Qed.

(** The eight bytes of a header and the header held by eight bytes are
    inverse to each other: what the writer puts on the wire for a header is
    read back as that header, and every eight bytes are the bytes of the
    header they are read as. *)
Theorem header_bytes_inverse :
  (∀ h, Header.valid h →
        length (Header.bytes h) = Header.size ∧
        Header.of_bytes (Header.bytes h) = h) ∧
  (∀ bs, length bs = Header.size →
         Header.valid (Header.of_bytes bs) ∧
         Header.bytes (Header.of_bytes bs) = bs).
Proof.
  split.
  - intros h Hh. split; [done|by apply WireFacts.Header_roundtrip].
  - intros bs Hbs.
    destruct bs as [|b0 [|b1 [|b2 [|b3 [|b4 [|b5 [|b6 [|b7 [|]]]]]]]]];
      try done.
    unfold Header.of_bytes, Header.bytes, Header.valid.
    cbn [take drop Header.typeId Header.dataBytes].
    destruct (uint32_bytes_of_bytes b0 b1 b2 b3) as [-> ?].
    destruct (uint32_bytes_of_bytes b4 b5 b6 b7) as [-> ?]. done.
Qed.

Lemma hash_is_djb2_witness :
  hash false Scenarios.abc = Returned 193485963%N ∧
  hash true Scenarios.abc = Returned 193485963%N.
Proof.
  split.
  - apply (proj1 (hash_is_djb2 false ["a"; "b"; "c"]%byte ["x"; "y"]%byte
                    ltac:(apply (bool_decide_unpack _); by vm_compute))).
  - apply (proj1 (hash_is_djb2 true ["a"; "b"; "c"]%byte ["x"; "y"]%byte
                    ltac:(apply (bool_decide_unpack _); by vm_compute))).
Defined.

Lemma FourCC_bytes_witness :
  uint32_bytes (FourCC 83 85 66 48) = ["S"; "U"; "B"; "0"]%byte.
Proof.
  apply (proj1 (proj2 (FourCC_bytes 83 85 66 48 ltac:(done) ltac:(done)
                         ltac:(done) ltac:(done)))).
Defined.

End UtilityFacts.

(** ** The names of a type *)
Module NameFacts.
Import BrokerName.

Lemma setDataName_step cfg id name st st' :
  ndebug cfg = false → setDataName cfg id name st = Returned st' →
  typeId st' = (if decide (id = 0%N) then typeId st else id) ∧
  (id ≠ 0%N → typeId st ≠ 0%N → typeId st = id) ∧
  typeName st' = (match name with Some n => Some n | None => typeName st end) ∧
  (∀ n, name = Some n → typeName st ≠ None → typeName st = Some n).
Proof.
  intros Hdbg. unfold setDataName, assert. rewrite Hdbg.
  destruct (decide (id = 0%N)) as [->|Hid].
  - rewrite bool_decide_eq_false_2 by (by intros []).
    cbn [mbind Outcome_bind Build.bind].
    destruct name as [n|].
    + case_bool_decide as Hn; [|done]. cbn [mbind Outcome_bind Build.bind].
      intros [= <-]. cbn. split_and!; [done|done|done|].
      intros n' [= <-] Hset. by destruct Hn.
    + intros [= <-]. done.
  - rewrite bool_decide_eq_true_2 by done.
    case_bool_decide as Hi; [|done]. cbn [mbind Outcome_bind Build.bind].
    destruct name as [n|].
    + cbn [typeName]. case_bool_decide as Hn; [|done].
      cbn [mbind Outcome_bind Build.bind].
      intros [= <-]. cbn. split_and!; [done| |done|].
      * intros _ Hset. by destruct Hi.
      * intros n' [= <-] Hset. by destruct Hn.
    + intros [= <-]. cbn. split_and!; [done| |done|done].
      intros _ Hset. by destruct Hi.
Qed.

(** With assertions, the identifier and the name of a type are fixed by
    the first handle that gives one: every later call that returns gave
    the same identifier or none, and the same name or none; a call with
    another identifier or name fails its assertion. *)
Theorem names_fixed_by_first cfg calls st st' :
  ndebug cfg = false →
  setDataName_all cfg calls st = Returned st' →
  (typeId st ≠ 0%N → typeId st' = typeId st) ∧
  (typeName st ≠ None → typeName st' = typeName st) ∧
  (∀ id name, (id, name) ∈ calls → id ≠ 0%N → typeId st' = id) ∧
  (∀ id n, (id, Some n) ∈ calls → typeName st' = Some n).
Proof.
  intros Hdbg. revert st.
  induction calls as [|[id name] calls IH]; intros st.
  { intros [= <-]. split_and!; [done|done|..]; by intros ? ? ?%elem_of_nil. }
  cbn [setDataName_all].
  destruct (setDataName cfg id name st) as [st1|] eqn:Hstep; [|done].
  cbn [mbind Outcome_bind Build.bind]. intros Hrest.
  apply (setDataName_step _ _ _ _ _ Hdbg) in Hstep as (Hid1 & Hid & Hn1 & Hn).
  destruct (IH _ Hrest) as (IHid & IHn & IHids & IHns).
  split_and!.
  - intros Hset. rewrite IHid; rewrite Hid1; case_decide; auto.
    symmetry. auto.
  - intros Hset. rewrite IHn; rewrite Hn1; destruct name; auto.
    symmetry. auto.
  - intros id' name' [[= -> ->]|Hin]%elem_of_cons Hpos; [|by eapply IHids].
    rewrite IHid; rewrite Hid1; by rewrite decide_False.
  - intros id' n' [[= -> <-]|Hin]%elem_of_cons; [|by eapply IHns].
    cbv beta iota in Hn1. rewrite IHn; by rewrite Hn1.
Qed.

Lemma names_fixed_by_first_witness :
  setDataName_all Examples.cfg_debug
    [(0%N, None); (100%N, Some "float"%string); (100%N, None)]
    {| typeId := 0; typeName := None |}
  = Returned {| typeId := 100; typeName := Some "float"%string |} ∧
  setDataName Examples.cfg_debug 101 None
    {| typeId := 100; typeName := Some "float"%string |}
  = Faulted Aborted.
Proof.
  split; [|reflexivity].
  destruct (setDataName_all Examples.cfg_debug
              [(0%N, None); (100%N, Some "float"%string); (100%N, None)]
              {| typeId := 0; typeName := None |}) as [st|f] eqn:Hrun;
    [|by vm_compute in Hrun].
  destruct (names_fixed_by_first Examples.cfg_debug _ _ _ eq_refl Hrun)
    as (_ & _ & Hid & Hname).
  destruct st as [id name]. cbn [typeId typeName] in *.
  rewrite (Hid 100%N None) by (done || set_solver).
  by rewrite (Hname 100%N "float"%string) by set_solver.
Defined.

End NameFacts.

(** ** Registration with the reader, polls and close *)
Module DeserializerFacts.
Import BinaryReader Streams StreamDeserializer ReaderFacts StreamFacts.
Import RegisterRuns RegisterFacts RegisterRunFacts.

















(** Bytes that are on the stream when the first chunk arrives are read with
    it. *)
Lemma feed_leftover cfg proto c chunks r w :
  feed cfg proto (c :: chunks) (r, w)
  = feed cfg proto ((stream w ++ c) :: chunks) (r, with_stream [] w).
Proof. by destruct w. Qed.

(** [close] from any state, and after any error: the reader is as
    constructed, but for its register and the content of its members; the
    stream is not touched.  For a protocol without prefix the reader is
    then at a frame boundary of whatever comes next: if the bytes left on
    the stream, followed by the chunks that arrive, are the frames of
    messages with registered buffers, these are read and published, in
    order. *)
Theorem close_resynchronises cfg proto r w msgs c chunks :
  let r' := MkReader (dataBufferRegistery_ r) Buffer_null State.Prefix
              (prefix_ r) (header_ r) (postfix_ r) in
  close (r, w) = (Returned tt, (r', w)) ∧
  (Prefix_t proto = None → members_sized proto r →
   Forall (receivable (dataBufferRegistery_ r) (heap w)) msgs →
   stream w ++ c ≠ [] → Forall (λ c, c ≠ []) chunks →
   stream w ++ c ++ concat chunks = wire proto msgs →
   ∃ t, feed cfg proto (c :: chunks) (r', w) = (Returned false, t) ∧
        published t.2
        = published w ++ map (event (dataBufferRegistery_ r)) msgs ∧
        stream t.2 = []).
Proof.
  intros r'. split; [by destruct r|].
  intros Hvoid Hsized Hall Hc Hchunks Heq.
  assert (Prefix_t proto ≠ Some []) as Hwf by (by rewrite Hvoid).
  assert (synced proto r') as Hsync by (right; by rewrite Hvoid).
  rewrite feed_leftover.
  destruct (feed_wire cfg proto r' (with_stream [] w) msgs
              ((stream w ++ c) :: chunks))
    as (t & Hfeed & Hp & _ & Hst & _); try done.
  - by apply Forall_cons_2.
  - cbn [concat]. by rewrite <- app_assoc.
  - by exists t.
Qed.

(** *** What a poll keeps *)

Lemma keeps_refl s : keeps s s.
Proof.
  unfold keeps. split_and!; try done; [by exists 0|exists []].
  by rewrite app_nil_r.
Qed.

Lemma keeps_trans s t u : keeps s t → keeps t u → keeps s u.
Proof.
  intros (Hr1 & (Hp1 & Hh1 & Hq1) & Hk1 & [n1 Hs1] & [c1 Hc1])
         (Hr2 & (Hp2 & Hh2 & Hq2) & Hk2 & [n2 Hs2] & [c2 Hc2]).
  unfold keeps. split_and!; [congruence..| | |].
  - intros k. by rewrite Hk2, Hk1.
  - exists (n1 + n2). by rewrite Hs2, Hs1, drop_drop.
  - exists (c1 ++ c2). by rewrite Hc2, Hc1, app_assoc.
Qed.

Lemma store_object_keeps a bs s s' :
  store_object a bs s = Some s' → keeps s s'.
Proof.
  destruct s as [r w]. unfold store_object.
  destruct a as [[| | |k] off]; cbn [fst snd];
    intros H; apply bind_Some in H as (x & Hx & H).
  1-3: simplify_eq; apply store_at_length in Hx;
    unfold keeps; cbn [fst snd dataBufferRegistery_ prefix_ header_ postfix_];
    split_and!; try done; [by exists 0|exists []; by rewrite app_nil_r].
  apply bind_Some in H as (y & Hy & H). simplify_eq.
  apply store_at_length in Hy.
  unfold keeps; cbn [fst snd heap stream published].
  split_and!; try done; [|by exists 0|exists []; by rewrite app_nil_r].
  intros k'. destruct (decide (k' = k)) as [->|Hne].
  - rewrite lookup_insert_eq, Hx. cbn. by rewrite Hy.
  - by rewrite lookup_insert_ne.
Qed.

Lemma store_keeps p bs s s' : store p bs s = Some s' → keeps s s'.
Proof.
  unfold store. case_bool_decide; [intros [= <-]; apply keeps_refl|].
  destruct p; [apply store_object_keeps|done].
Qed.

Lemma keeps_buffer s b : keeps s (with_currentBuffer b s.1, s.2).
Proof.
  destruct s as [[] w]. unfold keeps. cbn.
  split_and!; try done; [by exists 0|exists []; by rewrite app_nil_r].
Qed.

Lemma keeps_state s st : keeps s (with_state st s.1, s.2).
Proof.
  destruct s as [[] w]. unfold keeps. cbn.
  split_and!; try done; [by exists 0|exists []; by rewrite app_nil_r].
Qed.

Lemma keeps_drop r w n : keeps (r, w) (r, with_stream (drop n (stream w)) w).
Proof.
  unfold keeps. cbn. split_and!; try done; [by exists n|exists []].
  by rewrite app_nil_r.
Qed.

Lemma keeps_signalled r w k : keeps (r, w) (r, signalled k w).
Proof.
  unfold keeps. cbn. split_and!; try done; [by exists 0|by eexists].
Qed.

Lemma readBuffer_buffer_keeps s o t : readBuffer_buffer s = (o, t) → keeps s t.
Proof.
  destruct s as [r w]. rewrite buffer_spec.
  destruct (store _ _ _) as [[r1 w1]|] eqn:Hst.
  - intros [= <- <-]. apply store_keeps in Hst.
    eapply keeps_trans; [apply keeps_drop|].
    eapply keeps_trans; [exact Hst|]. apply (keeps_buffer (r1, w1)).
  - intros [= <- <-]. apply keeps_drop.
Qed.

Lemma readBuffer_padding_keeps s o t : readBuffer_padding s = (o, t) → keeps s t.
Proof.
  destruct s as [r w]. rewrite padding_spec. intros [= <- <-].
  eapply keeps_trans; [apply keeps_drop|].
  apply (keeps_buffer (r, _)).
Qed.

Lemma stateComplete_keeps cfg proto s o t :
  stateComplete cfg proto s = (o, t) → keeps s t.
Proof.
  destruct s as [r w]. rewrite stateComplete_spec, nextState_spec.
  assert (∀ st b w', keeps (r, w') (with_currentBuffer b (with_state st r), w'))
    as Hmove.
  { intros st b w'. eapply keeps_trans; [apply (keeps_state (r, w') st)|].
    apply (keeps_buffer (_, w')). }
  destruct (getStateStatus proto (state_ r) r).
  - destruct (signals proto (state_ r)).
    + destruct (publisher (currentBuffer_ r)) as [k|].
      * cbv zeta. case_bool_decide; [destruct (raise cfg _)|];
          intros [= <- <-];
          (eapply keeps_trans; [apply keeps_signalled|apply Hmove]).
      * destruct (ndebug cfg); [|intros [= <- <-]; apply keeps_refl].
        cbv zeta. case_bool_decide; [destruct (raise cfg _)|];
          intros [= <- <-]; apply Hmove.
    + cbv zeta. case_bool_decide; [destruct (raise cfg _)|];
        intros [= <- <-]; apply Hmove.
  - destruct (raise cfg _); intros [= <- <-];
      [apply (keeps_state (r, w))|apply keeps_refl].
Qed.

Lemma readBuffer_keeps cfg proto s o t :
  readBuffer cfg proto s = (o, t) → keeps s t.
Proof.
  unfold readBuffer. unfold_M.
  destruct (readBuffer_buffer s) as [[b1|f] s1] eqn:H1;
    apply readBuffer_buffer_keeps in H1; [|by intros [= <- <-]].
  destruct b1; cbn [negb]; [|by intros [= <- <-]].
  destruct (readBuffer_padding s1) as [[b2|f] s2] eqn:H2;
    apply readBuffer_padding_keeps in H2;
    [|intros [= <- <-]; by eapply keeps_trans].
  destruct b2; cbn [negb]; [|intros [= <- <-]; by eapply keeps_trans].
  intros H3%stateComplete_keeps.
  eapply keeps_trans; [|exact H3]. by eapply keeps_trans.
Qed.

Lemma read_loop_keeps cfg proto n s o t :
  read_loop cfg proto n s = (o, t) → keeps s t.
Proof.
  revert s. induction n as [|n IH]; intros s; cbn [read_loop]; unfold_M.
  { intros [= <- <-]. apply keeps_refl. }
  destruct (readBuffer cfg proto s) as [[[] |f] s1] eqn:H1;
    apply readBuffer_keeps in H1; [|by intros [= <- <-]..].
  case_bool_decide; [by intros [= <- <-]|].
  intros Hrest%IH. by eapply keeps_trans.
Qed.

(** Whatever a poll does and however it ends, it leaves the register as it
    is, resizes neither a member nor a landing buffer, takes bytes from the
    front of the stream only, and takes back no call it has made. *)
Theorem poll_keeps cfg proto s o t :
  read cfg proto s = (o, t) → keeps s t.
Proof.
  unfold read. unfold_M.
  destruct (read_loop cfg proto 4 s) as [[[b|]|f] s1] eqn:H;
    apply read_loop_keeps in H; by intros [= <- <-].
Qed.




Lemma close_resynchronises_witness :
  state_ Scenarios.stuck_reader.1 = State.Postfix ∧
  stream Scenarios.stuck_reader.2 = take 5 (Examples.wire_pi Examples.sub0_noprefix) ∧
  ∃ r' t,
    close Scenarios.stuck_reader = (Returned tt, (r', Scenarios.stuck_reader.2)) ∧
    feed Examples.cfg_debug Examples.sub0_noprefix
      [drop 5 (Examples.wire_pi Examples.sub0_noprefix);
       BinaryWriter.frame Examples.sub0_noprefix Scenarios.ab]
      (r', Scenarios.stuck_reader.2)
    = (Returned false, t) ∧
    published t.2 = [(7, object_bytes Examples.pi); (9, object_bytes Scenarios.ab)].
Proof.
  split; [by vm_compute|]. split; [by vm_compute|].
  pose proof (close_resynchronises Examples.cfg_debug Examples.sub0_noprefix
                Scenarios.stuck_reader.1 Scenarios.stuck_reader.2
                [Examples.pi; Scenarios.ab]
                (drop 5 (Examples.wire_pi Examples.sub0_noprefix))
                [BinaryWriter.frame Examples.sub0_noprefix Scenarios.ab]) as H.
  cbv zeta in H. destruct H as (Hclose & Hfeed).
  destruct Hfeed as (t & Hfeed & Hp & _).
  - reflexivity.
  - by vm_compute.
  - apply Forall_cons_2; [|apply Forall_cons_2; [|apply Forall_nil_2]];
      (split; [split; by vm_compute|]);
      [exists 7, (object_bytes Examples.pi)|exists 9, (replicate 2 x00)];
      by vm_compute.
  - by vm_compute.
  - repeat constructor; done.
  - by vm_compute.
  - eexists _, t. rewrite (surjective_pairing Scenarios.stuck_reader) at 1.
    split; [exact Hclose|]. split; [exact Hfeed|]. rewrite Hp. by vm_compute.
Defined.

Lemma poll_keeps_witness :
  keeps (Examples.idle_reader Examples.sub0,
         Examples.world_pi (Examples.wire_pi Examples.sub0))
        (read Examples.cfg_debug Examples.sub0
           (Examples.idle_reader Examples.sub0,
            Examples.world_pi (Examples.wire_pi Examples.sub0))).2.
Proof.
  apply (poll_keeps Examples.cfg_debug Examples.sub0 _
           (read Examples.cfg_debug Examples.sub0
              (Examples.idle_reader Examples.sub0,
               Examples.world_pi (Examples.wire_pi Examples.sub0))).1).
  apply surjective_pairing.
Defined.

End DeserializerFacts.


(** * From one broker to another over a stream *)
Module ForwardFacts.
Import Broker BinaryReader Streams.

Section Bridge.

Variables filterA filterB : nat → Message → bool.

Lemma run_calls_app proto fwd a b s :
  ForwardSubscribe.run_calls proto fwd (a ++ b) s
  = ForwardSubscribe.run_calls proto fwd b (ForwardSubscribe.run_calls proto fwd a s).
Proof. apply foldl_app. Qed.

Lemma run_calls_others proto fwd data ids s :
  fwd ∉ ids →
  ForwardSubscribe.run_calls proto fwd (flat_map (visit filterA data) ids) s = s.
Proof.
  revert s. induction ids as [|i ids IH]; intros s Hout; [done|].
  cbn [flat_map]. rewrite run_calls_app, IH by set_solver.
  unfold visit. assert (i ≠ fwd) by set_solver.
  destruct (filterA i data);
    cbn [ForwardSubscribe.run_calls foldl ForwardSubscribe.run_call];
    [by rewrite decide_False|done].
Qed.

Lemma run_calls_visit proto fwd data ids s :
  NoDup ids → fwd ∈ ids →
  ForwardSubscribe.run_calls proto fwd (flat_map (visit filterA data) ids) s
  = if filterA fwd data then StreamSerializer.forward proto data s else s.
Proof.
  revert s. induction ids as [|i ids IH]; intros s Hnd Hin; [set_solver|].
  apply NoDup_cons in Hnd as [Hout Hnd]. cbn [flat_map]. rewrite run_calls_app.
  destruct (decide (i = fwd)) as [->|Hne].
  - rewrite run_calls_others by done. unfold visit.
    destruct (filterA fwd data);
      cbn [ForwardSubscribe.run_calls foldl ForwardSubscribe.run_call];
      [by rewrite decide_True|done].
  - assert (fwd ∈ ids) as Hin' by (apply elem_of_cons in Hin as [|]; done).
    rewrite IH by done. unfold visit.
    destruct (filterA i data);
      cbn [ForwardSubscribe.run_calls foldl ForwardSubscribe.run_call];
      [by rewrite decide_False|done].
Qed.

Lemma Forall_kept {A} (P : A → Prop) (Q : A → Prop) `{!∀ x, Decision (Q x)}
    (l : list A) :
  Forall P l → Forall P (filter Q l).
Proof.
  rewrite !Forall_forall. intros Hall x [_ Hin]%list_elem_of_filter.
  by apply Hall.
Qed.

Lemma publish_all_spec cfg st fwd proto msgs s :
  wf st → NoDup (registered_ids st) → fwd ∈ registered_ids st →
  ForwardSubscribe.publish_all filterA cfg st fwd proto msgs s
  = Returned (StreamSerializer.forward_all proto
                (filter (λ d, filterA fwd d) msgs) s).
Proof.
  intros Hwf Hnd Hin. revert s.
  induction msgs as [|data msgs IH]; intros s; [done|].
  cbn [ForwardSubscribe.publish_all]. unfold ForwardSubscribe.publish.
  rewrite BrokerFacts.publish_spec by done.
  cbn [mbind Outcome_bind Build.bind].
  rewrite run_calls_visit, IH, filter_cons by done.
  destruct (filterA fwd data); by destruct (decide _).
Qed.

Lemma run_events_spec cfg st k T reg msgs :
  wf st →
  Forall (λ d, type_id d = T ∧ sink reg d = k) msgs →
  ForwardPublish.run_events filterB cfg st k T (map (event reg) msgs)
  = Returned (flat_map (λ d, flat_map (visit filterB d) (registered_ids st)) msgs).
Proof.
  intros Hwf. induction 1 as [|d msgs [HT Hk] _ IH]; [done|].
  cbn [map flat_map]. unfold event at 1. cbn [ForwardPublish.run_events].
  rewrite Hk, decide_True by done. unfold ForwardPublish.publish.
  rewrite BrokerFacts.publish_spec by done.
  cbn [mbind Outcome_bind Build.bind]. rewrite IH.
  cbn [mbind Outcome_bind Build.bind]. rewrite <- HT. by destruct d.
Qed.

(** Two processes joined by a stream.  In the first a [ForwardSubscribe] on
    a serializer is one of the subscribers of a broker, and the transport
    has room for the frames; in the second the [ForwardPublish] object [k]
    of the same type has registered its buffer with a deserializer, whose
    reader is at a frame boundary, and publishes on a broker of its own.
    The values published in the first process that the forwarder's filter
    accepts reach every subscriber of the second broker, in the order they
    were published, each visited as a local publish would: however the
    bytes are cut on the way. *)
Theorem forwarded_between_brokers cfgA cfgB proto stA fwd stB k T r w msgs s :
  wf stA → NoDup (registered_ids stA) → fwd ∈ registered_ids stA →
  wf stB →
  Prefix_t proto ≠ Some [] → synced proto r → members_sized proto r →
  stream w = [] → published w = [] →
  Forall (λ d, receivable (dataBufferRegistery_ r) (heap w) d ∧
               type_id d = T ∧ sink (dataBufferRegistery_ r) d = k) msgs →
  BinaryWriter.wire s = [] →
  length (wire proto (filter (λ d, filterA fwd d) msgs)) ≤ BinaryWriter.room s →
  ∃ s', ForwardSubscribe.publish_all filterA cfgA stA fwd proto msgs s
        = Returned s' ∧
        BinaryWriter.wire s' = wire proto (filter (λ d, filterA fwd d) msgs) ∧
        ∀ chunks, chunks ≠ [] → Forall (λ c, c ≠ []) chunks →
          concat chunks = BinaryWriter.wire s' →
          ∃ t, feed cfgB proto chunks (r, w) = (Returned false, t) ∧
               ForwardPublish.run_events filterB cfgB stB k T (published t.2)
               = Returned
                   (flat_map (λ d, flat_map (visit filterB d) (registered_ids stB))
                      (filter (λ d, filterA fwd d) msgs)).
Proof.
  intros HwfA Hnd Hin HwfB Hwf Hsync Hsized Hs Hp Hall Hw Hroom.
  eexists. split; [by apply publish_all_spec|].
  rewrite StreamFacts.forward_all_spec. cbn [BinaryWriter.wire].
  rewrite Hw, take_ge by done. split; [done|].
  intros chunks Hne Hchunks Heq.
  assert (Forall (receivable (dataBufferRegistery_ r) (heap w))
            (filter (λ d, filterA fwd d) msgs)) as Hrec.
  { apply Forall_kept. eapply Forall_impl; [done|]. by intros d [? _]. }
  destruct (StreamFacts.feed_wire cfgB proto r w _ chunks Hwf Hsync Hsized Hs
              Hrec Hne Hchunks Heq) as (t & Hfeed & Hpub & _).
  exists t. split; [done|]. rewrite Hpub, Hp. cbn [app].
  apply run_events_spec; [done|].
  apply Forall_kept. eapply Forall_impl; [done|]. by intros d [_ ?].
Qed.

End Bridge.

Lemma forwarded_between_brokers_witness :
  let proto := Examples.sub0_noprefix in
  ∃ s' t,
    ForwardSubscribe.publish_all Scenarios.no_zeros Examples.cfg_debug
      Examples.broker123 2 proto [Examples.pi; Scenarios.zero; Examples.pi]
      {| BinaryWriter.wire := []; BinaryWriter.room := 64 |} = Returned s' ∧
    length (BinaryWriter.wire s') = 26 ∧
    feed Examples.cfg_release proto (Examples.bytewise (BinaryWriter.wire s'))
      (Scenarios.reader_two proto)
    = (Returned false, t) ∧
    ForwardPublish.run_events Scenarios.take_all Examples.cfg_release
      Examples.broker123 7 100 (published t.2)
    = Returned [Filter 1 Examples.pi; Receive 1 Examples.pi;
                Filter 2 Examples.pi; Receive 2 Examples.pi;
                Filter 3 Examples.pi; Receive 3 Examples.pi;
                Filter 1 Examples.pi; Receive 1 Examples.pi;
                Filter 2 Examples.pi; Receive 2 Examples.pi;
                Filter 3 Examples.pi; Receive 3 Examples.pi].
Proof.
  cbv zeta.
  destruct (forwarded_between_brokers Scenarios.no_zeros Scenarios.take_all
              Examples.cfg_debug Examples.cfg_release Examples.sub0_noprefix
              Examples.broker123 2 Examples.broker123 7 100%N
              (Scenarios.reader_two Examples.sub0_noprefix).1
              (Scenarios.reader_two Examples.sub0_noprefix).2
              [Examples.pi; Scenarios.zero; Examples.pi]
              {| BinaryWriter.wire := []; BinaryWriter.room := 64 |})
    as (s' & Hpub & Hwire & Hfeed).
  - exact BrokerFacts.wf_broker123.
  - apply (bool_decide_unpack _). by vm_compute.
  - apply (bool_decide_unpack _). by vm_compute.
  - exact BrokerFacts.wf_broker123.
  - done.
  - right. by vm_compute.
  - by vm_compute.
  - reflexivity.
  - reflexivity.
  - apply Forall_cons_2; [|apply Forall_cons_2; [|apply Forall_cons_2;
      [|apply Forall_nil_2]]];
      (split; [|by vm_compute]); (split; [split; by vm_compute|]);
      exists 7, (replicate 4 x00); by vm_compute.
  - reflexivity.
  - vm_compute. lia.
  - destruct (Hfeed (Examples.bytewise (BinaryWriter.wire s')))
      as (t & Ht & Hcalls).
    + rewrite Hwire. by vm_compute.
    + rewrite Hwire. vm_compute. repeat constructor; done.
    + rewrite Hwire. by vm_compute.
    + exists s', t. split; [exact Hpub|]. split; [by rewrite Hwire|].
      split; [exact Ht|]. rewrite Hcalls. by vm_compute.
Defined.

End ForwardFacts.


(** * A transport that gives out in the middle of a frame *)
Module TransportFacts.
Import BinaryReader Streams ReaderFacts StreamFacts.

Lemma wire_app proto a b : wire proto (a ++ b) = wire proto a ++ wire proto b.
Proof. unfold wire. by rewrite map_app, concat_app. Qed.

(** A run over bytes [q] that hold the frames of [msgs] and a first part
    of the frame of [data]: the messages have been published, [data] has
    not, and the reader waits. *)
Lemma from_start_cut cfg proto msgs data r w q rest :
  Prefix_t proto ≠ Some [] →
  synced proto r → members_sized proto r → stream w = [] →
  Forall (receivable (dataBufferRegistery_ r) (heap w)) (msgs ++ [data]) →
  q ++ rest = wire proto (msgs ++ [data]) →
  length (wire proto msgs) ≤ length q → rest ≠ [] →
  ∃ kk t,
    run cfg proto kk (arrive q (r, w)) = Some (Returned false, t) ∧
    blocked t.1 ∧
    published t.2 = published w ++ map (event (dataBufferRegistery_ r)) msgs.
Proof.
  intros Hwf. revert r w q.
  induction msgs as [|m msgs IH]; intros r w q Hsync Hsized Hs Hall Heq Hlen Hrest.
  - cbn [app] in Hall, Heq. apply Forall_cons in Hall as [Hdata _].
    destruct (receivable_sink _ _ _ Hdata) as (old & Hfind & Hk & Hold).
    pose proof (frame_parts proto data []) as Hparts.
    rewrite !app_nil_r in Hparts.
    rewrite wire_cons in Heq. cbn [wire map concat] in Heq.
    rewrite app_nil_r, Hparts in Heq.
    destruct (from_start cfg proto r w (Header_of data)
                (sink (dataBufferRegistery_ r) data)
                (length (object_bytes data)) 0
                (sink (dataBufferRegistery_ r) data) old
                (default [] (Prefix_t proto)) (object_bytes data) []
                (default [] (Postfix_t proto)) q rest)
      as (kk & o & t & Hrun & Hres); try done.
    { by destruct Hdata. } { lia. } { apply default_sized. }
    { apply default_sized. }
    unfold frame_result in Hres. destruct rest as [|b rest]; [done|].
    destruct Hres as (-> & Hb & Hp).
    exists kk, t. cbn [map]. by rewrite app_nil_r.
  - cbn [app] in Hall, Heq. apply Forall_cons in Hall as [Hm Hall].
    destruct (receivable_sink _ _ _ Hm) as (old & Hfind & Hk & Hold).
    rewrite wire_cons in Heq, Hlen. rewrite length_app in Hlen.
    set (reg := dataBufferRegistery_ r) in *.
    set (k := sink reg m) in *.
    destruct (split_covers _ _ _ _ Heq ltac:(lia)) as (q2 & -> & Heq2).
    rewrite length_app in Hlen.
    destruct (run_frame_then cfg proto r w (Header_of m) k
                (length (object_bytes m)) 0 k old
                (default [] (Prefix_t proto)) (object_bytes m) [] q2)
      as [c Hc]; try done.
    { by destruct Hm. } { lia. } { apply default_sized. }
    cbv zeta in Hc.
    rewrite drop_ge, app_nil_r in Hc by lia.
    rewrite lookup_insert_eq in Hc. cbn [default from_option id] in Hc.
    destruct (IH (after_frame proto r (Header_of m)
                    (default [] (Prefix_t proto)) (default [] (Postfix_t proto)))
                 (MkWorld [] (<[k := object_bytes m]> (heap w))
                    (published w ++ [(k, object_bytes m)])) q2)
      as (kk & t & Hrun & Hb & Hp); try done.
    { left. apply after_frame_between. }
    { apply after_frame_sized; [done|apply default_sized..]. }
    { cbn [heap after_frame dataBufferRegistery_].
      by apply receivable_landed_all. }
    { lia. }
    exists (c + kk), t. rewrite frame_parts, Hc. split_and!; [done|done|].
    cbn [published after_frame dataBufferRegistery_] in Hp.
    by rewrite Hp, <- app_assoc.
Qed.

(** The transport takes the frames of [msgs] and gives out within the frame
    of [data].  The serializer reports nothing.  A reader at a frame
    boundary that has a buffer registered for each of the messages,
    however the bytes that did get out are cut, publishes [msgs], in
    order, and then waits: of [data], and of what was forwarded after it,
    nothing is published. *)
Theorem truncated_frame_not_published cfg proto r w msgs data later s chunks :
  Prefix_t proto ≠ Some [] → synced proto r → members_sized proto r →
  stream w = [] →
  Forall (receivable (dataBufferRegistery_ r) (heap w)) (msgs ++ [data]) →
  BinaryWriter.wire s = [] →
  length (wire proto msgs) ≤ BinaryWriter.room s →
  BinaryWriter.room s < length (wire proto (msgs ++ [data])) →
  chunks ≠ [] → Forall (λ c, c ≠ []) chunks →
  concat chunks
  = BinaryWriter.wire
      (StreamSerializer.forward_all proto (msgs ++ data :: later) s) →
  ∃ t, feed cfg proto chunks (r, w) = (Returned false, t) ∧
       published t.2
       = published w ++ map (event (dataBufferRegistery_ r)) msgs ∧
       blocked t.1.
Proof.
  intros Hwf Hsync Hsized Hs Hall Hw Hlo Hhi Hne Hchunks Heq.
  rewrite forward_all_spec in Heq. cbn [BinaryWriter.wire] in Heq.
  rewrite Hw in Heq. cbn [app] in Heq.
  replace (msgs ++ data :: later) with ((msgs ++ [data]) ++ later) in Heq
    by (by rewrite <- app_assoc).
  rewrite wire_app, take_app_le in Heq by lia.
  set (full := wire proto (msgs ++ [data])) in *.
  set (n := BinaryWriter.room s) in *.
  assert (drop n full ≠ []) as Hrest.
  { intros Hnil. apply (f_equal length) in Hnil. rewrite length_drop in Hnil.
    cbn [length] in Hnil. lia. }
  assert (length (concat chunks) = n) as Hq.
  { rewrite Heq, length_take. lia. }
  destruct (from_start_cut cfg proto msgs data r w (concat chunks) (drop n full))
    as (kk & t & Hrun & Hb & Hp); try done.
  { by rewrite Heq, take_drop. }
  { lia. }
  exists t. split; [|done].
  apply feed_chunks; [done| |by exists kk|done].
  intros i Hi.
  destruct (from_start_stream cfg proto (msgs ++ [data]) r w
              (concat (take i chunks))
              (concat (drop i chunks) ++ drop n full))
    as (ki & ti & Hruni & Hbi & _); try done.
  { rewrite app_assoc, <- concat_app, take_drop, Heq. apply take_drop. }
  by exists ki, ti.
Qed.

Lemma truncated_frame_not_published_witness :
  let proto := Examples.sub0_noprefix in
  let s := StreamSerializer.forward_all proto
             [Examples.pi; Scenarios.zero; Examples.pi]
             {| BinaryWriter.wire := []; BinaryWriter.room := 20 |} in
  length (BinaryWriter.wire s) = 20 ∧
  ∃ t, feed Examples.cfg_debug proto (Examples.bytewise (BinaryWriter.wire s))
         (Scenarios.reader_two proto)
       = (Returned false, t) ∧
       published t.2 = [(7, object_bytes Examples.pi)].
Proof.
  cbv zeta. split; [reflexivity|].
  destruct (truncated_frame_not_published Examples.cfg_debug
              Examples.sub0_noprefix
              (Scenarios.reader_two Examples.sub0_noprefix).1
              (Scenarios.reader_two Examples.sub0_noprefix).2
              [Examples.pi] Scenarios.zero [Examples.pi]
              {| BinaryWriter.wire := []; BinaryWriter.room := 20 |}
              (Examples.bytewise
                 (BinaryWriter.wire
                    (StreamSerializer.forward_all Examples.sub0_noprefix
                       [Examples.pi; Scenarios.zero; Examples.pi]
                       {| BinaryWriter.wire := []; BinaryWriter.room := 20 |}))))
    as (t & Hfeed & Hp & _).
  - done.
  - right. by vm_compute.
  - by vm_compute.
  - reflexivity.
  - apply Forall_cons_2; [|apply Forall_cons_2; [|apply Forall_nil_2]];
      (split; [split; by vm_compute|]);
      exists 7, (replicate 4 x00); by vm_compute.
  - reflexivity.
  - vm_compute. lia.
  - vm_compute. lia.
  - by vm_compute.
  - vm_compute. repeat constructor; done.
  - reflexivity.
  - exists t. split; [exact Hfeed|]. rewrite Hp. by vm_compute.
Defined.

End TransportFacts.
